(** * Spring explosion generators: the CEG expression compiler, its bytecode
      interpreter and the program cache

    A shallow embedding of [rts/Sim/Projectiles/ExplosionGenerator.cpp]:
    - [ParseExplosionCode], the type-directed compiler from per-field
      expression text to an opcode stream;
    - [ExecuteExplosionCode], the interpreter replaying such a stream on one
      spawned instance;
    - [Load], [Reload], [Unload], [ClearCache] and [Explosion] of
      [CCustomExplosionGenerator], the cache of compiled definitions.

    Machine integers are [Z] with their wrap-around written out, [float] is
    IEEE binary32 through [SpecFloat], the opcode stream is a list of bytes,
    [std::map<std::string, unsigned int>] is a [gmap] visited in key order and
    [std::vector<CEGData>] is a list. *)

From stdpp Require Import gmap strings list fin_maps sorting.
From Stdlib Require Import ZArith Lia Ascii String.
From Stdlib Require Import Floats.SpecFloat.

Local Open Scope Z_scope.

(** ** Outcomes of the modelled C++ code *)

(** A call either returns, leaves through a C++ exception ([content_error],
    [std::out_of_range]), never returns, stops in [assert(false)], or has
    undefined behaviour (an access outside an array). *)
Inductive Res (A : Type) : Type :=
| Ok (a : A)
| Throw (what : string)
| Diverges
| Abort
| Undefined (why : string).
Arguments Ok {A} a.
Arguments Throw {A} what.
Arguments Diverges {A}.
Arguments Abort {A}.
Arguments Undefined {A} why.

Definition bind {A B : Type} (r : Res A) (k : A -> Res B) : Res B :=
  match r with
  | Ok a => k a
  | Throw w => Throw w
  | Diverges => Diverges
  | Abort => Abort
  | Undefined w => Undefined w
  end.

Notation "'let*' x ':=' e 'in' k" := (bind e (fun x => k))
  (at level 10, x pattern, k at level 200).

#[global] Instance Res_fmap : FMap Res := fun A B f r => let* a := r in Ok (f a).

(** ** Machine integers and their byte images (little endian) *)

Definition byte := Z.

Definition uint16 (z : Z) : Z := z mod 65536.
Definition uint32 (z : Z) : Z := z mod 4294967296.
(** value of a 32-bit pattern read as [int] *)
Definition int32 (z : Z) : Z := (z + 2147483648) mod 4294967296 - 2147483648.
(** [std::string::size_type] arithmetic *)
Definition size_type (z : Z) : Z := z mod 18446744073709551616.
Definition npos : Z := 18446744073709551615.

Definition INT_MIN : Z := -2147483648.
Definition LONG_MAX : Z := 9223372036854775807.
Definition LONG_MIN : Z := -9223372036854775808.

(** the [n] low bytes of [z], least significant first *)
Fixpoint le_bytes (n : nat) (z : Z) : list byte :=
  match n with
  | O => []
  | S n' => z mod 256 :: le_bytes n' (z / 256)
  end.

Fixpoint le_value (bs : list byte) : Z :=
  match bs with
  | [] => 0
  | b :: bs' => b mod 256 + 256 * le_value bs'
  end.

(** ** [float] : IEEE binary32, and the binary64 of [strtod] *)

Module F32.
Definition prec : Z := 24.
Definition emax : Z := 128.

Definition add := SFadd prec emax.
Definition sub := SFsub prec emax.
Definition mul := SFmul prec emax.
Definition div := SFdiv prec emax.
Definition eqb := SFeqb.

Definition zero : spec_float := S754_zero false.
Definition one : spec_float := S754_finite false 8388608 (-23).

(** [(float) i] for an [int] *)
Definition of_int (i : Z) : spec_float := binary_normalize prec emax i 0 false.

(** [(float) d] for a [double] *)
Definition of_double (d : spec_float) : spec_float :=
  match d with
  | S754_finite s m e => binary_round prec emax s m e
  | _ => d
  end.

(** [math::floor] *)
Definition floor (x : spec_float) : spec_float :=
  match x with
  | S754_finite s m e =>
      if 0 <=? e then x
      else
        let q := Z.pos m / 2 ^ (- e) in
        let r := Z.pos m mod 2 ^ (- e) in
        if s then binary_normalize prec emax (- (if r =? 0 then q else q + 1)) 0 true
        else binary_normalize prec emax q 0 false
  | _ => x
  end.

(** [(int) x]: the fractional part is discarded; a value that does not fit
    (or a NaN) has no defined result in C++, the x86 conversion
    instruction delivers the "integer indefinite" [INT_MIN]. *)
Definition to_int (x : spec_float) : Z :=
  match x with
  | S754_zero _ => 0
  | S754_finite s m e =>
      let n := if 0 <=? e then Z.pos m * 2 ^ e else Z.pos m / 2 ^ (- e) in
      let v := if s then - n else n in
      if (INT_MIN <=? v) && (v <=? 2147483647) then v else INT_MIN
  | _ => INT_MIN
  end.

(** the 32-bit pattern of a value (a NaN is stored as the quiet NaN) *)
Definition to_bits (x : spec_float) : Z :=
  match x with
  | S754_zero s => if s then 2147483648 else 0
  | S754_infinity s => (if s then 2147483648 else 0) + 2139095040
  | S754_nan => 2143289344
  | S754_finite s m e =>
      (if s then 2147483648 else 0) +
      (if 8388608 <=? Z.pos m
       then (e + 150) * 8388608 + (Z.pos m - 8388608)
       else Z.pos m)
  end.

Definition of_bits (b : Z) : spec_float :=
  let s := 2147483648 <=? b mod 4294967296 in
  let ex := (b / 8388608) mod 256 in
  let frac := b mod 8388608 in
  if ex =? 0 then
    match frac with
    | Z.pos m => S754_finite s m (-149)
    | _ => S754_zero s
    end
  else if ex =? 255 then
    (if frac =? 0 then S754_infinity s else S754_nan)
  else
    match frac + 8388608 with
    | Z.pos m => S754_finite s m (ex - 150)
    | _ => S754_nan
    end.

Definition to_bytes (x : spec_float) : list byte := le_bytes 4 (to_bits x).
End F32.

Module F64.
Definition prec : Z := 53.
Definition emax : Z := 1024.

(** the binary64 nearest to [m * 10 ^ x], for [m >= 0] and sign [s] *)
Definition of_decimal (s : bool) (m : Z) (x : Z) : spec_float :=
  match m with
  | Z.pos p =>
      if 0 <=? x then binary_round prec emax s (p * Z.to_pos (10 ^ x)) 0
      else SFdiv prec emax (S754_finite s p 0)
                           (S754_finite false (Z.to_pos (10 ^ (- x))) 0)
  | _ => S754_zero s
  end.

(** the binary64 nearest to [m * 2 ^ x] *)
Definition of_binary (s : bool) (m : Z) (x : Z) : spec_float :=
  match m with
  | Z.pos p => binary_round prec emax s p x
  | _ => S754_zero s
  end.
End F64.

(** ** [std::string] and the C library scanners *)

Definition chars (s : string) : list ascii := list_ascii_of_string s.
Definition code_of (c : ascii) : Z := Z.of_N (N_of_ascii c).
Definition strlen (s : string) : Z := Z.of_nat (String.length s).

(** [s.find(c, pos)] *)
Fixpoint find_in (c : ascii) (l : list ascii) (i : Z) : Z :=
  match l with
  | [] => npos
  | x :: l' => if Ascii.eqb x c then i else find_in c l' (i + 1)
  end.

Definition find (s : string) (c : ascii) (pos : Z) : Z :=
  if strlen s <? pos then npos
  else find_in c (drop (Z.to_nat pos) (chars s)) pos.

(** [s.substr(pos, count)]: throws when [pos] lies behind the end, and stops
    at the end of [s] when [count] reaches further. *)
Definition substr (s : string) (pos count : Z) : Res string :=
  if strlen s <? pos then Throw "std::out_of_range"
  else Ok (string_of_list_ascii
             (take (Z.to_nat (Z.min count (strlen s))) (drop (Z.to_nat pos) (chars s)))).

Definition isdigit (c : ascii) : bool := (48 <=? code_of c) && (code_of c <=? 57).
Definition isspace (c : ascii) : bool :=
  (code_of c =? 32) || ((9 <=? code_of c) && (code_of c <=? 13)).
Definition tolower (c : ascii) : ascii :=
  if (65 <=? code_of c) && (code_of c <=? 90)
  then ascii_of_N (N_of_ascii c + 32) else c.
Definition hexval (c : ascii) : option Z :=
  let n := code_of (tolower c) in
  if isdigit c then Some (code_of c - 48)
  else if (97 <=? n) && (n <=? 102) then Some (n - 87)
  else None.
Definition isalnum_ (c : ascii) : bool :=
  let n := code_of (tolower c) in
  isdigit c || ((97 <=? n) && (n <=? 122)) || (code_of c =? 95).

Fixpoint skip_space (l : list ascii) : nat * list ascii :=
  match l with
  | c :: l' => if isspace c then let '(n, r) := skip_space l' in (S n, r) else (O, l)
  | [] => (O, l)
  end.

(** an optional sign: is it negative, how many characters, what follows *)
Definition scan_sign (l : list ascii) : bool * nat * list ascii :=
  match l with
  | "-"%char :: l' => (true, 1%nat, l')
  | "+"%char :: l' => (false, 1%nat, l')
  | _ => (false, O, l)
  end.

(** the longest run of decimal digits: value after [acc], count, rest *)
Fixpoint scan_digits (l : list ascii) (acc : Z) : Z * nat * list ascii :=
  match l with
  | c :: l' =>
      if isdigit c
      then let '(v, n, r) := scan_digits l' (10 * acc + (code_of c - 48)) in (v, S n, r)
      else (acc, O, l)
  | [] => (acc, O, l)
  end.

Fixpoint scan_hex (l : list ascii) (acc : Z) : Z * nat * list ascii :=
  match l with
  | c :: l' =>
      match hexval c with
      | Some d => let '(v, n, r) := scan_hex l' (16 * acc + d) in (v, S n, r)
      | None => (acc, O, l)
      end
  | [] => (acc, O, l)
  end.

(** [strtol(s, &endp, 10)] on a 64-bit [long]: the value and [endp - s] *)
Definition strtol (l : list ascii) : Z * nat :=
  let '(ws, l1) := skip_space l in
  let '(neg, sg, l2) := scan_sign l1 in
  let '(v, nd, _) := scan_digits l2 0 in
  match nd with
  | O => (0, O)
  | _ =>
      let v' := if neg then - v else v in
      (Z.max LONG_MIN (Z.min LONG_MAX v'), (ws + sg + nd)%nat)
  end.

(** does [l] start with the lower-case word [w], whatever the case in [l] *)
Fixpoint skip_word (w : list ascii) (l : list ascii) : option (list ascii) :=
  match w, l with
  | [], _ => Some l
  | a :: w', c :: l' => if Ascii.eqb (tolower c) a then skip_word w' l' else None
  | _ :: _, [] => None
  end.

(** an exponent part: marker, optional sign, at least one digit *)
Definition scan_exponent (marker : ascii) (l : list ascii) : Z * nat :=
  match l with
  | c :: l1 =>
      if Ascii.eqb (tolower c) marker then
        let '(neg, sg, l2) := scan_sign l1 in
        let '(v, nd, _) := scan_digits l2 0 in
        match nd with
        | O => (0, O)
        | _ => (if neg then - v else v, (1 + sg + nd)%nat)
        end
      else (0, O)
  | [] => (0, O)
  end.

(** digits, optionally with one radix point among them: the digits read as
    one integer, how many of them follow the point, the characters taken
    (none when there is no digit at all) and the rest *)
Definition scan_significand
    (scan : list ascii -> Z -> Z * nat * list ascii) (l : list ascii)
  : Z * nat * nat * list ascii :=
  let '(v1, n1, r1) := scan l 0 in
  match r1 with
  | "."%char :: r2 =>
      let '(v2, n2, r3) := scan r2 v1 in
      match (n1 + n2)%nat with
      | O => (0, O, O, l)
      | _ => (v2, n2, (n1 + 1 + n2)%nat, r3)
      end
  | _ =>
      match n1 with
      | O => (0, O, O, l)
      | _ => (v1, O, n1, r1)
      end
  end.

Fixpoint skip_nchars (l : list ascii) : nat * list ascii :=
  match l with
  | c :: l' => if isalnum_ c then let '(n, r) := skip_nchars l' in (S n, r) else (O, l)
  | [] => (O, l)
  end.

(** the subject sequence after white space and sign *)
Definition strtod_body (s : bool) (l : list ascii) : option (spec_float * nat) :=
  let hex :=
    match l with
    | "0"%char :: x :: l' =>
        if Ascii.eqb (tolower x) "x"%char then
          let '(m, nf, n, r) := scan_significand scan_hex l' in
          match n with
          | O => None
          | _ =>
              let '(e, ne) := scan_exponent "p"%char r in
              Some (F64.of_binary s m (e - 4 * Z.of_nat nf), (2 + n + ne)%nat)
          end
        else None
    | _ => None
    end in
  match hex with
  | Some r => Some r
  | None =>
      let '(m, nf, n, r) := scan_significand scan_digits l in
      match n with
      | S _ =>
          let '(e, ne) := scan_exponent "e"%char r in
          Some (F64.of_decimal s m (e - Z.of_nat nf), (n + ne)%nat)
      | O =>
          match skip_word (chars "infinity") l with
          | Some _ => Some (S754_infinity s, 8%nat)
          | None =>
              match skip_word (chars "inf") l with
              | Some _ => Some (S754_infinity s, 3%nat)
              | None =>
                  match skip_word (chars "nan") l with
                  | Some ("("%char :: r') =>
                      match skip_nchars r' with
                      | (k, ")"%char :: _) => Some (S754_nan, (5 + k)%nat)
                      | _ => Some (S754_nan, 3%nat)
                      end
                  | Some _ => Some (S754_nan, 3%nat)
                  | None => None
                  end
              end
          end
      end
  end.

(** [strtod(s, &endp)] in the "C" locale: the [double] and [endp - s]; when
    no conversion is possible the value is zero and [endp = s]. *)
Definition strtod (l : list ascii) : spec_float * nat :=
  let '(ws, l1) := skip_space l in
  let '(neg, sg, l2) := scan_sign l1 in
  match strtod_body neg l2 with
  | Some (v, n) => (v, (ws + sg + n)%nat)
  | None => (S754_zero false, O)
  end.

(** ** The instruction set *)

(** The opcode tags are an enum of [ExplosionGenerator.h], a header outside
    this development; they are numbered here in the order of the
    interpreter's [switch]. Only their being pairwise distinct matters. *)
Definition OP_END : byte := 0.
Definition OP_STOREI : byte := 1.
Definition OP_STOREF : byte := 2.
Definition OP_STOREC : byte := 3.
Definition OP_ADD : byte := 4.
Definition OP_RAND : byte := 5.
Definition OP_DAMAGE : byte := 6.
Definition OP_INDEX : byte := 7.
Definition OP_LOADP : byte := 8.
Definition OP_STOREP : byte := 9.
Definition OP_DIR : byte := 10.
Definition OP_SAWTOOTH : byte := 11.
Definition OP_DISCRETE : byte := 12.
Definition OP_SINE : byte := 13.
Definition OP_YANK : byte := 14.
Definition OP_MULTIPLY : byte := 15.
Definition OP_ADDBUFF : byte := 16.
Definition OP_POW : byte := 17.
Definition OP_POWBUFF : byte := 18.

(** ** The reflected schema (creg) *)

Inductive BasicTypeID : Set :=
| crInt | crUInt | crShort | crUShort | crChar | crUChar
| crInt64 | crFloat | crDouble | crBool.

(** [creg::IType] with the subclasses the compiler tests for, [creg::Class]
    (a null [Class*] is [NullClass]) and its vector of members. *)
Inductive IType : Type :=
| BasicType (id : BasicTypeID)
| ObjectInstanceType (objectClass : Class)
| StaticArrayBaseType (elemType : IType) (size : nat) (elemSize : Z)
| NamedType (name : string)
with Class : Type :=
| NullClass
| MkClass (name : string) (binderFlags : Z) (members : Members) (base : Class)
with Members : Type :=
| MNil
| MCons (name : string) (offset : Z) (type : IType) (flags : Z) (rest : Members).

(** ** The engine around the generator

    What the generator consumes from the rest of the engine: the texture
    atlases, the colour map cache, the generator handler that creates nested
    generators, the parsed definition tables, the class registry, the random
    source, the terrain and the maths library. [World] is the state of all
    of that; operations that change it return the new one. *)
Class Engine : Type := {
  World : Type;
  LuaTable : Type;
  (** the size of a pointer, in bytes *)
  ptr_size : nat;
  textureAtlas_GetTexture : World -> string -> Z;
  groundFXAtlas_GetTexture : World -> string -> Z;
  CColorMap_LoadFromDefString : World -> string -> Z * World;
  LoadGenerator : World -> string -> Res (Z * World);
  UnloadGenerator : World -> Z -> World;
  GetExplosionTableRoot : World -> option LuaTable;
  SubTable : LuaTable -> string -> LuaTable;
  IsValid : LuaTable -> bool;
  GetKeys : LuaTable -> list string;
  GetString : LuaTable -> string -> string -> string;
  GetInt : LuaTable -> string -> Z -> Z;
  GetBool : LuaTable -> string -> bool -> bool;
  GetFloat : LuaTable -> string -> spec_float -> spec_float;
  GetFloat3 : LuaTable -> string -> spec_float * spec_float * spec_float
              -> spec_float * spec_float * spec_float;
  GetMap : LuaTable -> list (string * string);
  creg_GetClass : World -> string -> Class;
  (** the flag bits of creg tested by [Load] *)
  CF_Synced : Z;
  CM_Config : Z;
  (** [Class::FindMember]: offset, type and flags of the member found *)
  FindMember : Class -> string -> option (Z * IType * Z);
  (** what the uninitialised [buffer] of a run happens to hold *)
  stack_garbage : World -> Z -> spec_float;
  projectileClasses_aliases : World -> gmap string string;
  RandFloat : World -> spec_float * World;
  GetHeightReal : World -> spec_float -> spec_float -> spec_float;
  particleSaturation : World -> spec_float;
  math_sin : spec_float -> spec_float;
  math_pow : spec_float -> spec_float -> spec_float;
  (** [globalSEG->Explosion(...)], the standard composition *)
  StdExplosion : World -> Z -> spec_float * spec_float * spec_float
                 -> spec_float * spec_float * spec_float
                 -> spec_float -> spec_float -> spec_float -> Z -> bool
                 -> bool * World
}.

(** ** The compiler: [CCustomExplosionGenerator::ParseExplosionCode] *)

Section Compiler.
Context `{Engine}.

(** what a compilation reads and changes *)
Record CompileState : Type := {
  cs_code : list byte;
  cs_spawnExplGens : list Z;
  cs_world : World
}.

Definition emit (st : CompileState) (bs : list byte) : CompileState :=
  {| cs_code := cs_code st ++ bs;
     cs_spawnExplGens := cs_spawnExplGens st;
     cs_world := cs_world st |}.

Definition legalType (id : BasicTypeID) : bool :=
  match id with
  | crInt | crFloat | crUChar | crBool => true
  | _ => false
  end.

(** the mnemonic table: opcode and [useInt]; [None] for an unknown
    character. A digit, [.] or [-] starts the literal of an ADD and is
    handled apart, since it puts the character back. *)
Definition mnemonic (c : ascii) : option (byte * bool) :=
  if Ascii.eqb c "i" then Some (OP_INDEX, false)
  else if Ascii.eqb c "r" then Some (OP_RAND, false)
  else if Ascii.eqb c "d" then Some (OP_DAMAGE, false)
  else if Ascii.eqb c "m" then Some (OP_SAWTOOTH, false)
  else if Ascii.eqb c "k" then Some (OP_DISCRETE, false)
  else if Ascii.eqb c "s" then Some (OP_SINE, false)
  else if Ascii.eqb c "p" then Some (OP_POW, false)
  else if Ascii.eqb c "y" then Some (OP_YANK, true)
  else if Ascii.eqb c "x" then Some (OP_MULTIPLY, true)
  else if Ascii.eqb c "a" then Some (OP_ADDBUFF, true)
  else if Ascii.eqb c "q" then Some (OP_POWBUFF, true)
  else None.

Definition starts_literal (c : ascii) : bool :=
  isdigit c || Ascii.eqb c "." || Ascii.eqb c "-".

(** the operand at [p] and the position behind it: opcode and operand are
    appended to the code *)
Definition operand (script : list ascii) (p : nat) (opcode : byte) (useInt : bool)
  : list byte * nat :=
  if useInt then
    let '(l, n) := strtol (drop p script) in
    let v := Z.max 0 (Z.min 16 (int32 l)) in
    (opcode :: le_bytes 4 v, (p + n)%nat)
  else
    let '(d, n) := strtod (drop p script) in
    let v := F32.of_double d in
    (opcode :: F32.to_bytes v, (p + n)%nat).

(** the [while (p < script.length())] loop. Every round but one moves [p]
    forward, so [S (length script)] rounds of fuel are never used up; the
    exception is a [.] or [-] that starts no number: [p] is put back,
    [strtod] converts nothing, and the round ends where it began having
    appended [ADD 0], for ever. *)
Fixpoint tokenize (fuel : nat) (script : list ascii) (p : nat) (code : list byte)
  : Res (list byte) :=
  match fuel with
  | O => Diverges
  | S fuel' =>
      match script !! p with
      | None => Ok code
      | Some c =>
          if Ascii.eqb c " " then tokenize fuel' script (S p) code
          else
            let decoded :=
              match mnemonic c with
              | Some (opcode, useInt) => Some (opcode, useInt, S p)
              | None => if starts_literal c then Some (OP_ADD, false, p) else None
              end in
            match decoded with
            | None => tokenize fuel' script (S p) code
            | Some (opcode, useInt, p') =>
                if (List.length script <=? p')%nat then tokenize fuel' script p' code
                else
                  let '(bs, p'') := operand script p' opcode useInt in
                  if (p'' <=? p)%nat then Diverges
                  else tokenize fuel' script p'' (code ++ bs)
            end
      end
  end.

Definition storeOp (id : BasicTypeID) : list byte :=
  match id with
  | crInt => [OP_STOREI]
  | crBool => [OP_STOREI]
  | crFloat => [OP_STOREF]
  | crUChar => [OP_STOREC]
  | _ => []
  end.

Definition content_error_msg (script : string) : string :=
  "[CCEG::ParseExplosionCode] projectile type-properties other than int, float, uchar, or bool are not supported ("
  ++ script ++ ")".

(** [LOADP ptr; STOREP ofs] *)
Definition loadStoreP (ptr : Z) (offset : Z) : list byte :=
  OP_LOADP :: le_bytes ptr_size ptr ++ OP_STOREP :: le_bytes 2 (uint16 offset).

(** [script.substr(0, script.find(';', 0))] *)
Definition vastr_of (script : string) : Res string :=
  substr script 0 (find script ";" 0).

(** [ParseExplosionCode(psi, offset, type, script, code)]: [code], the
    generator's [spawnExplGens] and the engine travel in the state; [psi] is
    not used by the function. *)
Fixpoint ParseExplosionCode (st : CompileState) (offset : Z) (type : IType)
    (script : string) {struct type} : Res CompileState :=
  let* vastr := vastr_of script in
  if String.eqb vastr "dir" then
    Ok (emit st (OP_DIR :: le_bytes 2 (uint16 offset)))
  else
    match type with
    | BasicType id =>
        if negb (legalType id) then Throw (content_error_msg script)
        else
          let* code := tokenize (S (String.length script)) (chars script) 0 (cs_code st) in
          Ok {| cs_code := code ++ storeOp id ++ le_bytes 2 (uint16 offset);
                cs_spawnExplGens := cs_spawnExplGens st;
                cs_world := cs_world st |}
    | ObjectInstanceType oc => ParseClass st offset oc script 0
    | StaticArrayBaseType elemType size elemSize =>
        (fix elems (n : nat) (i : Z) (start : Z) (st : CompileState) {struct n}
           : Res CompileState :=
           match n with
           | O => Ok st
           | S n' =>
               let end_ := find script "," (size_type (start + 1)) in
               let* sub := substr script start (size_type (end_ - start)) in
               let* st' := ParseExplosionCode st (int32 (offset + elemSize * i)) elemType sub in
               let start' := size_type (end_ + 1) in
               if strlen script <=? start' then Ok st'
               else elems n' (i + 1) start' st'
           end) size 0 0 st
    | NamedType name =>
        if String.eqb name "AtlasedTexture*" then
          let* texname := substr script 0 (find script ";" 0) in
          let tex := textureAtlas_GetTexture (cs_world st) texname in
          Ok (emit st (loadStoreP tex offset))
        else if String.eqb name "GroundFXTexture*" then
          let* texname := substr script 0 (find script ";" 0) in
          let tex := groundFXAtlas_GetTexture (cs_world st) texname in
          Ok (emit st (loadStoreP tex offset))
        else if String.eqb name "CColorMap*" then
          let* colorstring := substr script 0 (find script ";" 0) in
          let '(colormap, w) := CColorMap_LoadFromDefString (cs_world st) colorstring in
          Ok {| cs_code := cs_code st ++ loadStoreP colormap offset;
                cs_spawnExplGens := cs_spawnExplGens st;
                cs_world := w |}
        else if String.eqb name "IExplosionGenerator*" then
          let* name := substr script 0 (find script ";" 0) in
          let* (explGen, w) := LoadGenerator (cs_world st) name in
          Ok {| cs_code := cs_code st ++ loadStoreP explGen offset;
                cs_spawnExplGens := cs_spawnExplGens st ++ [explGen];
                cs_world := w |}
        else Ok st
    end
(** the loop over the class and its ancestors *)
with ParseClass (st : CompileState) (offset : Z) (c : Class) (script : string)
    (start : Z) {struct c} : Res CompileState :=
  match c with
  | NullClass => Ok st
  | MkClass _ _ members base =>
      let* (st', start') := ParseMembers st offset members script start in
      if strlen script <=? start' then Ok st'
      else ParseClass st' offset base script start'
  end
(** the loop over the members of one class; it hands back [start] *)
with ParseMembers (st : CompileState) (offset : Z) (ms : Members) (script : string)
    (start : Z) {struct ms} : Res (CompileState * Z) :=
  match ms with
  | MNil => Ok (st, start)
  | MCons _ moffset mtype _ rest =>
      let end_ := find script "," (size_type (start + 1)) in
      let* sub := substr script start (size_type (end_ - start)) in
      let* st' := ParseExplosionCode st (int32 (offset + moffset)) mtype sub in
      let start' := size_type (end_ + 1) in
      if strlen script <=? start' then Ok (st', start')
      else ParseMembers st' offset rest script start'
  end.

End Compiler.

(** ** The interpreter: [CCustomExplosionGenerator::ExecuteExplosionCode] *)

(** A store into the instance: what is written, and where. The instance is
    raw memory of a class unknown to the interpreter, so it is kept as the
    stores made into it, oldest first. *)
Inductive Value : Type :=
| VInt (i : Z)
| VFloat (f : spec_float)
| VUChar (c : Z)
| VPtr (p : Z)
| VFloat3 (v : spec_float * spec_float * spec_float).

Record Store : Type := { st_offset : Z; st_value : Value }.

Definition Instance : Type := list Store.

Section Interpreter.
Context `{Engine}.

(** number of bytes a store covers *)
Definition width (v : Value) : Z :=
  match v with
  | VInt _ => 4
  | VFloat _ => 4
  | VUChar _ => 1
  | VPtr _ => Z.of_nat ptr_size
  | VFloat3 _ => 12
  end.

(** does the store cover the byte at [instance + a] *)
Definition covers (s : Store) (a : Z) : bool :=
  (st_offset s <=? a) && (a <? st_offset s + width (st_value s)).

Definition touched (i : Instance) (a : Z) : bool := existsb (fun s => covers s a) i.

(** Modelled from the spec: [SafeDivide], declared in the maths header
    outside this development: a division that yields 0 when the divisor is
    zero. *)
Definition SafeDivide (a b : spec_float) : spec_float :=
  if F32.eqb b F32.zero then F32.zero else F32.div a b.

(** the locals of one run, the instance and the engine (the random source) *)
Record ExecState : Type := {
  val : spec_float;
  ptr : Z;
  buffer : Z -> spec_float;
  instance : Instance;
  world : World
}.

Definition set_val (s : ExecState) (v : spec_float) : ExecState :=
  {| val := v; ptr := ptr s; buffer := buffer s; instance := instance s; world := world s |}.

Definition store (s : ExecState) (offset : Z) (v : Value) : ExecState :=
  {| val := val s; ptr := ptr s; buffer := buffer s;
     instance := instance s ++ [{| st_offset := offset; st_value := v |}];
     world := world s |}.

(** the next [n] bytes of the stream, read as one little endian number *)
Definition operand_bytes (n : nat) (code : list byte) : Res (Z * list byte) :=
  if (n <=? List.length code)%nat then Ok (le_value (take n code), drop n code)
  else Undefined "read behind the end of the opcode stream".

Definition float_operand (code : list byte) : Res (spec_float * list byte) :=
  let* (b, code') := operand_bytes 4 code in Ok (F32.of_bits b, code').

(** [buffer[i]] for the [int] operand [i]: the array has 16 slots *)
Definition buffer_at (s : ExecState) (i : Z) : Res spec_float :=
  if (0 <=? i) && (i <? 16) then Ok (buffer s i)
  else Undefined "buffer index out of range".

Definition buffer_set (b : Z -> spec_float) (i : Z) (v : spec_float) : Z -> spec_float :=
  fun j => if j =? i then v else b j.

Section Run.
Variables (damage : spec_float) (spawnIndex : Z)
          (dir : spec_float * spec_float * spec_float).

(** one [case] of the [switch], for an opcode other than [OP_END]: the
    rest of the stream and the new state. An unknown tag stops in
    [assert(false)]. *)
Definition exec_op (op : byte) (code : list byte) (s : ExecState)
  : Res (list byte * ExecState) :=
  if op =? OP_STOREI then
    let* (offset, code') := operand_bytes 2 code in
    Ok (code', set_val (store s offset (VInt (F32.to_int (val s)))) F32.zero)
  else if op =? OP_STOREF then
    let* (offset, code') := operand_bytes 2 code in
    Ok (code', set_val (store s offset (VFloat (val s))) F32.zero)
  else if op =? OP_STOREC then
    let* (offset, code') := operand_bytes 2 code in
    Ok (code', set_val (store s offset (VUChar (F32.to_int (val s) mod 256))) F32.zero)
  else if op =? OP_ADD then
    let* (f, code') := float_operand code in
    Ok (code', set_val s (F32.add (val s) f))
  else if op =? OP_RAND then
    let* (f, code') := float_operand code in
    let '(r, w) := RandFloat (world s) in
    Ok (code', {| val := F32.add (val s) (F32.mul r f); ptr := ptr s;
                  buffer := buffer s; instance := instance s; world := w |})
  else if op =? OP_DAMAGE then
    let* (f, code') := float_operand code in
    Ok (code', set_val s (F32.add (val s) (F32.mul damage f)))
  else if op =? OP_INDEX then
    let* (f, code') := float_operand code in
    Ok (code', set_val s (F32.add (val s) (F32.mul (F32.of_int spawnIndex) f)))
  else if op =? OP_LOADP then
    let* (p, code') := operand_bytes ptr_size code in
    Ok (code', {| val := val s; ptr := p; buffer := buffer s;
                  instance := instance s; world := world s |})
  else if op =? OP_STOREP then
    let* (offset, code') := operand_bytes 2 code in
    let s' := store s offset (VPtr (ptr s)) in
    Ok (code', {| val := val s'; ptr := 0; buffer := buffer s';
                  instance := instance s'; world := world s' |})
  else if op =? OP_DIR then
    let* (offset, code') := operand_bytes 2 code in
    Ok (code', store s offset (VFloat3 dir))
  else if op =? OP_SAWTOOTH then
    let* (f, code') := float_operand code in
    Ok (code', set_val s (F32.sub (val s) (F32.mul f (F32.floor (F32.div (val s) f)))))
  else if op =? OP_DISCRETE then
    let* (f, code') := float_operand code in
    Ok (code', set_val s (F32.mul f (F32.floor (SafeDivide (val s) f))))
  else if op =? OP_SINE then
    let* (f, code') := float_operand code in
    Ok (code', set_val s (F32.mul f (math_sin (val s))))
  else if op =? OP_YANK then
    let* (b, code') := operand_bytes 4 code in
    let i := int32 b in
    let* _ := buffer_at s i in
    Ok (code', {| val := F32.zero; ptr := ptr s;
                  buffer := buffer_set (buffer s) i (val s);
                  instance := instance s; world := world s |})
  else if op =? OP_MULTIPLY then
    let* (b, code') := operand_bytes 4 code in
    let* r := buffer_at s (int32 b) in
    Ok (code', set_val s (F32.mul (val s) r))
  else if op =? OP_ADDBUFF then
    let* (b, code') := operand_bytes 4 code in
    let* r := buffer_at s (int32 b) in
    Ok (code', set_val s (F32.add (val s) r))
  else if op =? OP_POW then
    let* (f, code') := float_operand code in
    Ok (code', set_val s (math_pow (val s) f))
  else if op =? OP_POWBUFF then
    let* (b, code') := operand_bytes 4 code in
    let* r := buffer_at s (int32 b) in
    Ok (code', set_val s (math_pow (val s) r))
  else Abort.

(** the [for (;;)] loop; every round takes at least the opcode byte off
    the stream, so [S (length code)] rounds are never used up *)
Fixpoint exec (fuel : nat) (code : list byte) (s : ExecState) : Res ExecState :=
  match fuel with
  | O => Diverges
  | S fuel' =>
      match code with
      | [] => Undefined "read behind the end of the opcode stream"
      | op :: code1 =>
          if op =? OP_END then Ok s
          else
            let* (code2, s') := exec_op op code1 s in
            exec fuel' code2 s'
      end
  end.
End Run.

(** [buffer0] is what the 16 uninitialised slots of [buffer] happen to
    hold, [w] the engine state the run starts in *)
Definition ExecuteExplosionCode (code : list byte) (damage : spec_float)
    (inst : Instance) (spawnIndex : Z) (dir : spec_float * spec_float * spec_float)
    (buffer0 : Z -> spec_float) (w : World) : Res ExecState :=
  exec damage spawnIndex dir (S (List.length code)) code
    {| val := F32.zero; ptr := 0; buffer := buffer0; instance := inst; world := w |}.

End Interpreter.

(** ** The program cache: [CCustomExplosionGenerator] *)

Definition float3 : Type := spec_float * spec_float * spec_float.

Record ProjectileSpawnInfo : Type := {
  projectileClass : Class;
  code : list byte;
  count : Z;
  flags : Z
}.

Record GroundFlashInfo : Type := {
  flashSize : spec_float;
  flashAlpha : spec_float;
  circleGrowth : spec_float;
  circleAlpha : spec_float;
  ttl : Z;
  gf_flags : Z;
  color : float3
}.

Record CEGData : Type := {
  projectileSpawn : list ProjectileSpawnInfo;
  groundFlash : GroundFlashInfo;
  useDefaultExplosions : bool
}.

(** the members of the generator: tag to identifier, identifier to data, and
    the nested generators it owns *)
Record CCustomExplosionGenerator : Type := {
  explosionIDs : gmap string Z;
  explosionData : list CEGData;
  spawnExplGens : list Z
}.

(** Modelled from the spec: the three reserved identifiers, an enum of
    [ExplosionGenerator.h], a header outside this development; the spec has
    them "out-of-band", here the three largest [unsigned int]. *)
Definition EXPLOSION_ID_INVALID : Z := 4294967295.
Definition EXPLOSION_ID_STANDARD : Z := 4294967294.
Definition EXPLOSION_ID_SPAWNER : Z := 4294967293.

(** the spawn flags, an enum of the same header: one bit each *)
Definition SPW_WATER : Z := 1.
Definition SPW_GROUND : Z := 2.
Definition SPW_AIR : Z := 4.
Definition SPW_UNDERWATER : Z := 8.
Definition SPW_UNIT : Z := 16.
Definition SPW_NO_UNIT : Z := 32.

(** what an explosion creates *)
Inductive Spawn : Type :=
| SpawnProjectile (cls : Class) (inst : Instance) (pos : float3) (owner : Z)
| SpawnGroundFlash (pos : float3) (circleAlpha flashAlpha flashSize circleGrowth : spec_float)
                   (ttl : Z) (color : float3).

(** [std::map] visits its keys in increasing order *)
Definition key_le (a b : string * Z) : Prop := String.leb (fst a) (fst b) = true.
#[local] Instance key_le_dec a b : Decision (key_le a b).
Proof. unfold key_le. apply _. Defined.

Definition in_key_order (m : gmap string Z) : list (string * Z) :=
  merge_sort key_le (map_to_list m).

Section Cache.
Context `{Engine}.

Definition GetFlagsFromTable (table : LuaTable) : Z :=
  let flags := 0 in
  let flags := if GetBool table "ground" false then Z.lor flags SPW_GROUND else flags in
  let flags := if GetBool table "water" false then Z.lor flags SPW_WATER else flags in
  let flags := if GetBool table "air" false then Z.lor flags SPW_AIR else flags in
  let flags := if GetBool table "underwater" false then Z.lor flags SPW_UNDERWATER else flags in
  let flags := if GetBool table "unit" false then Z.lor flags SPW_UNIT else flags in
  let flags := if GetBool table "nounit" false then Z.lor flags SPW_NO_UNIT else flags in
  flags.

(** the comparisons [>], [>=] and [<=] on [float] *)
Definition fgt (a b : spec_float) : bool := SFltb b a.
Definition fge (a b : spec_float) : bool := SFleb b a.
Definition fle (a b : spec_float) : bool := SFleb a b.

Definition GetFlagsFromHeight (height altitude : spec_float) : Z :=
  if fgt height F32.zero && fge altitude (F32.of_int 20) then SPW_AIR
  else if fgt height F32.zero && fge altitude (F32.of_int (-1)) then SPW_GROUND
  else if fgt height (F32.of_int (-5)) && fge altitude (F32.of_int (-1)) then SPW_WATER
  else if fle height (F32.of_int (-5)) && fge altitude (F32.of_int (-1)) then SPW_UNDERWATER
  else 0.

(** [ClassAliasList::GetClass]: the alias chain is followed until a name
    that is no alias; a chain longer than the map has entries is a cycle,
    and the loop never ends. *)
Fixpoint resolve_alias (fuel : nat) (aliases : gmap string string) (n : string)
  : Res string :=
  match aliases !! n with
  | None => Ok n
  | Some n' =>
      match fuel with
      | O => Diverges
      | S fuel' => resolve_alias fuel' aliases n'
      end
  end.

Definition ClassAliasList_GetClass (w : World) (name : string) : Res Class :=
  let aliases := projectileClasses_aliases w in
  let* n := resolve_alias (size aliases) aliases name in
  Ok (creg_GetClass w n).

(** the loop of [Load] over the properties of one spawn table *)
Fixpoint compile_props (cls : Class) (props : list (string * string))
    (st : CompileState) : Res CompileState :=
  match props with
  | [] => Ok st
  | (pname, script) :: props' =>
      match FindMember cls pname with
      | Some (moffset, mtype, mflags) =>
          if negb (Z.land mflags CM_Config =? 0) then
            let* st' := ParseExplosionCode st moffset mtype script in
            compile_props cls props' st'
          else compile_props cls props' st
      | None => compile_props cls props' st
      end
  end.

(** the loop of [Load] over the spawn tables; it carries the spawns compiled
    so far, the generator's [spawnExplGens] and the engine *)
Fixpoint compile_spawns (expTable : LuaTable) (spawns : list string)
    (acc : list ProjectileSpawnInfo) (gens : list Z) (w : World)
  : Res (list ProjectileSpawnInfo * list Z * World) :=
  match spawns with
  | [] => Ok (acc, gens, w)
  | spawnName :: spawns' =>
      let spawnTable := SubTable expTable spawnName in
      if negb (IsValid spawnTable) || String.eqb spawnName "groundflash" then
        compile_spawns expTable spawns' acc gens w
      else
        let className := GetString spawnTable "class" spawnName in
        let* cls := ClassAliasList_GetClass w className in
        let psi_flags := GetFlagsFromTable spawnTable in
        let psi_count := int32 (GetInt spawnTable "count" 1) in
        match cls with
        | NullClass => Undefined "null projectileClass dereferenced"
        | MkClass _ binderFlags _ _ =>
            if negb (Z.land binderFlags CF_Synced =? 0) then
              compile_spawns expTable spawns' acc gens w
            else
              let props := GetMap (SubTable spawnTable "properties") in
              let* st := compile_props cls props
                           {| cs_code := []; cs_spawnExplGens := gens; cs_world := w |} in
              let psi := {| projectileClass := cls;
                            code := cs_code st ++ [OP_END];
                            count := psi_count;
                            flags := psi_flags |} in
              compile_spawns expTable spawns' (acc ++ [psi])
                (cs_spawnExplGens st) (cs_world st)
        end
  end.

(** the default constructed [GroundFlashInfo] *)
Definition noGroundFlash : GroundFlashInfo :=
  {| flashSize := F32.zero; flashAlpha := F32.zero; circleGrowth := F32.zero;
     circleAlpha := F32.zero; ttl := 0; gf_flags := 0;
     color := (F32.zero, F32.zero, F32.zero) |}.

Definition load_groundFlash (expTable : LuaTable) : GroundFlashInfo :=
  let gndTable := SubTable expTable "groundflash" in
  let ttl := int32 (GetInt gndTable "ttl" 0) in
  if 0 <? ttl then
    {| flashSize := GetFloat gndTable "flashSize" F32.zero;
       flashAlpha := GetFloat gndTable "flashAlpha" F32.zero;
       circleGrowth := GetFloat gndTable "circleGrowth" F32.zero;
       circleAlpha := GetFloat gndTable "circleAlpha" F32.zero;
       ttl := ttl;
       gf_flags := Z.lor SPW_GROUND (GetFlagsFromTable gndTable);
       color := GetFloat3 gndTable "color"
                  (F32.one, F32.one, F32.of_double (F64.of_decimal false 8 (-1))) |}
  else noGroundFlash.

(** [Load(handler, tag, luaCall)]: the identifier returned, the generator and
    the engine afterwards. [luaCall] is not used by the function; a missing
    root table stands for the default constructed, invalid [LuaTable]. *)
Definition Load (g : CCustomExplosionGenerator) (w : World) (tag : string)
  : Res (Z * CCustomExplosionGenerator * World) :=
  match explosionIDs g !! tag with
  | Some id => Ok (id, g, w)
  | None =>
      match GetExplosionTableRoot w with
      | None => Ok (EXPLOSION_ID_INVALID, g, w)
      | Some root =>
          let expTable := SubTable root tag in
          if negb (IsValid expTable) then Ok (EXPLOSION_ID_INVALID, g, w)
          else
            let* (spawns, gens, w') :=
              compile_spawns expTable (GetKeys expTable) [] (spawnExplGens g) w in
            let cegData := {| projectileSpawn := spawns;
                              groundFlash := load_groundFlash expTable;
                              useDefaultExplosions :=
                                GetBool expTable "useDefaultExplosions" false |} in
            let data := explosionData g ++ [cegData] in
            let id := uint32 (Z.of_nat (List.length data) - 1) in
            Ok (id,
                {| explosionIDs := <[tag := id]> (explosionIDs g);
                   explosionData := data;
                   spawnExplGens := gens |},
                w')
      end
  end.

Definition Unload (g : CCustomExplosionGenerator) (w : World) : World :=
  fold_left UnloadGenerator (spawnExplGens g) w.

Definition ClearCache (g : CCustomExplosionGenerator) : CCustomExplosionGenerator :=
  {| explosionIDs := ∅; explosionData := []; spawnExplGens := [] |}.

(** the loop of [Reload] over the tags cached before *)
Fixpoint reload_all (tags : list (string * Z)) (g : CCustomExplosionGenerator)
    (w : World) : Res (CCustomExplosionGenerator * World) :=
  match tags with
  | [] => Ok (g, w)
  | (tmpTag, _) :: tags' =>
      let* (_, g', w') := Load g w tmpTag in
      reload_all tags' g' w'
  end.

(** [explosionData[i]] *)
Definition data_at (data : list CEGData) (i : Z) : Res CEGData :=
  match data !! Z.to_nat i with
  | Some d => if 0 <=? i then Ok d else Undefined "vector index out of range"
  | None => Undefined "vector index out of range"
  end.

Definition with_data (g : CCustomExplosionGenerator) (ids : gmap string Z)
    (data : list CEGData) : CCustomExplosionGenerator :=
  {| explosionIDs := ids; explosionData := data; spawnExplGens := spawnExplGens g |}.

(** [Reload(handler, tag)] *)
Definition Reload (g : CCustomExplosionGenerator) (w : World) (tag : string)
  : Res (CCustomExplosionGenerator * World) :=
  if String.eqb tag "" then
    let oldExplosionIDs := explosionIDs g in
    let w1 := Unload g w in
    let g1 := ClearCache g in
    reload_all (in_key_order oldExplosionIDs) g1 w1
  else
    match explosionIDs g !! tag with
    | None => Ok (g, w)
    | Some cegIndex =>
        let numCEGs := uint32 (Z.of_nat (List.length (explosionData g))) in
        let* oldCEG := data_at (explosionData g) cegIndex in
        let* tmpCEG := data_at (explosionData g) (uint32 (numCEGs - 1)) in
        let ids1 := delete tag (explosionIDs g) in
        let data1 := <[Z.to_nat cegIndex := tmpCEG]> (explosionData g) in
        let data2 := removelast data1 in
        let* (id, g3, w3) := Load (with_data g ids1 data2) w tag in
        if id =? EXPLOSION_ID_INVALID then
          let ids4 := <[tag := cegIndex]> (explosionIDs g3) in
          let data4 := explosionData g3 ++ [tmpCEG] in
          let* _ := data_at data4 cegIndex in
          Ok (with_data g3 ids4 (<[Z.to_nat cegIndex := oldCEG]> data4), w3)
        else
          let ids4 := <[tag := cegIndex]> (explosionIDs g3) in
          if 1 <? numCEGs then
            let* newCEG := data_at (explosionData g3) (uint32 (numCEGs - 1)) in
            let* _ := data_at (explosionData g3) cegIndex in
            let data5 := <[Z.to_nat cegIndex := newCEG]> (explosionData g3) in
            let data6 := <[Z.to_nat (uint32 (numCEGs - 1)) := tmpCEG]> data5 in
            Ok (with_data g3 ids4 data6, w3)
          else Ok (with_data g3 ids4 (explosionData g3), w3)
    end.

(** the [for (int c = 0; c < psi.count; c++)] loop: [n] instances are still
    to be made, the next one has index [c]. Every round calls
    [CreateInstance] through [psi.projectileClass], a null pointer included. *)
Fixpoint spawn_instances (psi : ProjectileSpawnInfo) (damage : spec_float)
    (pos dir : float3) (owner : Z) (n : nat) (c : Z) (out : list Spawn) (w : World)
  : Res (list Spawn * World) :=
  match n with
  | O => Ok (out, w)
  | S n' =>
      match projectileClass psi with
      | NullClass => Undefined "null projectileClass dereferenced"
      | MkClass _ _ _ _ =>
          let* s := ExecuteExplosionCode (code psi) damage [] c dir (stack_garbage w) w in
          spawn_instances psi damage pos dir owner n' (c + 1)
            (out ++ [SpawnProjectile (projectileClass psi) (instance s) pos owner])
            (world s)
      end
  end.

(** the loop over [spawnInfo] *)
Fixpoint spawn_all (spawnInfo : list ProjectileSpawnInfo) (expFlags : Z)
    (damage : spec_float) (pos dir : float3) (owner : Z) (out : list Spawn) (w : World)
  : Res (list Spawn * World) :=
  match spawnInfo with
  | [] => Ok (out, w)
  | psi :: rest =>
      if Z.land (flags psi) expFlags =? 0 then
        spawn_all rest expFlags damage pos dir owner out w
      else if fgt (particleSaturation w) F32.one then
        spawn_all rest expFlags damage pos dir owner out w
      else
        let* (out', w') :=
          spawn_instances psi damage pos dir owner (Z.to_nat (count psi)) 0 out w in
        spawn_all rest expFlags damage pos dir owner out' w'
  end.

(** [Explosion(explosionID, pos, dir, damage, radius, gfxMod, owner, hit)]:
    the value returned, what this call itself has created, and the generator
    and the engine afterwards ([hit] says whether a unit was hit). No
    statement of the function assigns to a member, so the generator comes
    back as it went in. *)
Definition Explosion (g : CCustomExplosionGenerator) (w : World) (explosionID : Z)
    (pos dir : float3) (damage radius gfxMod : spec_float) (owner : Z) (hit : bool)
  : Res (bool * list Spawn * CCustomExplosionGenerator * World) :=
  if explosionID =? EXPLOSION_ID_STANDARD then
    let '(r, w') := StdExplosion w explosionID pos dir damage radius gfxMod owner hit in
    Ok (r, [], g, w')
  else if explosionID =? EXPLOSION_ID_INVALID then Ok (false, [], g, w)
  else
    let explosionID :=
      if explosionID =? EXPLOSION_ID_SPAWNER
      then uint32 (Z.of_nat (List.length (explosionData g)) - 1)
      else explosionID in
    if Z.of_nat (List.length (explosionData g)) <=? explosionID then Ok (false, [], g, w)
    else
      let '(pos_x, pos_y, pos_z) := pos in
      let groundHeight := GetHeightReal w pos_x pos_z in
      let altitude := F32.sub pos_y groundHeight in
      let flags := GetFlagsFromHeight pos_y altitude in
      let groundExplosion := negb (Z.land flags SPW_GROUND =? 0) in
      let flags := if hit then Z.lor flags SPW_UNIT else Z.lor flags SPW_NO_UNIT in
      let* cegData := data_at (explosionData g) explosionID in
      let gf := groundFlash cegData in
      let* (out, w') :=
        spawn_all (projectileSpawn cegData) flags damage pos dir owner [] w in
      let out' :=
        if groundExplosion && (0 <? ttl gf) && fgt (flashSize gf) F32.one
        then out ++ [SpawnGroundFlash pos (circleAlpha gf) (flashAlpha gf)
                       (flashSize gf) (circleGrowth gf) (ttl gf) (color gf)]
        else out in
      if useDefaultExplosions cegData then
        let '(r, w'') :=
          StdExplosion w' EXPLOSION_ID_STANDARD pos dir damage radius gfxMod owner hit in
        Ok (r, out', g, w'')
      else Ok (true, out', g, w').

End Cache.

(** ** A small engine to run the model on

    Definition tables are trees, the world is the root table, every class is
    one made up particle class, resources are numbered by the length of their
    name and the random source always delivers one half. *)

Inductive Lua : Type :=
| LuaNil
| LuaBool (b : bool)
| LuaInt (i : Z)
| LuaString (s : string)
| LuaTbl (fields : LuaFields)
with LuaFields : Type :=
| LuaEnd
| LuaField (key : string) (value : Lua) (rest : LuaFields).

Fixpoint lua_field (fields : LuaFields) (key : string) : Lua :=
  match fields with
  | LuaEnd => LuaNil
  | LuaField k v rest => if String.eqb k key then v else lua_field rest key
  end.

Fixpoint lua_keys (fields : LuaFields) : list string :=
  match fields with
  | LuaEnd => []
  | LuaField k _ rest => k :: lua_keys rest
  end.

Fixpoint lua_string_fields (fields : LuaFields) : list (string * string) :=
  match fields with
  | LuaEnd => []
  | LuaField k (LuaString s) rest => (k, s) :: lua_string_fields rest
  | LuaField _ _ rest => lua_string_fields rest
  end.

Definition lua_get (t : Lua) (key : string) : Lua :=
  match t with
  | LuaTbl fields => lua_field fields key
  | _ => LuaNil
  end.

Definition lua_SubTable (t : Lua) (key : string) : Lua :=
  match lua_get t key with
  | LuaTbl fields => LuaTbl fields
  | _ => LuaNil
  end.

Definition lua_strings (t : Lua) : list (string * string) :=
  match t with
  | LuaTbl fields => lua_string_fields fields
  | _ => []
  end.

Definition float3Class : Class :=
  MkClass "float3" 0
    (MCons "x" 0 (BasicType crFloat) 1
    (MCons "y" 4 (BasicType crFloat) 1
    (MCons "z" 8 (BasicType crFloat) 1 MNil))) NullClass.

Definition particleClass : Class :=
  MkClass "CParticle" 0
    (MCons "size" 64 (BasicType crFloat) 1
    (MCons "life" 68 (BasicType crInt) 1
    (MCons "alpha" 72 (BasicType crUChar) 1
    (MCons "speed" 76 (ObjectInstanceType float3Class) 1 MNil)))) NullClass.

Fixpoint find_member (ms : Members) (key : string) : option (Z * IType * Z) :=
  match ms with
  | MNil => None
  | MCons n o t f rest => if String.eqb n key then Some (o, t, f) else find_member rest key
  end.

Definition testEngine : Engine := {|
  World := Lua;
  LuaTable := Lua;
  ptr_size := 8;
  textureAtlas_GetTexture := fun _ name => 4096 + strlen name;
  groundFXAtlas_GetTexture := fun _ name => 8192 + strlen name;
  CColorMap_LoadFromDefString := fun w s => (12288 + strlen s, w);
  LoadGenerator := fun w name => Ok (16384 + strlen name, w);
  UnloadGenerator := fun w _ => w;
  GetExplosionTableRoot := fun w => match w with LuaTbl _ => Some w | _ => None end;
  SubTable := lua_SubTable;
  IsValid := fun t => match t with LuaTbl _ => true | _ => false end;
  GetKeys := fun t => match t with LuaTbl fields => lua_keys fields | _ => [] end;
  GetString := fun t k d => match lua_get t k with LuaString s => s | _ => d end;
  GetInt := fun t k d => match lua_get t k with LuaInt i => i | _ => d end;
  GetBool := fun t k d => match lua_get t k with LuaBool b => b | _ => d end;
  GetFloat := fun t k d => match lua_get t k with LuaInt i => F32.of_int i | _ => d end;
  GetFloat3 := fun _ _ d => d;
  GetMap := lua_strings;
  creg_GetClass := fun _ _ => particleClass;
  CF_Synced := 8;
  CM_Config := 1;
  FindMember := fun c key => match c with
                             | MkClass _ _ ms _ => find_member ms key
                             | NullClass => None
                             end;
  stack_garbage := fun _ _ => F32.one;
  projectileClasses_aliases := fun _ => ∅;
  RandFloat := fun w => (S754_finite false 8388608 (-24), w);
  GetHeightReal := fun _ _ _ => F32.zero;
  particleSaturation := fun _ => F32.zero;
  math_sin := fun x => x;
  math_pow := fun x _ => x;
  StdExplosion := fun w _ _ _ _ _ _ _ _ => (true, w)
|}.

Definition emptyGenerator : CCustomExplosionGenerator :=
  {| explosionIDs := ∅; explosionData := []; spawnExplGens := [] |}.

(** two definitions without spawns *)
Definition twoTables : Lua :=
  LuaTbl (LuaField "a" (LuaTbl LuaEnd) (LuaField "b" (LuaTbl LuaEnd) LuaEnd)).

(** the same after ["b"] was edited *)
Definition twoTablesEdited : Lua :=
  LuaTbl (LuaField "a" (LuaTbl LuaEnd)
         (LuaField "b" (LuaTbl (LuaField "useDefaultExplosions" (LuaBool true) LuaEnd))
          LuaEnd)).

(** the same after ["b"] was broken *)
Definition twoTablesBroken : Lua :=
  LuaTbl (LuaField "a" (LuaTbl LuaEnd) (LuaField "b" (LuaInt 0) LuaEnd)).

(** two definitions loaded, ["a"] first *)
Definition noCEG : CEGData :=
  {| projectileSpawn := []; groundFlash := noGroundFlash; useDefaultExplosions := false |}.

Definition twoLoaded : CCustomExplosionGenerator :=
  {| explosionIDs := <["b"%string := 1]> (<["a"%string := 0]> ∅);
     explosionData := [noCEG; noCEG];
     spawnExplGens := [] |}.

(** ** Vocabulary of the specification *)

Definition float_ops : list byte :=
  [OP_ADD; OP_RAND; OP_DAMAGE; OP_INDEX; OP_SAWTOOTH; OP_DISCRETE; OP_SINE; OP_POW].
Definition register_ops : list byte := [OP_YANK; OP_MULTIPLY; OP_ADDBUFF; OP_POWBUFF].
Definition store_ops : list byte := [OP_STOREI; OP_STOREF; OP_STOREC].

Definition is_op (ops : list byte) (op : byte) : bool := existsb (Z.eqb op) ops.

(** an instruction with a four byte operand, as the tokenizer appends it *)
Record Token : Type := { tk_op : byte; tk_arg : Z }.

Definition enc (t : Token) : list byte := tk_op t :: le_bytes 4 (tk_arg t).

(** a token of the scalar language: no store, and a register operand lies
    between 0 and [B] *)
Definition scalar_token (B : Z) (t : Token) : Prop :=
  is_op float_ops (tk_op t) = true \/
  (is_op register_ops (tk_op t) = true /\ 0 <= tk_arg t <= B).

(** the register index the compiler emits for the text behind a mnemonic *)
Definition register_index (l : list ascii) : Z :=
  Z.max 0 (Z.min 16 (int32 (fst (strtol l)))).

(** a [.] or [-] at position [q] starts a number *)
Definition literal_ok (script : list ascii) (q : nat) : bool :=
  match script !! q with
  | Some c =>
      if Ascii.eqb c "." || Ascii.eqb c "-"
      then (1 <=? snd (strtod (drop q script)))%nat else true
  | None => true
  end.

(** the register mnemonic at position [q], if any, gets an index up to [B] *)
Definition register_ok (B : Z) (script : list ascii) (q : nat) : bool :=
  match script !! q with
  | Some c =>
      match mnemonic c with
      | Some (_, true) => register_index (drop (S q) script) <=? B
      | _ => true
      end
  | None => true
  end.

Definition positions (script : string) : list nat := seq 0 (String.length script).

(** every [.] and [-] of the text starts a number *)
Definition literals_ok (script : string) : bool :=
  forallb (literal_ok (chars script)) (positions script).

(** every register mnemonic of the text is followed by an index below 16 *)
Definition registers_ok (script : string) : bool :=
  forallb (register_ok 15 (chars script)) (positions script).

(** the text up to the first [;] is the keyword *)
Definition is_dir (script : string) : bool :=
  match vastr_of script with
  | Ok vastr => String.eqb vastr "dir"
  | _ => false
  end.

(** a well-formed scalar expression: not the keyword, its literals are
    numbers and its register indices name one of the 16 registers *)
Definition wellformed_scalar (script : string) : bool :=
  negb (is_dir script) && literals_ok script && registers_ok script.

(** the store instruction of a scalar field *)
Definition store_of (id : BasicTypeID) : byte :=
  match id with
  | crInt | crBool => OP_STOREI
  | crFloat => OP_STOREF
  | _ => OP_STOREC
  end.

(** the value a store of the field's kind writes *)
Definition value_of_kind (id : BasicTypeID) (v : Value) : Prop :=
  match id, v with
  | (crInt | crBool), VInt _ => True
  | crFloat, VFloat _ => True
  | crUChar, VUChar _ => True
  | _, _ => False
  end.

(** the compiler appends scalar tokens and then one store carrying the
    offset, and touches nothing else *)
Definition appends_trailing_store `{Engine} (st : CompileState) (offset : Z)
    (id : BasicTypeID) (script : string) : Prop :=
  exists toks,
    ParseExplosionCode st offset (BasicType id) script
    = Ok {| cs_code := cs_code st ++ flat_map enc toks
                       ++ store_of id :: le_bytes 2 (uint16 offset);
            cs_spawnExplGens := cs_spawnExplGens st;
            cs_world := cs_world st |}
    /\ Forall (scalar_token 16) toks.

(** the generator right before [Reload] calls [Load] for the single tag
    cached under [cegIndex]: the tag is erased, the last entry has taken the
    slot of the tag's entry, and the vector is one shorter *)
Definition evicted (g : CCustomExplosionGenerator) (tag : string) (cegIndex : Z)
  : CCustomExplosionGenerator :=
  match last (explosionData g) with
  | Some tmpCEG =>
      {| explosionIDs := delete tag (explosionIDs g);
         explosionData := removelast (<[Z.to_nat cegIndex := tmpCEG]> (explosionData g));
         spawnExplGens := spawnExplGens g |}
  | None => g
  end.

(** the invariant of the cache: every identifier handed out is an index into
    the data, and the data fit the [unsigned int] identifiers *)
Definition cache_ok (g : CCustomExplosionGenerator) : Prop :=
  (forall tag id, explosionIDs g !! tag = Some id ->
                  0 <= id < Z.of_nat (List.length (explosionData g)))
  /\ Z.of_nat (List.length (explosionData g)) < 4294967295.

(** number of bytes a scalar field takes *)
Definition width_of (id : BasicTypeID) : Z :=
  match id with
  | crUChar => 1
  | _ => 4
  end.

(** ** Vocabulary of the further properties *)

(** an instruction as it lies in the stream: the tag and the bytes of its
    operand *)
Record Instr : Type := { in_op : byte; in_arg : list byte }.

Definition encode (i : Instr) : list byte := in_op i :: in_arg i.

Definition offset_ops : list byte := [OP_STOREI; OP_STOREF; OP_STOREC; OP_STOREP; OP_DIR].

(** an instruction the compiler can emit: a known tag with an operand of the
    width the interpreter reads for it, a register index being a number
    from 0 to 16 *)
Definition compiled_instr `{Engine} (i : Instr) : Prop :=
  (is_op float_ops (in_op i) = true /\ List.length (in_arg i) = 4%nat)
  \/ (is_op register_ops (in_op i) = true
      /\ exists v, 0 <= v <= 16 /\ in_arg i = le_bytes 4 v)
  \/ (is_op offset_ops (in_op i) = true /\ List.length (in_arg i) = 2%nat)
  \/ (in_op i = OP_LOADP /\ List.length (in_arg i) = ptr_size).

(** the register index of the instruction is one of the 16 registers *)
Definition register_in_range (i : Instr) : Prop :=
  is_op register_ops (in_op i) = true ->
  exists v, 0 <= v < 16 /\ in_arg i = le_bytes 4 v.

(** the outcomes of a run that stays inside the stream *)
Definition finished_or_buffer_fault {A : Type} (r : Res A) : Prop :=
  (exists a, r = Ok a) \/ r = Undefined "buffer index out of range".

Definition instr_of_token (t : Token) : Instr :=
  {| in_op := tk_op t; in_arg := le_bytes 4 (tk_arg t) |}.

(** what [ParseExplosionCode] leaves behind when it returns: the old code
    followed by whole instructions, the old list of nested generators
    followed by new ones *)
Definition extends `{Engine} (st st' : CompileState) : Prop :=
  exists ins gens,
    cs_code st' = cs_code st ++ flat_map encode ins
    /\ Forall compiled_instr ins
    /\ cs_spawnExplGens st' = cs_spawnExplGens st ++ gens.

(** the offsets the store instructions of a stream carry, in order *)
Definition store_offsets (ins : list Instr) : list Z :=
  flat_map (fun i => if is_op offset_ops (in_op i) then [le_value (in_arg i)] else []) ins.

(** the four pointer types the compiler resolves *)
Definition is_resource_type (name : string) : bool :=
  String.eqb name "AtlasedTexture*" || String.eqb name "GroundFXTexture*"
  || String.eqb name "CColorMap*" || String.eqb name "IExplosionGenerator*".

(** induction over types, classes and members together *)
Scheme IType_mind := Induction for IType Sort Prop
  with Class_mind := Induction for Class Sort Prop
  with Members_mind := Induction for Members Sort Prop.
Combined Scheme schema_mutind from IType_mind, Class_mind, Members_mind.

(** a program as [Load] stores it: whole instructions closed by END *)
Definition compiled_code `{Engine} (code : list byte) : Prop :=
  exists ins, code = flat_map encode ins ++ [OP_END] /\ Forall compiled_instr ins.

Definition compiled_spawns `{Engine} (spawns : list ProjectileSpawnInfo) : Prop :=
  Forall (fun psi => compiled_code (code psi)) spawns.

(** every program in the cache is such a program *)
Definition cache_compiled `{Engine} (g : CCustomExplosionGenerator) : Prop :=
  Forall (fun d => compiled_spawns (projectileSpawn d)) (explosionData g).

(** a class [Load] accepts: it is there and not synced *)
Definition unsynced `{Engine} (cls : Class) : Prop :=
  match cls with
  | MkClass _ binderFlags _ _ => Z.land binderFlags CF_Synced = 0
  | NullClass => False
  end.

Definition unsynced_spawns `{Engine} (spawns : list ProjectileSpawnInfo) : Prop :=
  Forall (fun psi => unsynced (projectileClass psi)) spawns.

(** no cached entry spawns a synced class *)
Definition cache_unsynced `{Engine} (g : CCustomExplosionGenerator) : Prop :=
  Forall (fun d => unsynced_spawns (projectileSpawn d)) (explosionData g).

(** tags and data slots correspond one to one *)
Definition cache_dense (g : CCustomExplosionGenerator) : Prop :=
  cache_ok g
  /\ (forall t1 t2 id, explosionIDs g !! t1 = Some id -> explosionIDs g !! t2 = Some id -> t1 = t2)
  /\ size (explosionIDs g) = List.length (explosionData g).

(** the identifiers follow the order of the tags *)
Definition ids_in_key_order (g : CCustomExplosionGenerator) : Prop :=
  forall t1 t2 id1 id2,
    explosionIDs g !! t1 = Some id1 -> explosionIDs g !! t2 = Some id2 ->
    String.ltb t1 t2 = true -> id1 < id2.

(** one step of the alias chain: [n] is an alias of [n'] *)
Definition alias_of (aliases : gmap string string) (n n' : string) : Prop :=
  aliases !! n = Some n'.

(** the height class of a position, and the flags [Explosion] holds against
    the flags of a spawn entry *)
Definition height_class `{Engine} (w : World) (pos : float3) : Z :=
  let '(pos_x, pos_y, pos_z) := pos in
  GetFlagsFromHeight pos_y (F32.sub pos_y (GetHeightReal w pos_x pos_z)).

Definition explosion_flags `{Engine} (w : World) (pos : float3) (hit : bool) : Z :=
  if hit then Z.lor (height_class w pos) SPW_UNIT
  else Z.lor (height_class w pos) SPW_NO_UNIT.

(** what one explosion of the definition [d] may create *)
Definition created_by `{Engine} (d : CEGData) (w : World) (pos : float3) (owner : Z)
    (hit : bool) (s : Spawn) : Prop :=
  match s with
  | SpawnProjectile cls _ p o =>
      p = pos /\ o = owner
      /\ exists psi, In psi (projectileSpawn d) /\ cls = projectileClass psi
                     /\ Z.land (flags psi) (explosion_flags w pos hit) <> 0
                     /\ 0 < count psi
  | SpawnGroundFlash p _ _ size _ life _ =>
      p = pos /\ height_class w pos = SPW_GROUND
      /\ life = ttl (groundFlash d) /\ 0 < life
      /\ size = flashSize (groundFlash d) /\ fgt size F32.one = true
  end.

(** the projectile, if it is one, is of a class that is not synced *)
Definition unsynced_spawn `{Engine} (s : Spawn) : Prop :=
  match s with
  | SpawnProjectile cls _ _ _ => unsynced cls
  | SpawnGroundFlash _ _ _ _ _ _ _ => True
  end.

(** ** Two more functions of the file *)

(** the alias map in the order [std::map] visits it *)
Definition alias_le (a b : string * string) : Prop := String.leb (fst a) (fst b) = true.
#[local] Instance alias_le_dec a b : Decision (alias_le a b).
Proof. unfold alias_le. apply _. Defined.

Definition aliases_in_key_order (aliases : gmap string string) : list (string * string) :=
  merge_sort alias_le (map_to_list aliases).

(** [ClassAliasList::FindAlias]: the first alias, in key order, of
    [className]; the name itself when it has none *)
Definition FindAlias (aliases : gmap string string) (className : string) : string :=
  match List.find (fun kv => String.eqb (snd kv) className) (aliases_in_key_order aliases) with
  | Some kv => fst kv
  | None => className
  end.

Section Global.
Context `{Engine}.

(** [globalSEG->Load(explGenHandler, tag, false)]: the standard generator's
    [Load] is defined in [ExplosionGenerator.h], outside this development *)
Variable StdLoad : World -> string -> Z * World.

(** [IExplosionGenerator::LoadGlobal(tag, luaCall)], with [globalCEG] as [g] *)
Definition LoadGlobal (g : CCustomExplosionGenerator) (w : World) (tag : string)
    (luaCall : bool) : Res (Z * CCustomExplosionGenerator * World) :=
  if String.eqb tag "" then Ok (EXPLOSION_ID_INVALID, g, w)
  else
    let prefixIndex :=
      if (7 <=? strlen tag)
         && match chars tag !! 6%nat with
            | Some c => Ascii.eqb c ":"
            | None => false
            end
      then 7 else 0 in
    if negb luaCall && (prefixIndex =? 0) then
      let '(id, w') := StdLoad w tag in Ok (id, g, w')
    else
      let* tag' := if negb (prefixIndex =? 0) then substr tag prefixIndex npos else Ok tag in
      Load g w tag'.

End Global.

(** ** More to run the small engine on *)

(** one definition with a spawn table: two particles for explosions on the
    ground, three members configured *)
Definition sparkTables : Lua :=
  LuaTbl (LuaField "spark"
    (LuaTbl (LuaField "sparks"
       (LuaTbl (LuaField "class" (LuaString "CParticle")
               (LuaField "count" (LuaInt 2)
               (LuaField "ground" (LuaBool true)
               (LuaField "properties"
                  (LuaTbl (LuaField "size" (LuaString "1.5 r2")
                          (LuaField "life" (LuaString "30 i1")
                          (LuaField "speed" (LuaString "dir") LuaEnd))))
                LuaEnd)))))
       LuaEnd))
    LuaEnd).

(** the generator after a [Load], and after a [Reload] *)
Definition loaded_from (g : CCustomExplosionGenerator) (w : Lua) (tag : string)
  : CCustomExplosionGenerator :=
  match Load (H:=testEngine) g w tag with
  | Ok (_, g', _) => g'
  | _ => g
  end.

Definition reloaded_from (g : CCustomExplosionGenerator) (w : Lua) (tag : string)
  : CCustomExplosionGenerator :=
  match Reload (H:=testEngine) g w tag with
  | Ok (g', _) => g'
  | _ => g
  end.

Definition sparkLoaded : CCustomExplosionGenerator :=
  loaded_from emptyGenerator sparkTables "spark".

(** two definitions loaded, ["b"] first *)
Definition baLoaded : CCustomExplosionGenerator :=
  {| explosionIDs := <["a"%string := 1]> (<["b"%string := 0]> ∅);
     explosionData := [noCEG; noCEG];
     spawnExplGens := [] |}.

(** two aliases of the particle class *)
Definition someAliases : gmap string string :=
  <["smoke"%string := "CParticle"%string]> (<["fire"%string := "CParticle"%string]> ∅).

(** ADD 1.5, YANK 3, STOREF 8 *)
Definition sampleProgram : list Instr :=
  [ {| in_op := OP_ADD; in_arg := le_bytes 4 1069547520 |};
    {| in_op := OP_YANK; in_arg := le_bytes 4 3 |};
    {| in_op := OP_STOREF; in_arg := le_bytes 2 8 |} ].

Definition noState : @CompileState testEngine :=
  @Build_CompileState testEngine [] [] LuaNil.

Definition origin : float3 := (F32.zero, F32.zero, F32.zero).
Definition upwards : float3 := (F32.zero, F32.one, F32.zero).

(** what the spark creates one unit above the ground: two particles of size
    2.5, with a life of 30 and 31 *)
Definition sparkParticle (life : Z) : Spawn :=
  SpawnProjectile particleClass
    [ {| st_offset := 64; st_value := VFloat (S754_finite false 10485760 (-22)) |};
      {| st_offset := 68; st_value := VInt life |};
      {| st_offset := 76; st_value := VFloat3 upwards |} ]
    upwards 0.

Definition sparkBlast : list Spawn := [sparkParticle 30; sparkParticle 31].

(** * Properties *)

(** ** The numeric scanners on examples *)

Example f32_of_double_tenth :
  F32.to_bits (F32.of_double (F64.of_decimal false 1 (-1))) = 1036831949.
Proof. reflexivity. Qed.
Example f32_bits_one : F32.to_bits F32.one = 1065353216.
Proof. reflexivity. Qed.
Example f32_floor_neg : F32.floor (F32.of_double (F64.of_decimal true 25 (-1)))
                        = F32.of_int (-3).
Proof. reflexivity. Qed.
Example strtod_1_5 : strtod (chars "1.5,2") = (S754_finite false 6755399441055744 (-52), 3%nat).
Proof. reflexivity. Qed.
Example strtod_exp : strtod (chars " -25e-1x") = (S754_finite true 5629499534213120 (-51), 7%nat).
Proof. reflexivity. Qed.
Example strtod_hex : strtod (chars "0x1.8p1") = (S754_finite false 6755399441055744 (-51), 7%nat).
Proof. reflexivity. Qed.
Example strtod_0x : strtod (chars "0xg") = (S754_zero false, 1%nat).
Proof. reflexivity. Qed.
Example strtod_dot : strtod (chars ".") = (S754_zero false, O).
Proof. reflexivity. Qed.
Example strtod_minus : strtod (chars "-x") = (S754_zero false, O).
Proof. reflexivity. Qed.
Example strtod_inf : strtod (chars "-Infinity") = (S754_infinity true, 9%nat).
Proof. reflexivity. Qed.
Example strtol_16 : strtol (chars " 16r") = (16, 3%nat).
Proof. reflexivity. Qed.
Example strtol_none : strtol (chars "-r") = (0, O).
Proof. reflexivity. Qed.

(** ** Byte images *)

Lemma le_bytes_length n z : List.length (le_bytes n z) = n.
Proof. revert z. induction n as [|n IH]; intros z; simpl; [reflexivity|]. now rewrite IH. Qed.

Lemma le_value_le_bytes n z : le_value (le_bytes n z) = z mod 256 ^ Z.of_nat n.
Proof.
  revert z. induction n as [|n IH]; intros z.
  - simpl. now rewrite Z.mod_1_r.
  - cbn [le_bytes le_value]. rewrite IH, Z.mod_mod by lia.
    rewrite Nat2Z.inj_succ, Z.pow_succ_r by lia.
    rewrite (Z.mul_comm 256), Z.rem_mul_r by lia. lia.
Qed.

Lemma int32_small z : 0 <= z < 2147483648 -> int32 (le_value (le_bytes 4 z)) = z.
Proof.
  intros Hz. rewrite le_value_le_bytes. change (256 ^ Z.of_nat 4) with 4294967296.
  unfold int32. rewrite (Z.mod_small z) by lia. rewrite Z.mod_small by lia. lia.
Qed.

Lemma uint16_le_bytes z : le_value (le_bytes 2 (uint16 z)) = uint16 z.
Proof.
  rewrite le_value_le_bytes. change (256 ^ Z.of_nat 2) with 65536.
  unfold uint16. now rewrite Z.mod_mod.
Qed.

Lemma uint16_small z : 0 <= z < 65536 -> uint16 z = z.
Proof. intros. unfold uint16. now apply Z.mod_small. Qed.

Section StreamReads.
Context `{Engine}.

Lemma operand_bytes_app n bs rest :
  List.length bs = n -> operand_bytes n (bs ++ rest) = Ok (le_value bs, rest).
Proof.
  intros <-. unfold operand_bytes.
  rewrite length_app.
  destruct (Nat.leb_spec (List.length bs) (List.length bs + List.length rest)) as [_|Hlt]; [|lia].
  now rewrite take_app_length, drop_app_length.
Qed.
End StreamReads.

Lemma isdigit_not_space c : isdigit c = true -> isspace c = false.
Proof. unfold isdigit, isspace. intros. lia. Qed.

Lemma scan_digits_digit c l acc :
  isdigit c = true ->
  exists v n r, scan_digits (c :: l) acc = (v, S n, r).
Proof.
  intros Hd. cbn [scan_digits]. rewrite Hd.
  destruct (scan_digits l _) as [[v n] r]. eauto.
Qed.

Lemma scan_significand_digit c l :
  isdigit c = true ->
  exists m nf n r, scan_significand scan_digits (c :: l) = (m, nf, S n, r).
Proof.
  intros Hd. unfold scan_significand.
  destruct (scan_digits_digit c l 0 Hd) as (v & n & r & ->).
  destruct r as [|a r2].
  - eauto.
  - destruct (Ascii.eqb_spec a ".") as [->|Hne].
    + destruct (scan_digits r2 v) as [[v2 n2] r3]. cbn. eauto.
    + destruct a as [[] [] [] [] [] [] [] []]; try (exfalso; apply Hne; reflexivity); eauto.
Qed.

(** ** [strtod] takes at least the digit it starts on *)

Lemma strtod_body_digit s c l :
  isdigit c = true ->
  exists v n, strtod_body s (c :: l) = Some (v, S n).
Proof.
  intros Hd. unfold strtod_body.
  match goal with |- context [match ?h with Some r => Some r | None => _ end] =>
    assert (Hhex : h = None \/ exists v n, h = Some (v, S n)) end.
  { destruct l as [|x l']; [destruct c as [[] [] [] [] [] [] [] []]; now left|].
    destruct c as [[] [] [] [] [] [] [] []]; try now left.
    destruct (Ascii.eqb (tolower x) "x"); [|now left].
    destruct (scan_significand scan_hex l') as [[[m nf] n] r].
    destruct n as [|n]; [now left|].
    destruct (scan_exponent "p" r) as [e ne]. right. cbn. eauto. }
  destruct Hhex as [->|(v & n & ->)]; [|eauto].
  destruct (scan_significand_digit c l Hd) as (m & nf & n & r & ->).
  destruct (scan_exponent "e" r) as [e ne]. cbn. eauto.
Qed.

Lemma strtod_digit c l :
  isdigit c = true -> (1 <= snd (strtod (c :: l)))%nat.
Proof.
  intros Hd. unfold strtod. cbn [skip_space].
  rewrite (isdigit_not_space c Hd).
  assert (Hs : scan_sign (c :: l) = (false, O, c :: l)).
  { destruct c as [[] [] [] [] [] [] [] []]; try reflexivity; discriminate Hd. }
  rewrite Hs.
  destruct (strtod_body_digit false c l Hd) as (v & n & ->). cbn. lia.
Qed.

(** ** What the tokenizer appends *)

Lemma mnemonic_ops c op useInt :
  mnemonic c = Some (op, useInt) ->
  (useInt = false /\ is_op float_ops op = true) \/
  (useInt = true /\ is_op register_ops op = true).
Proof.
  unfold mnemonic.
  repeat match goal with
         | |- context [if ?b then _ else _] => destruct b
         end; intros [= <- <-]; auto; discriminate.
Qed.

Lemma operand_token script p op useInt bs p'' :
  operand script p op useInt = (bs, p'') ->
  exists z, bs = enc {| tk_op := op; tk_arg := z |} /\
            (useInt = true -> z = register_index (drop p script)) /\
            p'' = (p + snd (if useInt then (0, snd (strtol (drop p script)))
                            else (0, snd (strtod (drop p script)))))%nat.
Proof.
  unfold operand. destruct useInt.
  - destruct (strtol (drop p script)) as [l n] eqn:E. intros [= <- <-].
    eexists. split; [reflexivity|]. split; [|reflexivity].
    intros _. unfold register_index. now rewrite E.
  - destruct (strtod (drop p script)) as [d n] eqn:E. intros [= <- <-].
    exists (F32.to_bits (F32.of_double d)). split; [reflexivity|]. split; [discriminate|reflexivity].
Qed.

Lemma starts_literal_cases c :
  starts_literal c = true -> isdigit c = true \/ (Ascii.eqb c "." || Ascii.eqb c "-") = true.
Proof. unfold starts_literal. destruct (isdigit c); auto. Qed.

Lemma drop_lookup_cons {A} (l : list A) p c : l !! p = Some c -> drop p l = c :: drop (S p) l.
Proof. intros Hl. now apply drop_S. Qed.

Lemma tokenize_tokens B fuel script : forall p code,
  (List.length script - p < fuel)%nat ->
  (forall q, literal_ok script q = true) ->
  (forall q, register_ok B script q = true) ->
  exists toks, tokenize fuel script p code = Ok (code ++ flat_map enc toks) /\
               Forall (scalar_token (Z.min 16 B)) toks.
Proof.
  induction fuel as [|fuel IH]; intros p code Hfuel Hlit Hreg; [lia|].
  cbn [tokenize].
  destruct (script !! p) as [c|] eqn:Hc.
  2:{ exists []. cbn. now rewrite app_nil_r. }
  assert (Hp : (p < List.length script)%nat) by (apply lookup_lt_is_Some; eauto).
  assert (Hnext : forall p' code', (p < p')%nat ->
            exists toks, tokenize fuel script p' code' = Ok (code' ++ flat_map enc toks) /\
                         Forall (scalar_token (Z.min 16 B)) toks).
  { intros p' code' Hlt. apply IH; auto. lia. }
  destruct (Ascii.eqb c " "); [apply Hnext; lia|].
  destruct (mnemonic c) as [[op useInt]|] eqn:Hm.
  - destruct (Nat.leb_spec (List.length script) (S p)); [apply Hnext; lia|].
    destruct (operand script (S p) op useInt) as [bs p''] eqn:Hop.
    destruct (operand_token _ _ _ _ _ _ Hop) as (z & -> & Hz & ->).
    destruct (Nat.leb_spec (S p + snd (if useInt then (0, snd (strtol (drop (S p) script)))
                            else (0, snd (strtod (drop (S p) script)))))%nat p); [lia|].
    edestruct Hnext as (toks & -> & Htoks); [|exists ({| tk_op := op; tk_arg := z |} :: toks); split].
    + lia.
    + cbn [flat_map]. now rewrite <- app_assoc.
    + constructor; [|assumption].
      destruct (mnemonic_ops _ _ _ Hm) as [[-> Hf]|[-> Hr]]; [now left|right].
      split; [assumption|]. cbn [tk_arg]. specialize (Hz eq_refl).
      specialize (Hreg p). unfold register_ok in Hreg. rewrite Hc, Hm in Hreg.
      subst z. unfold register_index in *. lia.
  - destruct (starts_literal c) eqn:Hsl; [|apply Hnext; lia].
    destruct (Nat.leb_spec (List.length script) p); [lia|].
    destruct (operand script p OP_ADD false) as [bs p''] eqn:Hop.
    destruct (operand_token _ _ _ _ _ _ Hop) as (z & -> & _ & ->). cbn [snd].
    assert (Hn : (1 <= snd (strtod (drop p script)))%nat).
    { rewrite (drop_lookup_cons _ _ _ Hc).
      destruct (starts_literal_cases c Hsl) as [Hd|Hd]; [now apply strtod_digit|].
      specialize (Hlit p). unfold literal_ok in Hlit. rewrite Hc, Hd in Hlit.
      rewrite (drop_lookup_cons _ _ _ Hc) in Hlit. now apply Nat.leb_le. }
    destruct (Nat.leb_spec (p + snd (strtod (drop p script))) p); [lia|].
    edestruct Hnext as (toks & -> & Htoks); [|exists ({| tk_op := OP_ADD; tk_arg := z |} :: toks); split].
    + lia.
    + cbn [flat_map]. now rewrite <- app_assoc.
    + constructor; [now left|assumption].
Qed.

(** ** Running scalar tokens *)

Lemma is_op_cases ops op : is_op ops op = true -> In op ops.
Proof.
  unfold is_op. rewrite existsb_exists. intros (x & Hin & Heq).
  apply Z.eqb_eq in Heq. now subst.
Qed.

Section TokenRuns.
Context `{Engine}.
Variables (damage : spec_float) (spawnIndex : Z) (dir : float3).

(** a scalar token leaves the instance alone and passes on to the rest *)
Lemma exec_op_token t rest s :
  scalar_token 15 t ->
  exists s', exec_op damage spawnIndex dir (tk_op t) (le_bytes 4 (tk_arg t) ++ rest) s
               = Ok (rest, s') /\
             instance s' = instance s /\
             (tk_op t =? OP_END) = false.
Proof.
  destruct t as [op z]. unfold scalar_token. cbn [tk_op tk_arg]. intros [Hf|[Hr Hz]].
  - apply is_op_cases in Hf. cbn in Hf.
    unfold exec_op, float_operand.
    rewrite (operand_bytes_app 4 _ rest (le_bytes_length 4 z)).
    cbn [bind].
    repeat (destruct Hf as [<-|Hf];
            [cbn -[le_value le_bytes]; try destruct (RandFloat (world s));
             eexists; split; [reflexivity|split; reflexivity]|]).
    destruct Hf.
  - apply is_op_cases in Hr. cbn in Hr.
    unfold exec_op, buffer_at.
    rewrite (operand_bytes_app 4 _ rest (le_bytes_length 4 z)).
    cbn [bind]. rewrite int32_small by lia.
    assert (Hb : (0 <=? z) && (z <? 16) = true)
      by (apply andb_true_intro; split; [apply Z.leb_le|apply Z.ltb_lt]; lia).
    repeat (destruct Hr as [<-|Hr];
            [cbn -[le_value le_bytes]; rewrite Hb; cbn -[le_value le_bytes];
             eexists; split; [reflexivity|split; reflexivity]|]).
    destruct Hr.
Qed.

Lemma exec_tokens toks rest : forall s,
  Forall (scalar_token 15) toks ->
  exists s', instance s' = instance s /\
    forall fuel, exec damage spawnIndex dir (List.length toks + fuel) (flat_map enc toks ++ rest) s
                 = exec damage spawnIndex dir fuel rest s'.
Proof.
  induction toks as [|t toks IH]; intros s Htoks.
  - exists s. split; [reflexivity|]. intros fuel. reflexivity.
  - inversion Htoks as [|? ? Ht Htoks']; subst.
    destruct (exec_op_token t (flat_map enc toks ++ rest) s Ht) as (s1 & Hop & Hi1 & Hend).
    destruct (IH s1 Htoks') as (s' & Hi' & Hrun).
    exists s'. split; [congruence|]. intros fuel.
    cbn [List.length Nat.add flat_map exec]. rewrite <- !app_assoc.
    unfold enc at 1. cbn [app].
    rewrite Hend, Hop. cbn [bind].
    apply Hrun.
Qed.

End TokenRuns.

(** ** Scripts *)

Lemma chars_length s : List.length (chars s) = String.length s.
Proof. unfold chars. induction s; simpl; congruence. Qed.

Lemma strlen_nonneg s : 0 <= strlen s.
Proof. unfold strlen. lia. Qed.

Lemma vastr_of_ok script : exists v, vastr_of script = Ok v.
Proof.
  unfold vastr_of, substr.
  destruct (Z.ltb_spec (strlen script) 0) as [Hlt|_]; [pose proof (strlen_nonneg script); lia|].
  eauto.
Qed.

Lemma is_dir_false script v :
  is_dir script = false -> vastr_of script = Ok v -> String.eqb v "dir" = false.
Proof. unfold is_dir. intros Hd Hv. now rewrite Hv in Hd. Qed.

Lemma is_dir_true script :
  is_dir script = true -> vastr_of script = Ok "dir"%string.
Proof.
  unfold is_dir. destruct (vastr_of script) as [v| | | |]; try discriminate.
  intros Hv. apply String.eqb_eq in Hv. now subst.
Qed.

Lemma positions_all (P : nat -> bool) script :
  forallb P (positions script) = true ->
  (forall q, (String.length script <= q)%nat -> P q = true) ->
  forall q, P q = true.
Proof.
  intros Hall Hout q.
  destruct (Nat.lt_ge_cases q (String.length script)) as [Hlt|Hge]; [|auto].
  rewrite forallb_forall in Hall. apply Hall. unfold positions.
  apply in_seq. lia.
Qed.

Lemma literals_ok_all script :
  literals_ok script = true -> forall q, literal_ok (chars script) q = true.
Proof.
  intros Hall. apply (positions_all _ script Hall). intros q Hq.
  unfold literal_ok. rewrite lookup_ge_None_2; [reflexivity|].
  rewrite chars_length. lia.
Qed.

Lemma registers_ok_all script :
  registers_ok script = true -> forall q, register_ok 15 (chars script) q = true.
Proof.
  intros Hall. apply (positions_all _ script Hall). intros q Hq.
  unfold register_ok. rewrite lookup_ge_None_2; [reflexivity|].
  rewrite chars_length. lia.
Qed.

Lemma register_ok_16 script q : register_ok 16 script q = true.
Proof.
  unfold register_ok. destruct (script !! q) as [c|]; [|reflexivity].
  destruct (mnemonic c) as [[op []]|]; try reflexivity.
  unfold register_index. lia.
Qed.

Lemma storeOp_legal id : legalType id = true -> storeOp id = [store_of id].
Proof. destruct id; try discriminate; reflexivity. Qed.

(** the fuel of the tokenizer is never the reason for [Diverges] *)
Lemma tokenize_fuel_irrelevant script : forall fuel1 fuel2 p code,
  (List.length script - p < fuel1)%nat ->
  (List.length script - p < fuel2)%nat ->
  tokenize fuel1 script p code = tokenize fuel2 script p code.
Proof.
  induction fuel1 as [|fuel1 IH]; intros fuel2 p code H1 H2; [lia|].
  destruct fuel2 as [|fuel2]; [lia|].
  cbn [tokenize].
  destruct (script !! p) as [c|] eqn:Hc; [|reflexivity].
  assert (Hp : (p < List.length script)%nat) by (apply lookup_lt_is_Some; eauto).
  assert (Hnext : forall p' code', (p < p')%nat ->
            tokenize fuel1 script p' code' = tokenize fuel2 script p' code')
    by (intros; apply IH; lia).
  destruct (Ascii.eqb c " "); [apply Hnext; lia|].
  destruct (mnemonic c) as [[op useInt]|].
  - destruct (Nat.leb_spec (List.length script) (S p)); [apply Hnext; lia|].
    destruct (operand script (S p) op useInt) as [bs p''].
    destruct (Nat.leb_spec p'' p); [reflexivity|apply Hnext; lia].
  - destruct (starts_literal c); [|apply Hnext; lia].
    destruct (Nat.leb_spec (List.length script) p); [lia|].
    destruct (operand script p OP_ADD false) as [bs p''].
    destruct (Nat.leb_spec p'' p); [reflexivity|apply Hnext; lia].
Qed.

Section ScalarFields.
Context `{Engine}.

(** the scalar branch of the compiler, for a bound [B] on the register
    indices of the text *)
Lemma ParseExplosionCode_scalar B st offset id script :
  legalType id = true ->
  is_dir script = false ->
  literals_ok script = true ->
  (forall q, register_ok B (chars script) q = true) ->
  exists toks,
    ParseExplosionCode st offset (BasicType id) script
    = Ok {| cs_code := cs_code st ++ flat_map enc toks
                       ++ store_of id :: le_bytes 2 (uint16 offset);
            cs_spawnExplGens := cs_spawnExplGens st;
            cs_world := cs_world st |}
    /\ Forall (scalar_token (Z.min 16 B)) toks.
Proof.
  intros Hlegal Hdir Hlit Hreg.
  destruct (vastr_of_ok script) as (v & Hv).
  destruct (tokenize_tokens B (S (String.length script)) (chars script) 0 (cs_code st))
    as (toks & Htok & Htoks).
  { rewrite chars_length. lia. }
  { now apply literals_ok_all. }
  { assumption. }
  exists toks. split; [|assumption].
  cbn [ParseExplosionCode]. rewrite Hv. cbn [bind].
  rewrite (is_dir_false _ _ Hdir Hv), Hlegal. cbn [negb].
  rewrite Htok. cbn [bind]. rewrite (storeOp_legal _ Hlegal).
  now rewrite <- app_assoc.
Qed.

End ScalarFields.

(** ** The interpreter always comes back *)

Section InterpreterReturns.
Context `{Engine}.

Lemma operand_bytes_shrinks n code z code' :
  operand_bytes n code = Ok (z, code') -> (List.length code' <= List.length code)%nat.
Proof.
  unfold operand_bytes. destruct (n <=? List.length code)%nat; [|discriminate].
  intros [= _ <-]. rewrite length_drop. lia.
Qed.

Lemma exec_op_shrinks damage spawnIndex dir op code s code' s' :
  exec_op damage spawnIndex dir op code s = Ok (code', s') ->
  (List.length code' <= List.length code)%nat.
Proof.
  unfold exec_op, float_operand.
  repeat match goal with
         | |- context [if ?b then _ else _] => destruct b
         end; try discriminate;
  match goal with
  | |- context [operand_bytes ?n code] =>
      destruct (operand_bytes n code) as [[z c]| | | |] eqn:E; cbn [bind]; try discriminate;
      apply operand_bytes_shrinks in E
  end;
  repeat match goal with
         | |- context [buffer_at ?s ?i] => destruct (buffer_at s i); cbn [bind]; try discriminate
         | |- context [RandFloat ?w] => destruct (RandFloat w)
         end;
  intros [= <- _]; assumption.
Qed.

Lemma exec_op_returns damage spawnIndex dir op code s :
  exec_op damage spawnIndex dir op code s <> Diverges.
Proof.
  unfold exec_op, float_operand, operand_bytes, buffer_at.
  repeat match goal with
         | |- context [if ?b then _ else _] => destruct b; cbn [bind]
         | |- context [RandFloat ?w] => destruct (RandFloat w)
         end; discriminate.
Qed.

(** the fuel of the interpreter is never used up *)
Lemma exec_fuel_enough damage spawnIndex dir : forall fuel code s,
  (List.length code < fuel)%nat ->
  exec damage spawnIndex dir fuel code s <> Diverges.
Proof.
  induction fuel as [|fuel IH]; intros code s Hlen; [lia|].
  cbn [exec]. destruct code as [|op code1]; [discriminate|].
  destruct (op =? OP_END); [discriminate|].
  pose proof (exec_op_returns damage spawnIndex dir op code1 s) as Hret.
  destruct (exec_op damage spawnIndex dir op code1 s) as [[code2 s']| | | |] eqn:E;
    cbn [bind]; try discriminate; [|contradiction].
  apply exec_op_shrinks in E. apply IH. cbn in Hlen. lia.
Qed.

Lemma ExecuteExplosionCode_returns code damage inst spawnIndex dir buffer0 w :
  ExecuteExplosionCode code damage inst spawnIndex dir buffer0 w <> Diverges.
Proof. apply exec_fuel_enough. lia. Qed.

End InterpreterReturns.

(** ** Stores *)

Lemma flat_map_enc_length toks : List.length (flat_map enc toks) = (5 * List.length toks)%nat.
Proof.
  induction toks as [|t toks IH]; [reflexivity|].
  cbn [flat_map]. rewrite length_app, IH. unfold enc. cbn [List.length].
  rewrite le_bytes_length. lia.
Qed.

Lemma scalar_token_le B B' t : B <= B' -> scalar_token B t -> scalar_token B' t.
Proof. intros HB [Hf|[Hr Hz]]; [now left|right]. split; [assumption|lia]. Qed.

Section Stores.
Context `{Engine}.

(** every store instruction leaves the accumulator at zero *)
Lemma store_resets_val damage spawnIndex dir op code s code' s' :
  is_op store_ops op = true ->
  exec_op damage spawnIndex dir op code s = Ok (code', s') ->
  val s' = F32.zero.
Proof.
  intros Hop. apply is_op_cases in Hop. cbn in Hop.
  unfold exec_op.
  destruct Hop as [<-|[<-|[<-|[]]]]; cbn -[operand_bytes];
    destruct (operand_bytes 2 code) as [[o c]| | | |]; cbn; intros [= <- <-]; reflexivity.
Qed.

(** the store that ends a scalar program, and the end tag behind it *)
Lemma exec_trailing_store damage spawnIndex dir id offset fuel s :
  legalType id = true ->
  exists v,
    exec damage spawnIndex dir (S (S fuel))
      (store_of id :: le_bytes 2 (uint16 offset) ++ [OP_END]) s
    = Ok (set_val (store s (uint16 offset) v) F32.zero)
    /\ value_of_kind id v /\ width v = width_of id.
Proof.
  intros Hlegal. cbn [exec].
  assert (Hend : (store_of id =? OP_END) = false) by (destruct id; reflexivity).
  rewrite Hend.
  assert (Hrd : operand_bytes 2 (le_bytes 2 (uint16 offset) ++ [OP_END])
                = Ok (uint16 offset, [OP_END])).
  { rewrite (operand_bytes_app 2) by apply le_bytes_length. now rewrite uint16_le_bytes. }
  destruct id; try discriminate Hlegal; unfold exec_op; cbn -[operand_bytes le_bytes];
    rewrite Hrd; cbn -[le_bytes]; eexists; (split; [reflexivity|split; [exact I|reflexivity]]).
Qed.

(** a zero of either sign, as the operand of an instruction *)
Lemma zero_operand sg rest :
  float_operand (F32.to_bytes (S754_zero sg) ++ rest) = Ok (S754_zero sg, rest).
Proof.
  unfold float_operand, F32.to_bytes.
  rewrite (operand_bytes_app 4) by apply le_bytes_length.
  destruct sg; reflexivity.
Qed.

Lemma DISCRETE_zero_operand damage spawnIndex dir sg rest s :
  exec_op damage spawnIndex dir OP_DISCRETE (F32.to_bytes (S754_zero sg) ++ rest) s
  = Ok (rest, set_val s (S754_zero sg)).
Proof.
  unfold exec_op. cbn -[float_operand F32.to_bytes].
  rewrite zero_operand. cbn [bind].
  destruct sg; reflexivity.
Qed.

End Stores.

(** ** The cache *)

Lemma data_at_Some (data : list CEGData) i d :
  0 <= i -> data !! Z.to_nat i = Some d -> data_at data i = Ok d.
Proof.
  intros Hi Hd. unfold data_at. rewrite Hd.
  destruct (Z.leb_spec 0 i); [reflexivity|lia].
Qed.

Lemma removelast_length {A} (l : list A) :
  List.length (removelast l) = Nat.pred (List.length l).
Proof. rewrite removelast_firstn_len, length_take. lia. Qed.

Lemma last_snoc_inv {A} (l : list A) x : last l = Some x -> exists l', l = l' ++ [x].
Proof.
  intros Hl. destruct (decide (l = [])) as [->|Hne]; [discriminate|].
  destruct (exists_last Hne) as (l' & y & ->).
  rewrite last_snoc in Hl. injection Hl as ->. eauto.
Qed.

(** swapping the last entry into slot [i], dropping the last slot, then
    pushing the last entry back and restoring slot [i] rebuilds the vector *)
Lemma swap_pop_push_restore {A} (data : list A) (i : nat) (old tmp : A) :
  data !! i = Some old ->
  last data = Some tmp ->
  <[i := old]> (removelast (<[i := tmp]> data) ++ [tmp]) = data.
Proof.
  intros Hold Hlast. destruct (last_snoc_inv _ _ Hlast) as (l & ->).
  assert (Hi : (i < List.length (l ++ [tmp]))%nat) by (apply lookup_lt_is_Some; eauto).
  rewrite length_app in Hi. cbn in Hi.
  destruct (decide (i = List.length l)) as [->|Hne].
  - rewrite list_lookup_middle in Hold by reflexivity. injection Hold as <-.
    replace (List.length l) with (List.length l + 0)%nat by lia.
    rewrite insert_app_r. cbn. rewrite removelast_last.
    rewrite insert_app_r. reflexivity.
  - assert (Hlt : (i < List.length l)%nat) by lia.
    rewrite lookup_app_l in Hold by lia.
    rewrite (insert_app_l l [tmp]) by lia. rewrite removelast_last.
    rewrite insert_app_l by (rewrite length_insert; lia).
    rewrite list_insert_insert_eq. now rewrite list_insert_id.
Qed.

Lemma swap_pop_push_lookup {A} (data : list A) (i : nat) (old tmp : A) :
  data !! i = Some old ->
  last data = Some tmp ->
  (removelast (<[i := tmp]> data) ++ [tmp]) !! i = Some tmp.
Proof.
  intros Hold Hlast. destruct (last_snoc_inv _ _ Hlast) as (l & ->).
  assert (Hi : (i < List.length (l ++ [tmp]))%nat) by (apply lookup_lt_is_Some; eauto).
  rewrite length_app in Hi. cbn in Hi.
  destruct (decide (i = List.length l)) as [->|Hne].
  - pose proof (insert_app_r l [tmp] 0 tmp) as E. rewrite Nat.add_0_r in E.
    rewrite E. cbn. rewrite removelast_last.
    now rewrite list_lookup_middle.
  - rewrite (insert_app_l l [tmp]) by lia. rewrite removelast_last.
    rewrite lookup_app_l by (rewrite length_insert; lia).
    apply list_lookup_insert_eq. lia.
Qed.

Section CacheFacts.
Context `{Engine}.

(** when the tag is not cached, [Load] returns the invalid identifier only
    on the path that changes nothing *)
Lemma Load_invalid_unchanged g w tag g' w' :
  explosionIDs g !! tag = None ->
  Z.of_nat (List.length (explosionData g)) < 4294967295 ->
  Load g w tag = Ok (EXPLOSION_ID_INVALID, g', w') ->
  g' = g /\ w' = w.
Proof.
  intros Hnone Hsize. unfold Load. rewrite Hnone.
  destruct (GetExplosionTableRoot w) as [root|]; [|intros [= <- <-]; auto].
  destruct (IsValid (SubTable root tag)); cbn [negb]; [|intros [= <- <-]; auto].
  destruct (compile_spawns _ _ _ _ _) as [[[spawns gens] w1]| | | |]; cbn [bind];
    try discriminate.
  intros [= Hid _ _]. exfalso.
  rewrite length_app in Hid. cbn [List.length] in Hid.
  unfold uint32, EXPLOSION_ID_INVALID in Hid.
  rewrite Z.mod_small in Hid by lia. lia.
Qed.

Lemma cache_ok_empty : cache_ok emptyGenerator.
Proof.
  split; [|cbn; lia].
  intros tag id Hl. cbn [emptyGenerator explosionIDs] in Hl.
  now rewrite lookup_empty in Hl.
Qed.

(** [Load] keeps the invariant while the identifiers last *)
Lemma Load_keeps_cache_ok g w tag id g' w' :
  cache_ok g ->
  Z.of_nat (List.length (explosionData g)) + 1 < 4294967295 ->
  Load g w tag = Ok (id, g', w') ->
  cache_ok g'.
Proof.
  intros [Hidx Hsize] Hroom. unfold Load.
  destruct (explosionIDs g !! tag) as [i|] eqn:Hl; [intros [= <- <- <-]; now split|].
  destruct (GetExplosionTableRoot w) as [root|]; [|intros [= <- <- <-]; now split].
  destruct (IsValid (SubTable root tag)); cbn [negb]; [|intros [= <- <- <-]; now split].
  destruct (compile_spawns _ _ _ _ _) as [[[spawns gens] w1]| | | |]; cbn [bind];
    try discriminate.
  intros [= <- <- <-]. unfold cache_ok. cbn [explosionIDs explosionData].
  rewrite length_app. cbn [List.length].
  split; [|lia].
  intros tag' id'. rewrite lookup_insert. case_decide as Htag.
  - intros [= <-]. unfold uint32. rewrite Z.mod_small by lia. lia.
  - intros Hl'. apply Hidx in Hl'. lia.
Qed.

(** a successful [Load] of a tag that is not cached appends the compiled
    data and hands out its index *)
Lemma Load_fresh g w tag id g' w' :
  explosionIDs g !! tag = None ->
  Z.of_nat (List.length (explosionData g)) < 4294967295 ->
  Load g w tag = Ok (id, g', w') ->
  id <> EXPLOSION_ID_INVALID ->
  exists newCEG,
    id = Z.of_nat (List.length (explosionData g)) /\
    explosionIDs g' = <[tag := id]> (explosionIDs g) /\
    explosionData g' = explosionData g ++ [newCEG].
Proof.
  intros Hnone Hsize. unfold Load. rewrite Hnone.
  destruct (GetExplosionTableRoot w) as [root|]; [|intros [= <- <- <-]; contradiction].
  destruct (IsValid (SubTable root tag)); cbn [negb]; [|intros [= <- <- <-]; contradiction].
  destruct (compile_spawns _ _ _ _ _) as [[[spawns gens] w1]| | | |]; cbn [bind];
    try discriminate.
  intros [= <- <- <-] _. eexists. cbn [explosionIDs explosionData].
  rewrite length_app. cbn [List.length].
  unfold uint32. rewrite Z.mod_small by lia.
  replace (Z.of_nat (List.length (explosionData g) + 1) - 1)
    with (Z.of_nat (List.length (explosionData g))) by lia.
  repeat split; reflexivity.
Qed.

(** what a successful single-tag [Reload] leaves behind: the new data in the
    tag's slot, unless that slot is the last of several, where the old data
    come back *)
Lemma Reload_single_success g w tag cegIndex id g' w' :
  cache_ok g ->
  tag <> ""%string ->
  explosionIDs g !! tag = Some cegIndex ->
  Load (evicted g tag cegIndex) w tag = Ok (id, g', w') ->
  id <> EXPLOSION_ID_INVALID ->
  exists newCEG,
    last (explosionData g') = Some newCEG /\
    Reload g w tag
    = Ok ({| explosionIDs := explosionIDs g;
             explosionData :=
               if (cegIndex =? Z.of_nat (List.length (explosionData g)) - 1)
                  && (1 <? Z.of_nat (List.length (explosionData g)))
               then explosionData g
               else <[Z.to_nat cegIndex := newCEG]> (explosionData g);
             spawnExplGens := spawnExplGens g' |}, w').
Proof.
  intros [Hidx Hsize] Htag Hid Hload Hvalid.
  destruct (Hidx _ _ Hid) as [Hlo Hhi].
  destruct (lookup_lt_is_Some_2 (explosionData g) (Z.to_nat cegIndex)) as (oldCEG & Hold); [lia|].
  destruct (last (explosionData g)) as [tmpCEG|] eqn:Hlast.
  2:{ apply last_None in Hlast. rewrite Hlast in Hold. discriminate. }
  assert (Htmp : explosionData g !! Z.to_nat (Z.of_nat (List.length (explosionData g)) - 1)
                 = Some tmpCEG).
  { rewrite last_lookup in Hlast. rewrite <- Hlast. f_equal. lia. }
  unfold evicted in Hload. rewrite Hlast in Hload.
  unfold Reload.
  destruct (String.eqb_spec tag ""); [contradiction|].
  rewrite Hid.
  unfold uint32. rewrite (Z.mod_small (Z.of_nat _)) by lia.
  rewrite !(Z.mod_small (_ - 1)) by lia.
  rewrite (data_at_Some _ _ _ Hlo Hold). cbn [bind].
  assert (Hn1 : 0 <= Z.of_nat (List.length (explosionData g)) - 1) by lia.
  rewrite (data_at_Some _ _ _ Hn1 Htmp). cbn [bind].
  unfold with_data at 1. rewrite Hload. cbn [bind].
  apply Load_fresh in Hload as (newCEG & Hidn & Hids & Hdata); cbn [explosionIDs explosionData];
    [|apply lookup_delete_eq|rewrite removelast_length, length_insert; lia|assumption].
  cbn [explosionIDs explosionData] in Hidn, Hids, Hdata.
  exists newCEG. split; [rewrite Hdata; apply last_snoc|].
  destruct (Z.eqb_spec id EXPLOSION_ID_INVALID); [contradiction|].
  unfold with_data. cbn [spawnExplGens].
  rewrite Hids, Hdata, insert_insert_eq, insert_delete_eq, insert_id by assumption.
  destruct (last_snoc_inv _ _ Hlast) as (l & Hl). rewrite Hl in *.
  rewrite length_app in *. cbn [List.length] in *.
  assert (Hlastidx : Z.to_nat (Z.of_nat (List.length l + 1) - 1) = List.length l) by lia.
  rewrite !Hlastidx.
  assert (Hset : forall (k : list CEGData) (x y : CEGData),
             List.length k = List.length l -> <[List.length l := x]> (k ++ [y]) = k ++ [x]).
  { intros k x y Hk. rewrite <- Hk.
    pose proof (insert_app_r k [y] 0 x) as E. rewrite Nat.add_0_r in E. exact E. }
  assert (Hget : forall (k : list CEGData) (y : CEGData),
             List.length k = List.length l -> (k ++ [y]) !! List.length l = Some y).
  { intros k y Hk. rewrite <- Hk. now apply list_lookup_middle. }
  destruct (Z.ltb_spec 1 (Z.of_nat (List.length l + 1))) as [Hmany|Hone].
  - destruct (Z.eqb_spec cegIndex (Z.of_nat (List.length l + 1) - 1)) as [->|Hnl]; cbn [andb].
    + (* the last slot *)
      rewrite !Hlastidx. rewrite (Hset l) by reflexivity. rewrite removelast_last.
      rewrite data_at_Some with (d := newCEG); [|lia|rewrite Hlastidx; now apply Hget].
      cbn [bind]. rewrite !Hset by reflexivity. reflexivity.
    + (* a slot before the last *)
      assert (Hi : (Z.to_nat cegIndex < List.length l)%nat) by lia.
      rewrite (insert_app_l l [tmpCEG]) by lia. rewrite removelast_last.
      rewrite data_at_Some with (d := newCEG);
        [|lia|rewrite Hlastidx; apply Hget; apply length_insert].
      cbn [bind].
      rewrite data_at_Some with (d := tmpCEG); [|lia|].
      2:{ rewrite lookup_app_l by (rewrite length_insert; lia).
          apply list_lookup_insert_eq; lia. }
      cbn [bind].
      rewrite (insert_app_l (<[_ := tmpCEG]> l)) by (rewrite length_insert; lia).
      rewrite list_insert_insert_eq.
      rewrite Hset by apply length_insert.
      rewrite (insert_app_l l [tmpCEG]) by lia. reflexivity.
  - (* the only slot *)
    rewrite andb_false_r.
    assert (l = []) as -> by (destruct l; [reflexivity|cbn in Hone; lia]).
    cbn in Hhi. assert (cegIndex = 0) as -> by lia. reflexivity.
Qed.

End CacheFacts.

Example twoLoaded_is_loaded :
  (let* (idA, g1, w1) := Load (H:=testEngine) emptyGenerator twoTables "a" in
   let* (idB, g2, w2) := Load (H:=testEngine) g1 w1 "b" in
   Ok (idA, idB, g2)) = Ok (0, 1, twoLoaded).
Proof. vm_compute. reflexivity. Qed.

Lemma cache_ok_twoLoaded : cache_ok twoLoaded.
Proof.
  split; [|cbn; lia].
  intros tag id. cbn [twoLoaded explosionIDs explosionData List.length].
  rewrite lookup_insert. case_decide; [intros [= <-]; lia|].
  rewrite lookup_insert. case_decide; [intros [= <-]; lia|].
  rewrite lookup_empty. discriminate.
Qed.

(** * The claims *)

(** ** The compiler and the interpreter *)

Section CompilerClaims.
Context `{Engine}.

(** C1: the register index is clamped to 0..16, not to 0..15. The
    expression [y16] on a float field compiles to YANK with the operand 16,
    and running the program indexes [buffer] outside its 16 slots. *)
Theorem register_index_16_leaves_buffer gens w0 offset damage inst spawnIndex dir buffer0 w :
  ParseExplosionCode {| cs_code := []; cs_spawnExplGens := gens; cs_world := w0 |}
    offset (BasicType crFloat) "y16"
  = Ok {| cs_code := [OP_YANK; 16; 0; 0; 0; OP_STOREF] ++ le_bytes 2 (uint16 offset);
          cs_spawnExplGens := gens; cs_world := w0 |}
  /\ ExecuteExplosionCode
       ([OP_YANK; 16; 0; 0; 0; OP_STOREF] ++ le_bytes 2 (uint16 offset) ++ [OP_END])
       damage inst spawnIndex dir buffer0 w
     = Undefined "buffer index out of range".
Proof. split; reflexivity. Qed.

(** C2: SAWTOOTH with an operand of zero (of either sign) leaves NaN in the
    accumulator, whatever it held before: the quotient is not guarded the
    way the one of DISCRETE is. The expression [1m0] on a float field stores
    that NaN. *)
Theorem SAWTOOTH_zero_operand_is_NaN damage spawnIndex dir :
  (forall sg rest s,
     exec_op damage spawnIndex dir OP_SAWTOOTH (F32.to_bytes (S754_zero sg) ++ rest) s
     = Ok (rest, set_val s S754_nan))
  /\ (forall gens w0 inst buffer0 w,
        exists code s,
          ParseExplosionCode {| cs_code := []; cs_spawnExplGens := gens; cs_world := w0 |}
            8 (BasicType crFloat) "1m0"
          = Ok {| cs_code := code; cs_spawnExplGens := gens; cs_world := w0 |}
          /\ ExecuteExplosionCode (code ++ [OP_END]) damage inst spawnIndex dir buffer0 w
             = Ok s
          /\ instance s = inst ++ [{| st_offset := 8; st_value := VFloat S754_nan |}]).
Proof.
  split.
  - intros sg rest s. unfold exec_op. cbn -[float_operand F32.to_bytes].
    rewrite zero_operand. cbn [bind].
    do 2 f_equal. f_equal.
    destruct (val s) as [sv|sv| |sv m e]; destruct sg; try destruct sv; reflexivity.
  - intros gens w0 inst buffer0 w. do 2 eexists.
    split; [reflexivity|]. split; reflexivity.
Qed.

(** C6: a scalar expression with a register index of 16 or more compiles
    to a program that makes no store at all. The index is clamped to 16, not
    to 15 (the slip of C1), and for [3y16] on an int field the program, ADD
    3, YANK 16, STOREI, leaves the buffer at the YANK; the store behind it
    is never reached. The text is not the keyword and its literal is a
    number. *)
Theorem index_16_program_stores_nothing gens w0 offset damage inst spawnIndex dir buffer0 w :
  (legalType crInt = true /\ is_dir "3y16" = false /\ literals_ok "3y16" = true)
  /\ ParseExplosionCode {| cs_code := []; cs_spawnExplGens := gens; cs_world := w0 |}
       offset (BasicType crInt) "3y16"
     = Ok {| cs_code := enc {| tk_op := OP_ADD; tk_arg := F32.to_bits (F32.of_int 3) |}
                        ++ enc {| tk_op := OP_YANK; tk_arg := 16 |}
                        ++ OP_STOREI :: le_bytes 2 (uint16 offset);
             cs_spawnExplGens := gens; cs_world := w0 |}
  /\ ExecuteExplosionCode
       (enc {| tk_op := OP_ADD; tk_arg := F32.to_bits (F32.of_int 3) |}
        ++ enc {| tk_op := OP_YANK; tk_arg := 16 |}
        ++ OP_STOREI :: le_bytes 2 (uint16 offset) ++ [OP_END])
       damage inst spawnIndex dir buffer0 w
     = Undefined "buffer index out of range".
Proof. repeat split. Qed.

(** Where every register index is below 16, a scalar expression on a scalar
    field compiles, and the program, closed by the end tag as [Load] does,
    makes exactly one store into the instance: at the offset carried by the
    instruction, which is the field's offset as a 16-bit number (the
    field's offset itself when that fits 16 bits), and of the kind and
    width that go with the field's type. The accumulator is zero after that
    store, as it is after any STOREI, STOREF or STOREC. *)
Theorem scalar_program_stores_once id offset script gens w :
  legalType id = true ->
  wellformed_scalar script = true ->
  exists code,
    ParseExplosionCode {| cs_code := []; cs_spawnExplGens := gens; cs_world := w |}
      offset (BasicType id) script
    = Ok {| cs_code := code; cs_spawnExplGens := gens; cs_world := w |}
    /\ (forall damage inst spawnIndex dir buffer0 w0,
          exists s v,
            ExecuteExplosionCode (code ++ [OP_END]) damage inst spawnIndex dir buffer0 w0 = Ok s
            /\ instance s = inst ++ [{| st_offset := uint16 offset; st_value := v |}]
            /\ value_of_kind id v /\ width v = width_of id
            /\ val s = F32.zero)
    /\ (0 <= offset < 65536 -> uint16 offset = offset)
    /\ (forall damage spawnIndex dir op code0 s code1 s1,
          is_op store_ops op = true ->
          exec_op damage spawnIndex dir op code0 s = Ok (code1, s1) ->
          val s1 = F32.zero).
Proof.
  intros Hlegal Hwf. unfold wellformed_scalar in Hwf.
  apply andb_prop in Hwf as [Hwf Hreg]. apply andb_prop in Hwf as [Hdir Hlit].
  apply negb_true_iff in Hdir.
  destruct (ParseExplosionCode_scalar 15
              {| cs_code := []; cs_spawnExplGens := gens; cs_world := w |}
              offset id script Hlegal Hdir Hlit (registers_ok_all _ Hreg))
    as (toks & Hparse & Htoks).
  change (Z.min 16 15) with 15 in Htoks. cbn [cs_code cs_spawnExplGens cs_world app] in Hparse.
  eexists. split; [exact Hparse|]. split; [|split].
  - intros damage inst spawnIndex dir buffer0 w0.
    unfold ExecuteExplosionCode.
    set (s0 := {| val := F32.zero; ptr := 0; buffer := buffer0; instance := inst; world := w0 |}).
    destruct (exec_tokens damage spawnIndex dir toks
                (store_of id :: le_bytes 2 (uint16 offset) ++ [OP_END]) s0 Htoks)
      as (s1 & Hinst & Hrun).
    rewrite <- app_assoc. cbn [app].
    rewrite length_app, flat_map_enc_length. cbn [List.length].
    rewrite length_app, le_bytes_length. cbn [List.length].
    replace (S (5 * List.length toks + S (2 + 1)))%nat
      with (List.length toks + S (S (4 * List.length toks + 3)))%nat by lia.
    rewrite Hrun.
    destruct (exec_trailing_store damage spawnIndex dir id offset
                (4 * List.length toks + 3) s1 Hlegal) as (v & Hex & Hkind & Hwidth).
    exists (set_val (store s1 (uint16 offset) v) F32.zero), v.
    split; [exact Hex|]. cbn [instance set_val store]. rewrite Hinst.
    repeat split; assumption.
  - apply uint16_small.
  - intros damage spawnIndex dir op code0 s code1 s1. apply store_resets_val.
Qed.

(** C7, as amended: on a field of type int, bool, float or uchar, an
    expression that is not the keyword [dir] and whose [.] and [-] all start
    a number is tokenized to the end, and then exactly one store is
    appended: STOREI for int and bool, STOREF for float, STOREC for uchar,
    followed by the offset as two bytes. *)
Theorem scalar_field_gets_trailing_store st offset id script :
  legalType id = true ->
  is_dir script = false ->
  literals_ok script = true ->
  appends_trailing_store st offset id script.
Proof.
  intros Hlegal Hdir Hlit.
  destruct (ParseExplosionCode_scalar 16 st offset id script Hlegal Hdir Hlit)
    as (toks & Hp & Htoks); [intros q; apply register_ok_16|].
  exists toks. split; assumption.
Qed.

(** C8: when the text up to the first [;] is [dir], the compiler appends one
    DIR instruction carrying the offset (as a 16-bit number) and nothing
    else, whatever the type of the field. Compiled into an empty stream and
    closed by the end tag as [Load] does, the program is run by
    [ExecuteExplosionCode] to its end: the direction vector is stored as it
    is at that offset, nothing else is stored, and the accumulator is what
    it was. Wherever DIR stands in a stream, it stores the vector and leaves
    the accumulator alone. *)
Theorem dir_keyword_emits_DIR st offset type script :
  is_dir script = true ->
  ParseExplosionCode st offset type script
  = Ok (emit st (OP_DIR :: le_bytes 2 (uint16 offset)))
  /\ (forall gens w0 damage inst spawnIndex dir buffer0 w,
        (let* st' := ParseExplosionCode
                       {| cs_code := []; cs_spawnExplGens := gens; cs_world := w0 |}
                       offset type script in
         ExecuteExplosionCode (cs_code st' ++ [OP_END]) damage inst spawnIndex dir buffer0 w)
        = Ok {| val := F32.zero; ptr := 0; buffer := buffer0;
                instance := inst ++ [{| st_offset := uint16 offset;
                                         st_value := VFloat3 dir |}];
                world := w |})
  /\ (forall damage spawnIndex dir rest s,
        exists s',
          exec_op damage spawnIndex dir OP_DIR (le_bytes 2 (uint16 offset) ++ rest) s
          = Ok (rest, s')
          /\ instance s' = instance s ++ [{| st_offset := uint16 offset;
                                            st_value := VFloat3 dir |}]
          /\ val s' = val s)
  /\ (0 <= offset < 65536 -> uint16 offset = offset).
Proof.
  intros Hdir. apply is_dir_true in Hdir.
  assert (Hparse : forall st0, ParseExplosionCode st0 offset type script
                               = Ok (emit st0 (OP_DIR :: le_bytes 2 (uint16 offset))))
    by (intros st0; destruct type; cbn [ParseExplosionCode]; rewrite Hdir; reflexivity).
  assert (Hop : forall damage spawnIndex dir rest s,
            exec_op damage spawnIndex dir OP_DIR (le_bytes 2 (uint16 offset) ++ rest) s
            = Ok (rest, store s (uint16 offset) (VFloat3 dir))).
  { intros damage spawnIndex dir rest s.
    unfold exec_op. cbn -[operand_bytes le_bytes].
    rewrite (operand_bytes_app 2) by apply le_bytes_length.
    now rewrite uint16_le_bytes. }
  split; [apply Hparse|]. split; [|split].
  - intros gens w0 damage inst spawnIndex dir buffer0 w.
    rewrite Hparse. cbn [bind emit cs_code app].
    unfold ExecuteExplosionCode.
    cbn [List.length]. rewrite length_app, le_bytes_length. cbn [List.length Nat.add].
    cbn [exec]. change (OP_DIR =? OP_END) with false. cbn match.
    rewrite Hop. cbn [bind exec]. change (OP_END =? OP_END) with true. reflexivity.
  - intros damage spawnIndex dir rest s.
    exists (store s (uint16 offset) (VFloat3 dir)).
    split; [apply Hop|split; reflexivity].
  - apply uint16_small.
Qed.

(** C9: a text that runs out without a closing comma does not stop the
    loop over the members. For a [float3] at offset 76 (members at 76, 80
    and 84) and the two sub-expressions [1,2], no comma is found after the
    second one, [start] becomes [npos + 1], which is 0, and the third member
    is compiled from the start of the text again: the program stores into
    all three members. *)
Theorem short_expression_wraps_around gens w0 damage inst spawnIndex dir buffer0 w :
  ParseExplosionCode {| cs_code := []; cs_spawnExplGens := gens; cs_world := w0 |}
    76 (ObjectInstanceType float3Class) "1,2"
  = Ok {| cs_code := enc {| tk_op := OP_ADD; tk_arg := F32.to_bits F32.one |}
                     ++ [OP_STOREF; 76; 0]
                     ++ enc {| tk_op := OP_ADD; tk_arg := F32.to_bits (F32.of_int 2) |}
                     ++ [OP_STOREF; 80; 0]
                     ++ enc {| tk_op := OP_ADD; tk_arg := F32.to_bits F32.one |}
                     ++ [OP_STOREF; 84; 0];
          cs_spawnExplGens := gens; cs_world := w0 |}
  /\ exists s,
       ExecuteExplosionCode
         (enc {| tk_op := OP_ADD; tk_arg := F32.to_bits F32.one |}
          ++ [OP_STOREF; 76; 0]
          ++ enc {| tk_op := OP_ADD; tk_arg := F32.to_bits (F32.of_int 2) |}
          ++ [OP_STOREF; 80; 0]
          ++ enc {| tk_op := OP_ADD; tk_arg := F32.to_bits F32.one |}
          ++ [OP_STOREF; 84; 0] ++ [OP_END])
         damage inst spawnIndex dir buffer0 w = Ok s
       /\ instance s = inst ++ [{| st_offset := 76; st_value := VFloat F32.one |};
                                {| st_offset := 80; st_value := VFloat (F32.of_int 2) |};
                                {| st_offset := 84; st_value := VFloat F32.one |}]
       /\ touched (instance s) 84 = true.
Proof.
  split; [reflexivity|].
  eexists. split; [reflexivity|].
  match goal with
  | |- ?i = ?l /\ _ => assert (Hi : i = l) by (cbn; now rewrite <- !app_assoc)
  end.
  split; [exact Hi|]. rewrite Hi. unfold touched.
  rewrite existsb_app. apply orb_true_iff. right. reflexivity.
Qed.

End CompilerClaims.

Section CompilerOnTheSmallEngine.
#[local] Existing Instance testEngine.

(** the scalar program for [d2r0.5] on an int field at offset 12 *)
Lemma scalar_program_stores_once_witness :
  legalType crInt = true /\ wellformed_scalar "d2r0.5" = true /\
  exists code,
    ParseExplosionCode (H:=testEngine)
      {| cs_code := []; cs_spawnExplGens := []; cs_world := LuaNil |}
      12 (BasicType crInt) "d2r0.5"
    = Ok {| cs_code := code; cs_spawnExplGens := []; cs_world := LuaNil |}
    /\ (forall damage inst spawnIndex dir buffer0 w0,
          exists s v,
            ExecuteExplosionCode (code ++ [OP_END]) damage inst spawnIndex dir buffer0 w0 = Ok s
            /\ instance s = inst ++ [{| st_offset := uint16 12; st_value := v |}]
            /\ value_of_kind crInt v /\ width v = width_of crInt
            /\ val s = F32.zero)
    /\ (0 <= 12 < 65536 -> uint16 12 = 12)
    /\ (forall damage spawnIndex dir op code0 s code1 s1,
          is_op store_ops op = true ->
          exec_op damage spawnIndex dir op code0 s = Ok (code1, s1) ->
          val s1 = F32.zero).
Proof.
  split; [reflexivity|]. split; [reflexivity|].
  apply (scalar_program_stores_once (H:=testEngine) crInt 12 "d2r0.5" [] LuaNil);
    reflexivity.
Defined.

(** C7 as stated fails on the keyword: [dir] on a float field at offset 8
    compiles to DIR alone, no store is appended. *)
Lemma dir_on_float_field_appends_no_store :
  ~ appends_trailing_store (H:=testEngine)
      {| cs_code := []; cs_spawnExplGens := []; cs_world := LuaNil |} 8 crFloat "dir".
Proof.
  intros (toks & Hparse & _).
  assert (Hcode : [OP_DIR; 8; 0] = flat_map enc toks ++ [OP_STOREF; 8; 0]).
  { revert Hparse. generalize (flat_map enc toks). intros l Hparse.
    vm_compute in Hparse. injection Hparse as Hparse. exact Hparse. }
  destruct toks as [|t toks].
  - discriminate Hcode.
  - apply (f_equal (@List.length byte)) in Hcode.
    cbn [flat_map] in Hcode. rewrite !length_app in Hcode.
    unfold enc in Hcode. cbn [List.length] in Hcode.
    rewrite le_bytes_length in Hcode. lia.
Qed.

Lemma scalar_field_gets_trailing_store_witness :
  legalType crUChar = true /\ is_dir "y0x0" = false /\ literals_ok "y0x0" = true /\
  appends_trailing_store (H:=testEngine)
    {| cs_code := []; cs_spawnExplGens := []; cs_world := LuaNil |} 72 crUChar "y0x0".
Proof.
  split; [reflexivity|]. split; [reflexivity|]. split; [reflexivity|].
  apply (scalar_field_gets_trailing_store (H:=testEngine)); reflexivity.
Defined.

(** [dir] on a field of a type no scalar expression is accepted for: the
    program is DIR 76, and running it stores the direction at 76 *)
Lemma dir_keyword_emits_DIR_witness :
  is_dir "dir;1,2" = true /\
  ParseExplosionCode (H:=testEngine)
    {| cs_code := []; cs_spawnExplGens := []; cs_world := LuaNil |}
    76 (BasicType crDouble) "dir;1,2"
  = Ok {| cs_code := [OP_DIR; 76; 0]; cs_spawnExplGens := []; cs_world := LuaNil |} /\
  (let* st' := ParseExplosionCode (H:=testEngine)
                 {| cs_code := []; cs_spawnExplGens := []; cs_world := LuaNil |}
                 76 (BasicType crDouble) "dir;1,2" in
   ExecuteExplosionCode (H:=testEngine) (cs_code st' ++ [OP_END])
     F32.one [] 0 (F32.zero, F32.one, F32.zero) (fun _ => F32.one) LuaNil)
  = Ok {| val := F32.zero; ptr := 0; buffer := fun _ => F32.one;
          instance := [{| st_offset := 76;
                          st_value := VFloat3 (F32.zero, F32.one, F32.zero) |}];
          world := LuaNil |}.
Proof.
  split; [reflexivity|].
  destruct (dir_keyword_emits_DIR (H:=testEngine) noState
              76 (BasicType crDouble) "dir;1,2" eq_refl) as (Hparse & Hrun & _).
  split; [exact Hparse|].
  apply (Hrun []).
Defined.

(** [1.5] on a float field at offset 8 is ADD 1.5, STOREF 8, and stores 1.5 *)
Example compile_1_5 :
  ParseExplosionCode {| cs_code := []; cs_spawnExplGens := []; cs_world := LuaNil |}
    8 (BasicType crFloat) "1.5"
  = Ok {| cs_code := enc {| tk_op := OP_ADD; tk_arg := 1069547520 |} ++ [OP_STOREF; 8; 0];
          cs_spawnExplGens := []; cs_world := LuaNil |}
  /\ F32.of_bits 1069547520 = S754_finite false 12582912 (-23)
  /\ instance <$> ExecuteExplosionCode
                    (enc {| tk_op := OP_ADD; tk_arg := 1069547520 |} ++ [OP_STOREF; 8; 0; OP_END])
                    F32.zero [] 0 (F32.one, F32.zero, F32.zero) (fun _ => F32.one) LuaNil
     = Ok [{| st_offset := 8; st_value := VFloat (S754_finite false 12582912 (-23)) |}].
Proof. repeat split. Qed.

(** [d2r0.5] with a damage of 10 and a random draw of one half stores 20.25 *)
Example compile_d2r0_5 :
  ParseExplosionCode {| cs_code := []; cs_spawnExplGens := []; cs_world := LuaNil |}
    8 (BasicType crFloat) "d2r0.5"
  = Ok {| cs_code := enc {| tk_op := OP_DAMAGE; tk_arg := F32.to_bits (F32.of_int 2) |}
                     ++ enc {| tk_op := OP_RAND; tk_arg := 1056964608 |}
                     ++ [OP_STOREF; 8; 0];
          cs_spawnExplGens := []; cs_world := LuaNil |}
  /\ instance <$> ExecuteExplosionCode
                    (enc {| tk_op := OP_DAMAGE; tk_arg := F32.to_bits (F32.of_int 2) |}
                     ++ enc {| tk_op := OP_RAND; tk_arg := 1056964608 |}
                     ++ [OP_STOREF; 8; 0; OP_END])
                    (F32.of_int 10) [] 0 (F32.one, F32.zero, F32.zero) (fun _ => F32.one) LuaNil
     = Ok [{| st_offset := 8; st_value := VFloat (S754_finite false 10616832 (-19)) |}].
Proof. repeat split. Qed.

(** [y0x0]: YANK 0 moves the accumulator to register 0 and clears it,
    MULTIPLY 0 multiplies the cleared accumulator by the register *)
Example compile_y0x0 :
  ParseExplosionCode {| cs_code := []; cs_spawnExplGens := []; cs_world := LuaNil |}
    8 (BasicType crFloat) "3y0x0"
  = Ok {| cs_code := enc {| tk_op := OP_ADD; tk_arg := F32.to_bits (F32.of_int 3) |}
                     ++ enc {| tk_op := OP_YANK; tk_arg := 0 |}
                     ++ enc {| tk_op := OP_MULTIPLY; tk_arg := 0 |}
                     ++ [OP_STOREF; 8; 0];
          cs_spawnExplGens := []; cs_world := LuaNil |}
  /\ (fun s => (instance s, buffer s 0))
       <$> ExecuteExplosionCode
             (enc {| tk_op := OP_ADD; tk_arg := F32.to_bits (F32.of_int 3) |}
              ++ enc {| tk_op := OP_YANK; tk_arg := 0 |}
              ++ enc {| tk_op := OP_MULTIPLY; tk_arg := 0 |}
              ++ [OP_STOREF; 8; 0; OP_END])
             F32.zero [] 0 (F32.one, F32.zero, F32.zero) (fun _ => F32.one) LuaNil
     = Ok ([{| st_offset := 8; st_value := VFloat F32.zero |}], F32.of_int 3).
Proof. repeat split. Qed.

(** a text that ends in a comma is exhausted where it ends: [1,2,] on a
    [float3] leaves the third member without instructions *)
Example short_expression_with_comma :
  ParseExplosionCode {| cs_code := []; cs_spawnExplGens := []; cs_world := LuaNil |}
    76 (ObjectInstanceType float3Class) "1,2,"
  = Ok {| cs_code := enc {| tk_op := OP_ADD; tk_arg := F32.to_bits F32.one |}
                     ++ [OP_STOREF; 76; 0]
                     ++ enc {| tk_op := OP_ADD; tk_arg := F32.to_bits (F32.of_int 2) |}
                     ++ [OP_STOREF; 80; 0];
          cs_spawnExplGens := []; cs_world := LuaNil |}.
Proof. reflexivity. Qed.

(** a [-] that starts no number keeps the tokenizer busy for ever, and a
    type outside the four scalar ones is refused *)
Example compile_failures :
  ParseExplosionCode {| cs_code := []; cs_spawnExplGens := []; cs_world := LuaNil |}
    8 (BasicType crFloat) "-x" = Diverges
  /\ ParseExplosionCode {| cs_code := []; cs_spawnExplGens := []; cs_world := LuaNil |}
       8 (BasicType crDouble) "1" = Throw (content_error_msg "1").
Proof. split; reflexivity. Qed.

End CompilerOnTheSmallEngine.

(** ** The cache *)

Section CacheClaims.
Context `{Engine}.

(** C5: when the tag is cached and the [Load] inside a single-tag [Reload]
    returns the invalid identifier, [Reload] hands back the generator as it
    was: the tag has its old identifier and the vector holds the old data. *)
Theorem Reload_failure_keeps_old g w tag cegIndex g' w' :
  cache_ok g ->
  tag <> ""%string ->
  explosionIDs g !! tag = Some cegIndex ->
  Load (evicted g tag cegIndex) w tag = Ok (EXPLOSION_ID_INVALID, g', w') ->
  Reload g w tag = Ok (g, w).
Proof.
  intros [Hidx Hsize] Htag Hid Hload.
  destruct (Hidx _ _ Hid) as [Hlo Hhi].
  destruct (lookup_lt_is_Some_2 (explosionData g) (Z.to_nat cegIndex)) as (oldCEG & Hold); [lia|].
  destruct (last (explosionData g)) as [tmpCEG|] eqn:Hlast.
  2:{ apply last_None in Hlast. rewrite Hlast in Hold. discriminate. }
  assert (Htmp : explosionData g !! Z.to_nat (Z.of_nat (List.length (explosionData g)) - 1)
                 = Some tmpCEG).
  { rewrite last_lookup in Hlast. rewrite <- Hlast. f_equal. lia. }
  unfold evicted in Hload. rewrite Hlast in Hload.
  unfold Reload.
  destruct (String.eqb_spec tag ""); [contradiction|].
  rewrite Hid.
  unfold uint32 at 1 2. rewrite (Z.mod_small (Z.of_nat _)) by lia.
  rewrite (Z.mod_small (_ - 1)) by lia.
  rewrite (data_at_Some _ _ _ Hlo Hold). cbn [bind].
  assert (Hn1 : 0 <= Z.of_nat (List.length (explosionData g)) - 1) by lia.
  rewrite (data_at_Some _ _ _ Hn1 Htmp). cbn [bind].
  unfold with_data at 1. rewrite Hload. cbn [bind].
  apply Load_invalid_unchanged in Hload as [-> ->]; cbn [explosionIDs explosionData].
  2:{ apply lookup_delete_eq. }
  2:{ rewrite removelast_length, length_insert. lia. }
  rewrite Z.eqb_refl. cbn [explosionIDs explosionData spawnExplGens with_data].
  rewrite data_at_Some with (d := tmpCEG); [cbn [bind]|lia|].
  2:{ eapply swap_pop_push_lookup; eassumption. }
  rewrite (swap_pop_push_restore _ _ oldCEG tmpCEG) by assumption.
  rewrite insert_delete_eq, insert_id by assumption.
  destruct g; reflexivity.
Qed.

(** C10: an identifier that is none of the three reserved ones and not below
    the number of cached definitions makes [Explosion] return false; nothing
    is created, and the generator and the engine are as before. *)
Theorem Explosion_unknown_id g w explosionID pos dir damage radius gfxMod owner hit :
  explosionID <> EXPLOSION_ID_INVALID ->
  explosionID <> EXPLOSION_ID_STANDARD ->
  explosionID <> EXPLOSION_ID_SPAWNER ->
  Z.of_nat (List.length (explosionData g)) <= explosionID ->
  Explosion g w explosionID pos dir damage radius gfxMod owner hit
  = Ok (false, [], g, w).
Proof.
  intros Hinv Hstd Hspw Hge. unfold Explosion.
  destruct (Z.eqb_spec explosionID EXPLOSION_ID_STANDARD); [contradiction|].
  destruct (Z.eqb_spec explosionID EXPLOSION_ID_INVALID); [contradiction|].
  destruct (Z.eqb_spec explosionID EXPLOSION_ID_SPAWNER); [contradiction|].
  destruct (Z.leb_spec (Z.of_nat (List.length (explosionData g))) explosionID); [reflexivity|lia].
Qed.

End CacheClaims.

Section CacheOnTheSmallEngine.
#[local] Existing Instance testEngine.

(** C3: [Reload] with the empty tag hands out the identifiers anew, in the
    order of the tags. ["b"] is loaded before ["a"] and gets 0, ["a"] gets
    1; the reload clears the cache and loads the tags again in the order of
    the map, ["a"] first: afterwards ["a"] has 0 and ["b"] has 1. *)
Theorem Reload_all_renumbers :
  (let* (idB, g1, w1) := Load (H:=testEngine) emptyGenerator twoTables "b" in
   let* (idA, g2, w2) := Load (H:=testEngine) g1 w1 "a" in
   let* (g3, _) := Reload (H:=testEngine) g2 w2 "" in
   Ok (idB, idA, explosionIDs g3 !! "b"%string, explosionIDs g3 !! "a"%string))
  = Ok (0, 1, Some 1, Some 0).
Proof. vm_compute. reflexivity. Qed.

(** C4: a single-tag [Reload] of the tag in the last of several slots keeps
    the old data. ["a"] and ["b"] are cached under 0 and 1, the definition
    of ["b"] is edited (it now asks for the default explosions) and ["b"] is
    reloaded. The recompilation succeeds, yet slot 1 holds the old data
    afterwards: the closing swap overwrites the new entry with the saved old
    one. *)
Theorem Reload_last_slot_keeps_stale_data :
  (let* (g3, _) := Reload (H:=testEngine) twoLoaded twoTablesEdited "b" in
   let* (_, fresh, _) := Load (H:=testEngine) emptyGenerator twoTablesEdited "b" in
   Ok (explosionIDs g3 !! "b"%string,
       useDefaultExplosions <$> explosionData g3 !! 1%nat,
       useDefaultExplosions <$> explosionData fresh !! 0%nat))
  = Ok (Some 1, Some false, Some true).
Proof. vm_compute. reflexivity. Qed.

(** ["b"] has become invalid: the reload changes nothing *)
Lemma Reload_failure_keeps_old_witness :
  cache_ok twoLoaded /\ "b"%string <> ""%string /\
  explosionIDs twoLoaded !! "b"%string = Some 1 /\
  Load (H:=testEngine) (evicted twoLoaded "b" 1) twoTablesBroken "b"
  = Ok (EXPLOSION_ID_INVALID, evicted twoLoaded "b" 1, twoTablesBroken) /\
  Reload (H:=testEngine) twoLoaded twoTablesBroken "b" = Ok (twoLoaded, twoTablesBroken).
Proof.
  assert (Hne : "b"%string <> ""%string) by discriminate.
  assert (Hid : explosionIDs twoLoaded !! "b"%string = Some 1) by reflexivity.
  assert (Hload : Load (H:=testEngine) (evicted twoLoaded "b" 1) twoTablesBroken "b"
                  = Ok (EXPLOSION_ID_INVALID, evicted twoLoaded "b" 1, twoTablesBroken))
    by reflexivity.
  split; [exact cache_ok_twoLoaded|]. split; [exact Hne|]. split; [exact Hid|].
  split; [exact Hload|].
  exact (Reload_failure_keeps_old (H:=testEngine) twoLoaded twoTablesBroken "b" 1 _ _
           cache_ok_twoLoaded Hne Hid Hload).
Defined.

Lemma Explosion_unknown_id_witness :
  Explosion (H:=testEngine) twoLoaded twoTables 2
    (F32.zero, F32.zero, F32.zero) (F32.zero, F32.one, F32.zero)
    F32.one F32.one F32.one 0 false
  = Ok (false, [], twoLoaded, twoTables).
Proof.
  apply (Explosion_unknown_id (H:=testEngine)); [discriminate|discriminate|discriminate|].
  cbn. lia.
Defined.

End CacheOnTheSmallEngine.

(** * Further properties of the code *)

(** ** The compiler appends whole instructions *)

(** whatever the tokenizer returns is the old code followed by scalar
    tokens whose register operands lie between 0 and 16 *)
Lemma tokenize_Ok_tokens script : forall fuel p code code',
  tokenize fuel script p code = Ok code' ->
  exists toks, code' = code ++ flat_map enc toks /\ Forall (scalar_token 16) toks.
Proof.
  induction fuel as [|fuel IH]; intros p code code'; [discriminate|].
  cbn [tokenize].
  destruct (script !! p) as [c|] eqn:Hc.
  2:{ intros [= <-]. exists []. cbn. now rewrite app_nil_r. }
  destruct (Ascii.eqb c " "); [apply IH|].
  destruct (mnemonic c) as [[op useInt]|] eqn:Hm.
  - destruct (List.length script <=? S p)%nat; [apply IH|].
    destruct (operand script (S p) op useInt) as [bs p''] eqn:Hop.
    destruct (operand_token _ _ _ _ _ _ Hop) as (z & -> & Hz & _).
    destruct (p'' <=? p)%nat; [discriminate|].
    intros Htok. apply IH in Htok as (toks & -> & Htoks).
    exists ({| tk_op := op; tk_arg := z |} :: toks). split.
    + cbn [flat_map]. now rewrite <- app_assoc.
    + constructor; [|assumption].
      destruct (mnemonic_ops _ _ _ Hm) as [[-> Hf]|[-> Hr]]; [now left|right].
      split; [assumption|]. cbn [tk_arg]. rewrite (Hz eq_refl).
      unfold register_index. lia.
  - destruct (starts_literal c); [|apply IH].
    destruct (List.length script <=? p)%nat; [apply IH|].
    destruct (operand script p OP_ADD false) as [bs p''] eqn:Hop.
    destruct (operand_token _ _ _ _ _ _ Hop) as (z & -> & _ & _).
    destruct (p'' <=? p)%nat; [discriminate|].
    intros Htok. apply IH in Htok as (toks & -> & Htoks).
    exists ({| tk_op := OP_ADD; tk_arg := z |} :: toks). split.
    + cbn [flat_map]. now rewrite <- app_assoc.
    + constructor; [now left|assumption].
Qed.

Lemma flat_map_enc_encode toks :
  flat_map enc toks = flat_map encode (map instr_of_token toks).
Proof. induction toks as [|t toks IH]; [reflexivity|]. cbn. now rewrite IH. Qed.

Section WholeInstructions.
Context `{Engine}.

Lemma scalar_token_compiled t : scalar_token 16 t -> compiled_instr (instr_of_token t).
Proof.
  intros [Hf|[Hr Hz]].
  - left. split; [assumption|apply le_bytes_length].
  - right. left. split; [assumption|]. eauto.
Qed.

Lemma tokens_compiled toks :
  Forall (scalar_token 16) toks -> Forall compiled_instr (map instr_of_token toks).
Proof. intros Ht. apply Forall_map. eapply Forall_impl; [exact Ht|]. apply scalar_token_compiled. Qed.

Lemma extends_refl st : extends st st.
Proof. exists [], []. cbn. rewrite !app_nil_r. repeat split. constructor. Qed.

Lemma extends_trans st1 st2 st3 : extends st1 st2 -> extends st2 st3 -> extends st1 st3.
Proof.
  intros (ins1 & g1 & Hc1 & Hv1 & Hg1) (ins2 & g2 & Hc2 & Hv2 & Hg2).
  exists (ins1 ++ ins2), (g1 ++ g2). split; [|split].
  - rewrite Hc2, Hc1, flat_map_app. now rewrite <- app_assoc.
  - now apply Forall_app.
  - rewrite Hg2, Hg1. now rewrite <- app_assoc.
Qed.

Lemma extends_emit st i gens w :
  compiled_instr i ->
  extends st {| cs_code := cs_code st ++ encode i;
                cs_spawnExplGens := cs_spawnExplGens st ++ gens; cs_world := w |}.
Proof.
  intros Hi. exists [i], gens. cbn. rewrite app_nil_r. repeat split. now constructor.
Qed.

Lemma offset_instr_compiled op offset :
  is_op offset_ops op = true ->
  compiled_instr {| in_op := op; in_arg := le_bytes 2 (uint16 offset) |}.
Proof. intros Hop. right. right. left. split; [assumption|apply le_bytes_length]. Qed.

Lemma extends_loadStoreP st ptr offset gens w :
  extends st {| cs_code := cs_code st ++ loadStoreP ptr offset;
                cs_spawnExplGens := cs_spawnExplGens st ++ gens; cs_world := w |}.
Proof.
  exists [{| in_op := OP_LOADP; in_arg := le_bytes ptr_size ptr |};
          {| in_op := OP_STOREP; in_arg := le_bytes 2 (uint16 offset) |}], gens.
  split; [|split; [|reflexivity]].
  - cbn [flat_map encode in_op in_arg cs_code]. unfold loadStoreP.
    rewrite app_nil_r. reflexivity.
  - constructor; [|constructor; [|constructor]].
    + right. right. right. split; [reflexivity|apply le_bytes_length].
    + now apply offset_instr_compiled.
Qed.

End WholeInstructions.

Lemma bind_Ok {A B} (r : Res A) (k : A -> Res B) b :
  (let* a := r in k a) = Ok b -> exists a, r = Ok a /\ k a = Ok b.
Proof. destruct r; cbn; try discriminate. eauto. Qed.

Section CompilerAppends.
Context `{Engine}.

Lemma extends_dir st offset :
  extends st (emit st (OP_DIR :: le_bytes 2 (uint16 offset))).
Proof.
  pose proof (extends_emit st {| in_op := OP_DIR; in_arg := le_bytes 2 (uint16 offset) |}
                [] (cs_world st) (offset_instr_compiled OP_DIR offset eq_refl)) as E.
  rewrite app_nil_r in E. exact E.
Qed.

Lemma ParseExplosionCode_extends_all :
  (forall type st offset script st',
      ParseExplosionCode st offset type script = Ok st' -> extends st st')
  /\ (forall c st offset script start st',
        ParseClass st offset c script start = Ok st' -> extends st st')
  /\ (forall ms st offset script start st' start',
        ParseMembers st offset ms script start = Ok (st', start') -> extends st st').
Proof.
  apply schema_mutind.
  - (* BasicType *)
    intros id st offset script st'. cbn [ParseExplosionCode].
    intros Hp. apply bind_Ok in Hp as (vastr & _ & Hp).
    destruct (String.eqb vastr "dir"); [injection Hp as <-; apply extends_dir|].
    destruct (legalType id) eqn:Hlegal; cbn [negb] in Hp; [|discriminate].
    apply bind_Ok in Hp as (code & Htok & Hp). injection Hp as <-.
    apply tokenize_Ok_tokens in Htok as (toks & -> & Htoks).
    exists (map instr_of_token toks
            ++ [{| in_op := store_of id; in_arg := le_bytes 2 (uint16 offset) |}]), [].
    cbn [cs_code cs_spawnExplGens]. rewrite app_nil_r. split; [|split; [|reflexivity]].
    + rewrite flat_map_app, <- flat_map_enc_encode, (storeOp_legal _ Hlegal).
      cbn. now rewrite <- !app_assoc.
    + apply Forall_app. split; [now apply tokens_compiled|].
      constructor; [|constructor]. apply offset_instr_compiled.
      destruct id; try discriminate Hlegal; reflexivity.
  - (* ObjectInstanceType *)
    intros oc IH st offset script st'. cbn [ParseExplosionCode].
    intros Hp. apply bind_Ok in Hp as (vastr & _ & Hp).
    destruct (String.eqb vastr "dir"); [injection Hp as <-; apply extends_dir|].
    eapply IH; eassumption.
  - (* StaticArrayBaseType *)
    intros elemType IH size elemSize st offset script st'. cbn [ParseExplosionCode].
    intros Hp. apply bind_Ok in Hp as (vastr & _ & Hp).
    destruct (String.eqb vastr "dir"); [injection Hp as <-; apply extends_dir|].
    revert Hp. generalize st. generalize 0 at 2. generalize 0. revert st'.
    induction size as [|n IHn]; intros st' i start st0.
    + intros [= <-]. apply extends_refl.
    + intros Hp. apply bind_Ok in Hp as (sub & _ & Hp).
      apply bind_Ok in Hp as (st1 & Helem & Hp).
      apply IH in Helem.
      destruct (strlen script <=? size_type (find script "," (size_type (start + 1)) + 1)).
      * injection Hp as <-. exact Helem.
      * eapply extends_trans; [exact Helem|]. eapply IHn. exact Hp.
  - (* NamedType *)
    intros name st offset script st'. cbn [ParseExplosionCode].
    intros Hp. apply bind_Ok in Hp as (vastr & _ & Hp).
    destruct (String.eqb vastr "dir"); [injection Hp as <-; apply extends_dir|].
    destruct (String.eqb name "AtlasedTexture*").
    { apply bind_Ok in Hp as (texname & _ & Hp). injection Hp as <-.
      pose proof (extends_loadStoreP st (textureAtlas_GetTexture (cs_world st) texname)
                    offset [] (cs_world st)) as E. rewrite app_nil_r in E. exact E. }
    destruct (String.eqb name "GroundFXTexture*").
    { apply bind_Ok in Hp as (texname & _ & Hp). injection Hp as <-.
      pose proof (extends_loadStoreP st (groundFXAtlas_GetTexture (cs_world st) texname)
                    offset [] (cs_world st)) as E. rewrite app_nil_r in E. exact E. }
    destruct (String.eqb name "CColorMap*").
    { apply bind_Ok in Hp as (colorstring & _ & Hp).
      destruct (CColorMap_LoadFromDefString (cs_world st) colorstring) as [colormap w].
      injection Hp as <-.
      pose proof (extends_loadStoreP st colormap offset [] w) as E.
      rewrite app_nil_r in E. exact E. }
    destruct (String.eqb name "IExplosionGenerator*").
    { apply bind_Ok in Hp as (gname & _ & Hp).
      apply bind_Ok in Hp as ([explGen w] & _ & Hp). injection Hp as <-.
      apply extends_loadStoreP. }
    injection Hp as <-. apply extends_refl.
  - (* NullClass *)
    intros st offset script start st'. cbn [ParseClass]. intros [= <-]. apply extends_refl.
  - (* MkClass *)
    intros name binderFlags members IHm base IHc st offset script start st'.
    cbn [ParseClass]. intros Hp.
    apply bind_Ok in Hp as ([st1 start1] & Hms & Hp).
    apply IHm in Hms.
    destruct (strlen script <=? start1); [injection Hp as <-; exact Hms|].
    eapply extends_trans; [exact Hms|]. eapply IHc. exact Hp.
  - (* MNil *)
    intros st offset script start st' start'. cbn [ParseMembers]. intros [= <- _].
    apply extends_refl.
  - (* MCons *)
    intros name moffset mtype IHt mflags rest IHr st offset script start st' start'.
    cbn [ParseMembers]. intros Hp.
    apply bind_Ok in Hp as (sub & _ & Hp).
    apply bind_Ok in Hp as (st1 & Hmem & Hp).
    apply IHt in Hmem.
    destruct (strlen script <=? size_type (find script "," (size_type (start + 1)) + 1)).
    + injection Hp as <- _. exact Hmem.
    + eapply extends_trans; [exact Hmem|]. eapply IHr. exact Hp.
Qed.

(** X1: whatever the type of the field (scalar, object, array, resource
    or none of them), a compilation that succeeds keeps the code it was
    given as a prefix and appends whole instructions only: an opcode with a
    four byte operand (a register operand between 0 and 16), a store or DIR
    with a two byte offset, or LOADP with a pointer. The nested generators
    the generator owns only grow. *)
Theorem ParseExplosionCode_appends_instructions st offset type script st' :
  ParseExplosionCode st offset type script = Ok st' -> extends st st'.
Proof. apply ParseExplosionCode_extends_all. Qed.

End CompilerAppends.

(** ** The interpreter on whole instructions *)

Lemma le_bytes_4_inj v v' :
  0 <= v < 4294967296 -> 0 <= v' < 4294967296 -> le_bytes 4 v = le_bytes 4 v' -> v = v'.
Proof.
  intros Hv Hv' Heq. apply (f_equal le_value) in Heq.
  rewrite !le_value_le_bytes in Heq. change (256 ^ Z.of_nat 4) with 4294967296 in Heq.
  now rewrite !Z.mod_small in Heq by lia.
Qed.

Section InstructionsRun.
Context `{Engine}.
Variables (damage : spec_float) (spawnIndex : Z) (dir : float3).

(** one instruction of the compiler: the interpreter takes exactly its
    bytes off the stream, whatever follows; it appends a store at the
    operand's offset when the instruction is a store and none otherwise;
    the only fault is a register index of 16 *)
Lemma exec_op_compiled i s :
  compiled_instr i ->
  (in_op i =? OP_END) = false /\
  exists r0 : Res ExecState,
    (forall rest,
       exec_op damage spawnIndex dir (in_op i) (in_arg i ++ rest) s
       = let* s' := r0 in Ok (rest, s'))
    /\ ((exists s', r0 = Ok s'
          /\ map st_offset (instance s') = map st_offset (instance s) ++ store_offsets [i])
        \/ (r0 = Undefined "buffer index out of range" /\ ~ register_in_range i)).
Proof.
  destruct i as [op arg]. unfold compiled_instr, store_offsets. cbn [in_op in_arg flat_map].
  intros [[Hop Hlen]|[[Hop (v & Hv & ->)]|[[Hop Hlen]|[-> Hlen]]]].
  - apply is_op_cases in Hop. cbn in Hop.
    unfold exec_op, float_operand.
    repeat (destruct Hop as [<-|Hop];
            [split; [reflexivity|];
             try destruct (RandFloat (world s)) as [rnd w1] eqn:Hrnd;
             eexists (Ok _); split;
             [intros rest; rewrite (operand_bytes_app 4 _ rest Hlen); cbn -[le_value];
              try rewrite Hrnd; reflexivity
             |left; eexists; split; [reflexivity|cbn; now rewrite app_nil_r]]|]).
    destruct Hop.
  - apply is_op_cases in Hop. cbn in Hop.
    unfold exec_op, buffer_at.
    destruct (Z.eq_dec v 16) as [->|Hne].
    + repeat (destruct Hop as [<-|Hop];
              [split; [reflexivity|];
               exists (Undefined "buffer index out of range"); split;
               [intros rest; rewrite (operand_bytes_app 4 _ rest (le_bytes_length 4 16));
                reflexivity
               |right; split; [reflexivity|];
                intros Hr; destruct (Hr eq_refl) as (v' & Hv' & Heq);
                apply le_bytes_4_inj in Heq; lia]|]).
      destruct Hop.
    + assert (Hb : (0 <=? v) && (v <? 16) = true)
        by (apply andb_true_intro; split; [apply Z.leb_le|apply Z.ltb_lt]; lia).
      repeat (destruct Hop as [<-|Hop];
              [split; [reflexivity|];
               eexists (Ok _); split;
               [intros rest; rewrite (operand_bytes_app 4 _ rest (le_bytes_length 4 v));
                cbn -[le_value le_bytes]; rewrite int32_small by lia; rewrite Hb;
                cbn -[le_value le_bytes]; reflexivity
               |left; eexists; split; [reflexivity|cbn; now rewrite app_nil_r]]|]).
      destruct Hop.
  - apply is_op_cases in Hop. cbn in Hop.
    unfold exec_op.
    repeat (destruct Hop as [<-|Hop];
            [split; [reflexivity|];
             eexists (Ok _); split;
             [intros rest; rewrite (operand_bytes_app 2 _ rest Hlen); cbn -[le_value];
              reflexivity
             |left; eexists; split; [reflexivity|cbn -[le_value]; now rewrite map_app]]|]).
    destruct Hop.
  - split; [reflexivity|].
    eexists (Ok _); split.
    + intros rest. unfold exec_op. cbn -[operand_bytes].
      rewrite (operand_bytes_app _ _ rest Hlen). cbn [bind]. reflexivity.
    + left. eexists. split; [reflexivity|]. cbn. now rewrite app_nil_r.
Qed.

Lemma store_offsets_cons i ins :
  store_offsets (i :: ins) = store_offsets [i] ++ store_offsets ins.
Proof. unfold store_offsets. cbn [flat_map]. now rewrite app_nil_r. Qed.

(** a run of compiled instructions in front of any rest of the stream: the
    interpreter works them off one by one and goes on with the rest; it
    makes one store per store instruction, at the offsets these carry, and
    can only fail on a register index of 16 *)
Lemma exec_compiled_instrs ins : forall s,
  Forall compiled_instr ins ->
  exists r0 : Res ExecState,
    (forall rest fuel,
       exec damage spawnIndex dir (List.length ins + fuel) (flat_map encode ins ++ rest) s
       = let* s' := r0 in exec damage spawnIndex dir fuel rest s')
    /\ ((exists s', r0 = Ok s'
          /\ map st_offset (instance s') = map st_offset (instance s) ++ store_offsets ins)
        \/ (r0 = Undefined "buffer index out of range" /\ ~ Forall register_in_range ins)).
Proof.
  induction ins as [|i ins IH]; intros s Hins.
  - exists (Ok s). split; [reflexivity|].
    left. exists s. split; [reflexivity|]. cbn. now rewrite app_nil_r.
  - inversion Hins as [|? ? Hi Hins']; subst.
    destruct (exec_op_compiled i s Hi) as [Hend (r1 & Hop & Hr1)].
    assert (Hstep : forall rest fuel,
      exec damage spawnIndex dir (List.length (i :: ins) + fuel)
        (flat_map encode (i :: ins) ++ rest) s
      = let* s1 := r1 in
        exec damage spawnIndex dir (List.length ins + fuel) (flat_map encode ins ++ rest) s1).
    { intros rest fuel. cbn [List.length Nat.add flat_map exec]. unfold encode at 1.
      rewrite <- app_assoc. cbn [app]. rewrite Hend, Hop.
      destruct r1; reflexivity. }
    destruct Hr1 as [(s1 & -> & Hst1)|[-> Hbad]].
    + destruct (IH s1 Hins') as (r0 & Hr & Hres).
      exists r0. split.
      * intros rest fuel. rewrite Hstep. cbn [bind]. apply Hr.
      * destruct Hres as [(s' & -> & Hst')|[-> Hbad]].
        -- left. exists s'. split; [reflexivity|].
           rewrite Hst', Hst1, (store_offsets_cons i ins). now rewrite <- app_assoc.
        -- right. split; [reflexivity|]. intros Hall. apply Hbad.
           now inversion Hall.
    + exists (Undefined "buffer index out of range"). split.
      * intros rest fuel. now rewrite Hstep.
      * right. split; [reflexivity|]. intros Hall. apply Hbad. now inversion Hall.
Qed.

Lemma encode_length_ge ins : (List.length ins <= List.length (flat_map encode ins))%nat.
Proof.
  induction ins as [|i ins IH]; [reflexivity|].
  cbn [flat_map]. rewrite length_app.
  assert (1 <= List.length (encode i))%nat by (unfold encode; cbn [List.length]; lia).
  cbn [List.length]. lia.
Qed.

End InstructionsRun.

Section Streams.
Context `{Engine}.

(** a stream of whole instructions closed by END runs up to the END, whatever
    follows it *)
Lemma exec_program ins damage inst spawnIndex dir buffer0 w :
  Forall compiled_instr ins ->
  exists r0 : Res ExecState,
    (forall junk,
       ExecuteExplosionCode (flat_map encode ins ++ OP_END :: junk)
         damage inst spawnIndex dir buffer0 w = r0)
    /\ ((exists s', r0 = Ok s'
          /\ map st_offset (instance s') = map st_offset inst ++ store_offsets ins)
        \/ (r0 = Undefined "buffer index out of range" /\ ~ Forall register_in_range ins)).
Proof.
  intros Hins. unfold ExecuteExplosionCode.
  set (s0 := {| val := F32.zero; ptr := 0; buffer := buffer0; instance := inst; world := w |}).
  destruct (exec_compiled_instrs damage spawnIndex dir ins s0 Hins) as (r0 & Hrun & Hres).
  exists r0. split; [|exact Hres].
  intros junk. pose proof (encode_length_ge ins) as Hlen.
  rewrite length_app. cbn [List.length].
  replace (S (List.length (flat_map encode ins) + S (List.length junk)))
    with (List.length ins
          + S (S (List.length (flat_map encode ins) - List.length ins + List.length junk)))%nat
    by lia.
  rewrite Hrun. destruct r0; reflexivity.
Qed.

Lemma run_compiled code damage inst spawnIndex dir buffer0 w :
  compiled_code code ->
  finished_or_buffer_fault (ExecuteExplosionCode code damage inst spawnIndex dir buffer0 w).
Proof.
  intros (ins & -> & Hins).
  destruct (exec_program ins damage inst spawnIndex dir buffer0 w Hins)
    as (r0 & Hrun & [(s' & -> & _)|[-> _]]); rewrite Hrun; [left; eauto|now right].
Qed.

(** X2: on whole instructions closed by END the interpreter never looks
    at what follows the END, and it either returns, having made one store
    per store instruction, in their order and at the offsets their operands
    carry, or it stops at a register instruction whose index is 16, outside
    the buffer. It never reads behind the stream and never fails otherwise. *)
Theorem ExecuteExplosionCode_on_instructions ins damage inst spawnIndex dir buffer0 w :
  Forall compiled_instr ins ->
  (forall junk,
     ExecuteExplosionCode (flat_map encode ins ++ OP_END :: junk)
       damage inst spawnIndex dir buffer0 w
     = ExecuteExplosionCode (flat_map encode ins ++ [OP_END])
         damage inst spawnIndex dir buffer0 w)
  /\ ((exists s',
         ExecuteExplosionCode (flat_map encode ins ++ [OP_END])
           damage inst spawnIndex dir buffer0 w = Ok s'
         /\ map st_offset (instance s') = map st_offset inst ++ store_offsets ins)
      \/ (ExecuteExplosionCode (flat_map encode ins ++ [OP_END])
            damage inst spawnIndex dir buffer0 w
          = Undefined "buffer index out of range"
          /\ ~ Forall register_in_range ins)).
Proof.
  intros Hins.
  destruct (exec_program ins damage inst spawnIndex dir buffer0 w Hins) as (r0 & Hrun & Hres).
  split; [intros junk; now rewrite !Hrun|].
  rewrite Hrun. exact Hres.
Qed.

(** X3: the interpreter has no bound on the stream: without the closing
    END, instructions whose register indices are in range are all run, and
    the next opcode is read behind the end of the stream. *)
Theorem ExecuteExplosionCode_without_end ins damage inst spawnIndex dir buffer0 w :
  Forall compiled_instr ins ->
  Forall register_in_range ins ->
  ExecuteExplosionCode (flat_map encode ins) damage inst spawnIndex dir buffer0 w
  = Undefined "read behind the end of the opcode stream".
Proof.
  intros Hins Hreg. unfold ExecuteExplosionCode.
  set (s0 := {| val := F32.zero; ptr := 0; buffer := buffer0; instance := inst; world := w |}).
  destruct (exec_compiled_instrs damage spawnIndex dir ins s0 Hins) as (r0 & Hrun & Hres).
  pose proof (encode_length_ge ins) as Hlen.
  replace (S (List.length (flat_map encode ins)))
    with (List.length ins + S (List.length (flat_map encode ins) - List.length ins))%nat
    by lia.
  rewrite <- (app_nil_r (flat_map encode ins)) at 2. rewrite Hrun.
  destruct Hres as [(s' & -> & _)|[_ Hbad]]; [reflexivity|contradiction].
Qed.

(** X4: compiler and interpreter fit together for every type of field:
    what [ParseExplosionCode] appends to the empty code, closed by END as
    [Load] does, is run to the END by [ExecuteExplosionCode], unless a
    register index of 16 leaves the buffer. *)
Theorem compiled_program_runs gens w0 offset type script st' damage inst spawnIndex dir buffer0 w :
  ParseExplosionCode {| cs_code := []; cs_spawnExplGens := gens; cs_world := w0 |}
    offset type script = Ok st' ->
  finished_or_buffer_fault
    (ExecuteExplosionCode (cs_code st' ++ [OP_END]) damage inst spawnIndex dir buffer0 w).
Proof.
  intros Hp. apply (proj1 ParseExplosionCode_extends_all) in Hp as (ins & gens' & Hc & Hins & _).
  cbn [cs_code app] in Hc. apply run_compiled. exists ins. rewrite Hc. auto.
Qed.

End Streams.

(** ** Resource fields and refused types *)

Section ResourceFields.
Context `{Engine}.

(** LOADP and STOREP in a row: the pointer, as far as it fits the operand,
    is stored at the offset, and the pointer register is null again *)
Lemma exec_loadStoreP damage spawnIndex dir p offset fuel s :
  exec damage spawnIndex dir (S (S (S fuel))) (loadStoreP p offset ++ [OP_END]) s
  = Ok {| val := val s; ptr := 0; buffer := buffer s;
          instance := instance s ++ [{| st_offset := uint16 offset;
                                        st_value := VPtr (p mod 256 ^ Z.of_nat ptr_size) |}];
          world := world s |}.
Proof.
  unfold loadStoreP. cbn [app exec].
  change (OP_LOADP =? OP_END) with false. cbn match.
  unfold exec_op at 1. cbn -[operand_bytes le_bytes exec].
  rewrite <- app_assoc.
  rewrite (operand_bytes_app ptr_size) by apply le_bytes_length.
  rewrite le_value_le_bytes. cbn [bind app exec].
  change (OP_STOREP =? OP_END) with false. cbn match.
  unfold exec_op. cbn -[operand_bytes le_bytes].
  rewrite (operand_bytes_app 2) by apply le_bytes_length.
  rewrite uint16_le_bytes. reflexivity.
Qed.

(** X5: a field of one of the four resource types that is not given the
    keyword compiles to LOADP and STOREP alone, and running that stores the
    handle the engine delivered, cut to the size of a pointer, at the 16-bit
    offset and leaves the pointer register null; only a nested generator is
    added to the generators the generator owns. *)
Theorem resource_field_stores_handle gens w0 offset name script st'
    damage inst spawnIndex dir buffer0 w :
  is_resource_type name = true ->
  is_dir script = false ->
  ParseExplosionCode {| cs_code := []; cs_spawnExplGens := gens; cs_world := w0 |}
    offset (NamedType name) script = Ok st' ->
  exists p,
    cs_code st' = loadStoreP p offset
    /\ ExecuteExplosionCode (cs_code st' ++ [OP_END]) damage inst spawnIndex dir buffer0 w
       = Ok {| val := F32.zero; ptr := 0; buffer := buffer0;
               instance := inst ++ [{| st_offset := uint16 offset;
                                        st_value := VPtr (p mod 256 ^ Z.of_nat ptr_size) |}];
               world := w |}
    /\ cs_spawnExplGens st'
       = gens ++ (if String.eqb name "IExplosionGenerator*" then [p] else []).
Proof.
  intros Hres Hdir. destruct (vastr_of_ok script) as (v & Hv).
  cbn [ParseExplosionCode]. rewrite Hv. cbn [bind].
  rewrite (is_dir_false _ _ Hdir Hv).
  unfold vastr_of in Hv. rewrite Hv. cbn [bind].
  assert (Hrun : forall p,
    ExecuteExplosionCode (loadStoreP p offset ++ [OP_END]) damage inst spawnIndex dir buffer0 w
    = Ok {| val := F32.zero; ptr := 0; buffer := buffer0;
            instance := inst ++ [{| st_offset := uint16 offset;
                                     st_value := VPtr (p mod 256 ^ Z.of_nat ptr_size) |}];
            world := w |}).
  { intros p. unfold ExecuteExplosionCode.
    assert (Hlen : exists k, S (List.length (loadStoreP p offset ++ [OP_END])) = S (S (S k))).
    { unfold loadStoreP. cbn [List.length app]. rewrite !length_app. cbn [List.length]. eauto. }
    destruct Hlen as (k & ->). apply exec_loadStoreP. }
  unfold is_resource_type in Hres.
  destruct (String.eqb_spec name "AtlasedTexture*") as [->|_].
  { cbv iota. intros [= <-]. eexists. cbn [cs_code cs_spawnExplGens emit app].
    split; [reflexivity|]. split; [apply Hrun|now rewrite app_nil_r]. }
  destruct (String.eqb_spec name "GroundFXTexture*") as [->|_].
  { cbv iota. intros [= <-]. eexists. cbn [cs_code cs_spawnExplGens emit app].
    split; [reflexivity|]. split; [apply Hrun|now rewrite app_nil_r]. }
  destruct (String.eqb_spec name "CColorMap*") as [->|_].
  { cbv iota. cbn [cs_world]. destruct (CColorMap_LoadFromDefString w0 v) as [colormap w1].
    intros [= <-]. eexists. cbn [cs_code cs_spawnExplGens app].
    split; [reflexivity|]. split; [apply Hrun|now rewrite app_nil_r]. }
  destruct (String.eqb name "IExplosionGenerator*"); [|discriminate Hres].
  cbv iota. cbn [cs_world]. intros Hp. apply bind_Ok in Hp as ([explGen w1] & _ & Hp).
  injection Hp as <-. exists explGen. cbn [cs_code cs_spawnExplGens app].
  split; [reflexivity|]. split; [apply Hrun|reflexivity].
Qed.

(** X6: a basic type other than int, float, uchar and bool is refused
    with the content error that quotes the text, whatever the text is,
    unless its part up to the first semicolon is the keyword. *)
Theorem illegal_type_throws st offset id script :
  legalType id = false ->
  is_dir script = false ->
  ParseExplosionCode st offset (BasicType id) script = Throw (content_error_msg script).
Proof.
  intros Hlegal Hdir. destruct (vastr_of_ok script) as (v & Hv).
  cbn [ParseExplosionCode]. rewrite Hv. cbn [bind].
  now rewrite (is_dir_false _ _ Hdir Hv), Hlegal.
Qed.

End ResourceFields.

(** ** The spawn flags *)

(** comparing the other way round gives the opposite answer *)
Lemma SFcompare_antisym x y : SFcompare y x = option_map CompOpp (SFcompare x y).
Proof.
  destruct x as [sx|sx| |sx mx ex], y as [sy|sy| |sy my ey]; cbn;
    try reflexivity; try (destruct sx, sy; reflexivity); try (destruct sx; reflexivity);
    try (destruct sy; reflexivity).
  destruct sx, sy; cbn; try reflexivity;
    rewrite (Z.compare_antisym ex ey); destruct (ex ?= ey); cbn; try reflexivity;
    rewrite (Pos.compare_cont_antisym); cbn; try reflexivity.
  now rewrite CompOpp_involutive.
Qed.

(** a number is above a bound or not above it, unless one is a NaN *)
Lemma fgt_or_fle x c :
  x <> S754_nan -> c <> S754_nan -> SFltb c x = true \/ SFleb x c = true.
Proof.
  intros Hx Hc. unfold SFltb, SFleb. rewrite (SFcompare_antisym x c).
  destruct (SFcompare x c) as [[]|] eqn:E; cbn; auto.
  destruct x, c; try contradiction; cbn in E; try discriminate;
    repeat match type of E with context [if ?b then _ else _] => destruct b end;
    discriminate.
Qed.

Section SpawnFlags.
Context `{Engine}.

(** X7: the flags read from a table are below 64, and bit by bit they
    are the six entries of the table: water, ground, air, underwater, unit
    and nounit from the lowest bit on. *)
Theorem GetFlagsFromTable_bits table :
  0 <= GetFlagsFromTable table < 64
  /\ Z.testbit (GetFlagsFromTable table) 0 = GetBool table "water" false
  /\ Z.testbit (GetFlagsFromTable table) 1 = GetBool table "ground" false
  /\ Z.testbit (GetFlagsFromTable table) 2 = GetBool table "air" false
  /\ Z.testbit (GetFlagsFromTable table) 3 = GetBool table "underwater" false
  /\ Z.testbit (GetFlagsFromTable table) 4 = GetBool table "unit" false
  /\ Z.testbit (GetFlagsFromTable table) 5 = GetBool table "nounit" false.
Proof.
  unfold GetFlagsFromTable.
  destruct (GetBool table "ground" false), (GetBool table "water" false),
    (GetBool table "air" false), (GetBool table "underwater" false),
    (GetBool table "unit" false), (GetBool table "nounit" false);
    unfold SPW_GROUND, SPW_WATER, SPW_AIR, SPW_UNDERWATER, SPW_UNIT, SPW_NO_UNIT;
    cbv zeta; rewrite ?Z.lor_0_l; (split; [split; [discriminate|reflexivity]|]);
    repeat split.
Qed.

Lemma fge_20_fge_m1 a :
  fge a (F32.of_int 20) = true -> fge a (F32.of_int (-1)) = true.
Proof.
  unfold fge, SFleb. destruct a as [s|s| |s m e]; cbn; try discriminate.
  - destruct s; [discriminate|reflexivity].
  - destruct s; [discriminate|reflexivity].
Qed.

(** X8: the height classes exclude each other: the result is one of
    the four flags or nothing, and it is nothing exactly when the altitude
    is not at least -1 or the height is no number. *)
Theorem GetFlagsFromHeight_exclusive height altitude :
  In (GetFlagsFromHeight height altitude)
     [0; SPW_AIR; SPW_GROUND; SPW_WATER; SPW_UNDERWATER]
  /\ (GetFlagsFromHeight height altitude = 0
      <-> fge altitude (F32.of_int (-1)) = false \/ height = S754_nan).
Proof.
  unfold GetFlagsFromHeight.
  pose proof (fge_20_fge_m1 altitude) as H20.
  destruct (fge altitude (F32.of_int 20)) eqn:A20;
    [rewrite (H20 eq_refl)|destruct (fge altitude (F32.of_int (-1))) eqn:A1].
  - (* altitude >= 20 *)
    destruct (fgt height F32.zero) eqn:H0; cbn [andb].
    { split; [cbn; auto|]. split; [discriminate|].
      intros [?| ->]; [discriminate|]. discriminate H0. }
    destruct (fgt height (F32.of_int (-5))) eqn:H5; cbn [andb].
    { split; [cbn; auto|]. split; [discriminate|].
      intros [?| ->]; [discriminate|]. discriminate H5. }
    destruct (fle height (F32.of_int (-5))) eqn:L5; cbn [andb].
    { split; [cbn; auto 6|]. split; [discriminate|].
      intros [?| ->]; [discriminate|]. discriminate L5. }
    split; [cbn; auto|]. split; [|reflexivity]. intros _. right.
    assert (height = S754_nan \/ height <> S754_nan) as [|Hn]
      by (destruct height; auto; right; discriminate); [assumption|exfalso].
    destruct (fgt_or_fle height (F32.of_int (-5)) Hn) as [E|E]; [discriminate| |];
      unfold fgt, fle in *; congruence.
  - (* -1 <= altitude < 20 *)
    rewrite !andb_false_r. cbn [andb].
    destruct (fgt height F32.zero) eqn:H0; cbn [andb].
    { split; [cbn; auto|]. split; [discriminate|].
      intros [?| ->]; [discriminate|]. discriminate H0. }
    destruct (fgt height (F32.of_int (-5))) eqn:H5; cbn [andb].
    { split; [cbn; auto|]. split; [discriminate|].
      intros [?| ->]; [discriminate|]. discriminate H5. }
    destruct (fle height (F32.of_int (-5))) eqn:L5; cbn [andb].
    { split; [cbn; auto 6|]. split; [discriminate|].
      intros [?| ->]; [discriminate|]. discriminate L5. }
    split; [cbn; auto|]. split; [|reflexivity]. intros _. right.
    assert (height = S754_nan \/ height <> S754_nan) as [|Hn]
      by (destruct height; auto; right; discriminate); [assumption|exfalso].
    destruct (fgt_or_fle height (F32.of_int (-5)) Hn) as [E|E]; [discriminate| |];
      unfold fgt, fle in *; congruence.
  - (* altitude below -1, or no number *)
    rewrite !andb_false_r. split; [cbn; auto|]. split; auto.
Qed.

End SpawnFlags.

(** ** The cache holds compiled programs *)

Section CompiledCache.
Context `{Engine}.

Lemma compile_props_extends cls props : forall st st',
  compile_props cls props st = Ok st' -> extends st st'.
Proof.
  induction props as [|[pname script] props IH]; intros st st'; cbn [compile_props].
  - intros [= <-]. apply extends_refl.
  - destruct (FindMember cls pname) as [[[moffset mtype] mflags]|]; [|apply IH].
    destruct (negb (Z.land mflags CM_Config =? 0)); [|apply IH].
    intros Hp. apply bind_Ok in Hp as (st1 & Hp1 & Hp2).
    eapply extends_trans; [|apply IH; exact Hp2].
    apply (proj1 ParseExplosionCode_extends_all _ _ _ _ _ Hp1).
Qed.

Lemma compile_spawns_compiled expTable spawns : forall acc gens w acc' gens' w',
  compile_spawns expTable spawns acc gens w = Ok (acc', gens', w') ->
  compiled_spawns acc ->
  compiled_spawns acc' /\ exists more, gens' = gens ++ more.
Proof.
  induction spawns as [|spawnName spawns IH]; intros acc gens w acc' gens' w';
    cbn [compile_spawns].
  - intros [= <- <- <-] Hacc. split; [assumption|]. exists []. now rewrite app_nil_r.
  - destruct (negb (IsValid (SubTable expTable spawnName)) || String.eqb spawnName "groundflash");
      [apply IH|].
    intros Hp. apply bind_Ok in Hp as (cls & _ & Hp).
    destruct cls as [|cname binderFlags members base]; [discriminate|].
    destruct (negb (Z.land binderFlags CF_Synced =? 0)); [revert Hp; apply IH|].
    apply bind_Ok in Hp as (st & Hprops & Hp).
    intros Hacc.
    apply compile_props_extends in Hprops as (ins & more & Hcode & Hins & Hgens).
    cbn [cs_code cs_spawnExplGens app] in Hcode, Hgens.
    apply IH in Hp as [Hacc' (more' & ->)].
    + split; [assumption|]. rewrite Hgens, <- app_assoc. eauto.
    + apply Forall_app. split; [assumption|].
      constructor; [|constructor]. cbn [code]. exists ins. rewrite Hcode. auto.
Qed.

Lemma compile_spawns_unsynced expTable spawns : forall acc gens w acc' gens' w',
  compile_spawns expTable spawns acc gens w = Ok (acc', gens', w') ->
  unsynced_spawns acc -> unsynced_spawns acc'.
Proof.
  induction spawns as [|spawnName spawns IH]; intros acc gens w acc' gens' w';
    cbn [compile_spawns].
  - now intros [= <- <- <-].
  - destruct (negb (IsValid (SubTable expTable spawnName)) || String.eqb spawnName "groundflash");
      [apply IH|].
    intros Hp. apply bind_Ok in Hp as (cls & _ & Hp).
    destruct cls as [|cname binderFlags members base]; [discriminate|].
    destruct (Z.eqb_spec (Z.land binderFlags CF_Synced) 0) as [Hun|]; cbn [negb] in Hp;
      [|revert Hp; apply IH].
    apply bind_Ok in Hp as (st & _ & Hp). intros Hacc.
    apply IH in Hp; [exact Hp|].
    apply Forall_app. split; [exact Hacc|]. constructor; [exact Hun|constructor].
Qed.

Lemma data_at_In (data : list CEGData) i d : data_at data i = Ok d -> In d data.
Proof.
  unfold data_at. destruct (data !! Z.to_nat i) as [d'|] eqn:E; [|discriminate].
  destruct (0 <=? i); [|discriminate]. intros [= <-].
  apply list_elem_of_In. eapply list_elem_of_lookup_2; eassumption.
Qed.

Lemma data_at_compiled g i d :
  cache_compiled g -> data_at (explosionData g) i = Ok d -> compiled_spawns (projectileSpawn d).
Proof.
  intros Hg Hd. apply data_at_In in Hd.
  unfold cache_compiled in Hg. rewrite List.Forall_forall in Hg. auto.
Qed.

Lemma spawn_instances_runs psi damage pos dir owner n : forall c out w,
  compiled_code (code psi) ->
  unsynced (projectileClass psi) ->
  finished_or_buffer_fault (spawn_instances psi damage pos dir owner n c out w).
Proof.
  induction n as [|n IH]; intros c out w Hpsi Hcls; cbn [spawn_instances].
  - left. eauto.
  - destruct (projectileClass psi) as [|cname binderFlags members base] eqn:Hclass;
      [contradiction|].
    destruct (run_compiled (code psi) damage [] c dir (stack_garbage w) w Hpsi)
      as [(s & ->)| ->]; cbn [bind]; [|now right].
    rewrite <- ?Hclass. apply IH; [assumption|].
    first [assumption | now rewrite Hclass].
Qed.

Lemma spawn_all_runs spawnInfo expFlags damage pos dir owner : forall out w,
  compiled_spawns spawnInfo ->
  unsynced_spawns spawnInfo ->
  finished_or_buffer_fault (spawn_all spawnInfo expFlags damage pos dir owner out w).
Proof.
  induction spawnInfo as [|psi rest IH]; intros out w Hs Hu; cbn [spawn_all].
  - left. eauto.
  - apply Forall_cons in Hs as [Hpsi Hrest]. apply Forall_cons in Hu as [Hcls Hurest].
    destruct (Z.land (flags psi) expFlags =? 0); [now apply IH|].
    destruct (fgt (particleSaturation w) F32.one); [now apply IH|].
    destruct (spawn_instances_runs psi damage pos dir owner (Z.to_nat (count psi)) 0 out w
                Hpsi Hcls)
      as [([out' w'] & ->)| ->]; cbn [bind]; [now apply IH|now right].
Qed.

(** X9: on a cache whose programs are whole instructions closed by END and
    whose spawn entries have a class that is there and is not synced, which
    is what [Load] and [Reload] leave, [Explosion] returns for every
    identifier, unless a program uses the register index 16: no program runs
    off its stream, no null class is instantiated and no slot outside the
    vector is read. *)
Theorem Explosion_of_compiled_cache g w explosionID pos dir damage radius gfxMod owner hit :
  cache_compiled g ->
  cache_unsynced g ->
  0 <= explosionID ->
  finished_or_buffer_fault
    (Explosion g w explosionID pos dir damage radius gfxMod owner hit).
Proof.
  intros Hg Hu Hid. unfold Explosion.
  destruct (explosionID =? EXPLOSION_ID_STANDARD).
  { destruct (StdExplosion _ _ _ _ _ _ _ _ _). left. eauto. }
  destruct (explosionID =? EXPLOSION_ID_INVALID); [left; eauto|].
  set (id := if explosionID =? EXPLOSION_ID_SPAWNER then _ else _).
  assert (Hid' : 0 <= id).
  { subst id. destruct (explosionID =? EXPLOSION_ID_SPAWNER); [|assumption].
    unfold uint32. apply Z.mod_pos_bound. lia. }
  destruct (Z.leb_spec (Z.of_nat (List.length (explosionData g))) id) as [|Hlt];
    [left; eauto|].
  destruct pos as [[pos_x pos_y] pos_z].
  destruct (lookup_lt_is_Some_2 (explosionData g) (Z.to_nat id)) as (d & Hd); [lia|].
  rewrite (data_at_Some _ _ _ Hid' Hd). cbn [bind].
  assert (Hspawns : compiled_spawns (projectileSpawn d))
    by (eapply data_at_compiled; [exact Hg|apply (data_at_Some _ _ _ Hid' Hd)]).
  assert (Hclasses : unsynced_spawns (projectileSpawn d)).
  { pose proof (data_at_In _ _ _ (data_at_Some _ _ _ Hid' Hd)) as Hin.
    unfold cache_unsynced in Hu. rewrite List.Forall_forall in Hu. now apply Hu. }
  match goal with |- context [spawn_all ?a ?b ?c ?d ?e ?f ?g ?h] =>
    destruct (spawn_all_runs a b c d e f g h Hspawns Hclasses) as [([out w'] & ->)| ->]
  end; cbn [bind]; [|now right].
  destruct (useDefaultExplosions d); [|left; eauto].
  destruct (StdExplosion _ _ _ _ _ _ _ _ _). left. eauto.
Qed.

End CompiledCache.

(** ** [Load] *)

Section LoadFacts.
Context `{Engine}.

(** the two ways [Load] ends: nothing changes, or one entry is appended *)
Lemma Load_cases g w tag id g' w' :
  Load g w tag = Ok (id, g', w') ->
  (g' = g /\ w' = w /\ (explosionIDs g !! tag = Some id
                        \/ (explosionIDs g !! tag = None /\ id = EXPLOSION_ID_INVALID)))
  \/ (explosionIDs g !! tag = None
      /\ id = uint32 (Z.of_nat (List.length (explosionData g)))
      /\ exists newCEG more,
          compiled_spawns (projectileSpawn newCEG)
          /\ g' = {| explosionIDs := <[tag := id]> (explosionIDs g);
                     explosionData := explosionData g ++ [newCEG];
                     spawnExplGens := spawnExplGens g ++ more |}).
Proof.
  unfold Load.
  destruct (explosionIDs g !! tag) as [i|] eqn:Hl; [intros [= <- <- <-]; left; auto|].
  destruct (GetExplosionTableRoot w) as [root|]; [|intros [= <- <- <-]; left; auto].
  destruct (IsValid (SubTable root tag)); cbn [negb]; [|intros [= <- <- <-]; left; auto].
  intros Hp. apply bind_Ok in Hp as ([[spawns gens] w1] & Hs & Hp).
  injection Hp as <- <- <-. right.
  apply compile_spawns_compiled in Hs as [Hs (more & ->)]; [|constructor].
  rewrite length_app. cbn [List.length].
  replace (Z.of_nat (List.length (explosionData g) + 1) - 1)
    with (Z.of_nat (List.length (explosionData g))) by lia.
  split; [reflexivity|]. split; [reflexivity|].
  eexists _, more. split; [|reflexivity]. exact Hs.
Qed.

(** X10: once [Load] has handed out an identifier for a tag, every later
    [Load] of the tag returns that identifier and changes nothing, whatever
    the definition tables have become. *)
Theorem Load_twice g w tag id g' w' :
  Load g w tag = Ok (id, g', w') ->
  id <> EXPLOSION_ID_INVALID ->
  forall w'', Load g' w'' tag = Ok (id, g', w'').
Proof.
  intros Hl Hid w''.
  apply Load_cases in Hl as [(-> & -> & [Hhit|[_ ->]])|(_ & _ & c & more & _ & ->)].
  - unfold Load. now rewrite Hhit.
  - contradiction.
  - unfold Load. cbn [explosionIDs]. now rewrite lookup_insert_eq.
Qed.

(** X11: [Load] only adds: the identifiers of the other tags, the data
    already cached and the nested generators already owned are all kept. *)
Theorem Load_keeps_the_rest g w tag id g' w' :
  Load g w tag = Ok (id, g', w') ->
  explosionIDs g ⊆ explosionIDs g'
  /\ (forall tag', tag' <> tag -> explosionIDs g' !! tag' = explosionIDs g !! tag')
  /\ explosionData g `prefix_of` explosionData g'
  /\ spawnExplGens g `prefix_of` spawnExplGens g'.
Proof.
  intros Hl.
  apply Load_cases in Hl as [(-> & -> & _)|(Hnone & _ & c & more & _ & ->)].
  - repeat split; reflexivity || auto.
  - cbn [explosionIDs explosionData spawnExplGens]. repeat split.
    + now apply insert_subseteq.
    + intros tag' Hne. now apply lookup_insert_ne.
    + now exists [c].
    + now exists more.
Qed.

Lemma Load_dense g w tag id g' w' :
  cache_dense g ->
  Z.of_nat (List.length (explosionData g)) + 1 < 4294967295 ->
  Load g w tag = Ok (id, g', w') ->
  cache_dense g'.
Proof.
  intros (Hok & Hinj & Hsize) Hroom Hl.
  split; [eapply Load_keeps_cache_ok; eassumption|].
  apply Load_cases in Hl as [(-> & -> & _)|(Hnone & -> & c & more & _ & ->)]; [auto|].
  cbn [explosionIDs explosionData]. destruct Hok as [Hidx _].
  unfold uint32. rewrite Z.mod_small by lia. split.
  - intros t1 t2 id. rewrite !lookup_insert.
    repeat case_decide; subst; try congruence.
    + intros [= <-] Ht2. apply Hidx in Ht2. lia.
    + intros Ht1 [= <-]. apply Hidx in Ht1. lia.
    + apply Hinj.
  - rewrite map_size_insert_None by assumption. rewrite length_app. cbn. lia.
Qed.

Lemma Load_compiled g w tag id g' w' :
  cache_compiled g -> Load g w tag = Ok (id, g', w') -> cache_compiled g'.
Proof.
  intros Hg Hl.
  apply Load_cases in Hl as [(-> & _)|(_ & _ & c & more & Hc & ->)]; [assumption|].
  unfold cache_compiled. cbn [explosionData]. apply Forall_app. split; [exact Hg|].
  constructor; [exact Hc|constructor].
Qed.

Lemma Load_unsynced g w tag id g' w' :
  cache_unsynced g -> Load g w tag = Ok (id, g', w') -> cache_unsynced g'.
Proof.
  intros Hg. unfold Load.
  destruct (explosionIDs g !! tag) as [i|]; [now intros [= <- <- <-]|].
  destruct (GetExplosionTableRoot w) as [root|]; [|now intros [= <- <- <-]].
  destruct (IsValid (SubTable root tag)); cbn [negb]; [|now intros [= <- <- <-]].
  intros Hp. apply bind_Ok in Hp as ([[spawns gens] w1] & Hs & Hp).
  injection Hp as <- <- <-.
  apply compile_spawns_unsynced in Hs; [|constructor].
  unfold cache_unsynced. cbn [explosionData]. apply Forall_app. split; [exact Hg|].
  constructor; [exact Hs|constructor].
Qed.

(** X12: [Load] keeps the cache well formed: tags and slots of the vector
    correspond one to one, every cached program is whole instructions
    closed by END, and no cached entry spawns a synced class. *)
Theorem Load_keeps_invariants g w tag id g' w' :
  cache_dense g ->
  cache_compiled g ->
  cache_unsynced g ->
  Z.of_nat (List.length (explosionData g)) + 1 < 4294967295 ->
  Load g w tag = Ok (id, g', w') ->
  cache_dense g' /\ cache_compiled g' /\ cache_unsynced g'.
Proof.
  intros Hd Hc Hu Hroom Hl.
  split; [eapply Load_dense|split; [eapply Load_compiled|eapply Load_unsynced]]; eassumption.
Qed.

End LoadFacts.

(** ** [Reload] *)

Lemma Forall_removelast {A} (P : A -> Prop) (l : list A) :
  Forall P l -> Forall P (removelast l).
Proof. rewrite removelast_firstn_len. apply Forall_take. Qed.

Section ReloadFacts.
Context `{Engine}.

Lemma data_at_Forall (P : CEGData -> Prop) data i d :
  Forall P data -> data_at data i = Ok d -> P d.
Proof.
  intros Hall Hd. apply data_at_In in Hd. rewrite List.Forall_forall in Hall. auto.
Qed.

(** a property of the cached entries that [Load] keeps is kept by [Reload] *)
Section ReloadKeeps.
Variable Q : CEGData -> Prop.
Hypothesis Load_keeps : forall g w tag id g' w',
  Forall Q (explosionData g) -> Load g w tag = Ok (id, g', w') ->
  Forall Q (explosionData g').

Lemma reload_all_keeps tags : forall g w g' w',
  Forall Q (explosionData g) -> reload_all tags g w = Ok (g', w') ->
  Forall Q (explosionData g').
Proof.
  induction tags as [|[tmpTag i] tags IH]; intros g w g' w' Hg; cbn [reload_all].
  - now intros [= <- <-].
  - intros Hr. apply bind_Ok in Hr as ([[id g1] w1] & Hl & Hr).
    eapply IH; [|exact Hr]. eapply Load_keeps; eassumption.
Qed.

Lemma Reload_keeps g w tag g' w' :
  Forall Q (explosionData g) ->
  Reload g w tag = Ok (g', w') ->
  Forall Q (explosionData g').
Proof.
  intros Hg. unfold Reload.
  destruct (String.eqb tag "").
  { apply reload_all_keeps. constructor. }
  destruct (explosionIDs g !! tag) as [cegIndex|]; [|now intros [= <- <-]].
  intros Hr.
  apply bind_Ok in Hr as (oldCEG & Hold & Hr).
  apply bind_Ok in Hr as (tmpCEG & Htmp & Hr).
  apply bind_Ok in Hr as ([[id g3] w3] & Hl & Hr).
  pose proof (data_at_Forall _ _ _ _ Hg Hold) as Pold.
  pose proof (data_at_Forall _ _ _ _ Hg Htmp) as Ptmp.
  apply Load_keeps in Hl.
  2:{ unfold with_data. cbn [explosionData].
      apply Forall_removelast. apply Forall_insert; assumption. }
  destruct (id =? EXPLOSION_ID_INVALID).
  - apply bind_Ok in Hr as (x & _ & Hr). injection Hr as <- <-.
    cbn [with_data explosionData]. apply Forall_insert; [|assumption].
    apply Forall_app. split; [assumption|]. constructor; [assumption|constructor].
  - destruct (1 <? _).
    + apply bind_Ok in Hr as (newCEG & Hnew & Hr).
      apply bind_Ok in Hr as (x & _ & Hr). injection Hr as <- <-.
      cbn [with_data explosionData].
      apply Forall_insert; [|assumption]. apply Forall_insert; [assumption|].
      exact (data_at_Forall _ _ _ _ Hl Hnew).
    + injection Hr as <- <-. exact Hl.
Qed.

End ReloadKeeps.

(** X13: [Reload], with one tag or with the empty tag, leaves a cache
    whose programs are all whole instructions closed by END and whose
    entries spawn no synced class. *)
Theorem Reload_keeps_programs g w tag g' w' :
  cache_compiled g ->
  cache_unsynced g ->
  Reload g w tag = Ok (g', w') ->
  cache_compiled g' /\ cache_unsynced g'.
Proof.
  intros Hc Hu Hr. split.
  - apply (Reload_keeps _ Load_compiled g w tag g' w' Hc Hr).
  - apply (Reload_keeps _ Load_unsynced g w tag g' w' Hu Hr).
Qed.

(** a single-tag [Reload] that returns has gone through the inner [Load] *)
Lemma Reload_single_Load g w tag cegIndex r :
  cache_ok g ->
  tag <> ""%string ->
  explosionIDs g !! tag = Some cegIndex ->
  Reload g w tag = Ok r ->
  exists id g3 w3, Load (evicted g tag cegIndex) w tag = Ok (id, g3, w3).
Proof.
  intros [Hidx Hsize] Htag Hid.
  destruct (Hidx _ _ Hid) as [Hlo Hhi].
  destruct (lookup_lt_is_Some_2 (explosionData g) (Z.to_nat cegIndex)) as (oldCEG & Hold); [lia|].
  destruct (last (explosionData g)) as [tmpCEG|] eqn:Hlast.
  2:{ apply last_None in Hlast. rewrite Hlast in Hold. discriminate. }
  assert (Htmp : explosionData g !! Z.to_nat (Z.of_nat (List.length (explosionData g)) - 1)
                 = Some tmpCEG).
  { rewrite last_lookup in Hlast. rewrite <- Hlast. f_equal. lia. }
  unfold evicted. rewrite Hlast.
  unfold Reload.
  destruct (String.eqb_spec tag ""); [contradiction|].
  rewrite Hid.
  unfold uint32 at 1 2. rewrite (Z.mod_small (Z.of_nat _)) by lia.
  rewrite (Z.mod_small (_ - 1)) by lia.
  rewrite (data_at_Some _ _ _ Hlo Hold). cbn [bind].
  assert (Hn1 : 0 <= Z.of_nat (List.length (explosionData g)) - 1) by lia.
  rewrite (data_at_Some _ _ _ Hn1 Htmp). cbn [bind].
  unfold with_data at 1.
  destruct (Load _ w tag) as [[[id g3] w3]| | | |]; cbn [bind]; try discriminate.
  eauto.
Qed.

(** the inner [Load] has found no definition: everything is put back *)
Lemma Reload_single_invalid g w tag cegIndex g' w' :
  cache_ok g ->
  tag <> ""%string ->
  explosionIDs g !! tag = Some cegIndex ->
  Load (evicted g tag cegIndex) w tag = Ok (EXPLOSION_ID_INVALID, g', w') ->
  Reload g w tag = Ok (g, w).
Proof.
  intros [Hidx Hsize] Htag Hid Hload.
  destruct (Hidx _ _ Hid) as [Hlo Hhi].
  destruct (lookup_lt_is_Some_2 (explosionData g) (Z.to_nat cegIndex)) as (oldCEG & Hold); [lia|].
  destruct (last (explosionData g)) as [tmpCEG|] eqn:Hlast.
  2:{ apply last_None in Hlast. rewrite Hlast in Hold. discriminate. }
  assert (Htmp : explosionData g !! Z.to_nat (Z.of_nat (List.length (explosionData g)) - 1)
                 = Some tmpCEG).
  { rewrite last_lookup in Hlast. rewrite <- Hlast. f_equal. lia. }
  unfold evicted in Hload. rewrite Hlast in Hload.
  unfold Reload.
  destruct (String.eqb_spec tag ""); [contradiction|].
  rewrite Hid.
  unfold uint32 at 1 2. rewrite (Z.mod_small (Z.of_nat _)) by lia.
  rewrite (Z.mod_small (_ - 1)) by lia.
  rewrite (data_at_Some _ _ _ Hlo Hold). cbn [bind].
  assert (Hn1 : 0 <= Z.of_nat (List.length (explosionData g)) - 1) by lia.
  rewrite (data_at_Some _ _ _ Hn1 Htmp). cbn [bind].
  unfold with_data at 1. rewrite Hload. cbn [bind].
  apply Load_invalid_unchanged in Hload as [-> ->]; cbn [explosionIDs explosionData].
  2:{ apply lookup_delete_eq. }
  2:{ rewrite removelast_length, length_insert. lia. }
  rewrite Z.eqb_refl. cbn [explosionIDs explosionData spawnExplGens with_data].
  rewrite data_at_Some with (d := tmpCEG); [cbn [bind]|lia|].
  2:{ eapply swap_pop_push_lookup; eassumption. }
  rewrite (swap_pop_push_restore _ _ oldCEG tmpCEG) by assumption.
  rewrite insert_delete_eq, insert_id by assumption.
  destruct g; reflexivity.
Qed.

(** X14: a single-tag [Reload] that returns keeps every identifier, the
    size of the vector and every slot but the tag's own; the nested
    generators owned before are still owned (none is unloaded), and for a tag
    that is not cached nothing changes at all. *)
Theorem Reload_single_frame g w tag g' w' :
  cache_ok g ->
  tag <> ""%string ->
  Reload g w tag = Ok (g', w') ->
  explosionIDs g' = explosionIDs g
  /\ List.length (explosionData g') = List.length (explosionData g)
  /\ (forall i : nat, explosionIDs g !! tag <> Some (Z.of_nat i) ->
        explosionData g' !! i = explosionData g !! i)
  /\ spawnExplGens g `prefix_of` spawnExplGens g'
  /\ (explosionIDs g !! tag = None -> g' = g /\ w' = w).
Proof.
  intros Hok Htag Hr.
  destruct (explosionIDs g !! tag) as [cegIndex|] eqn:Hid.
  2:{ unfold Reload in Hr. destruct (String.eqb_spec tag ""); [contradiction|].
      rewrite Hid in Hr. injection Hr as <- <-. repeat split; reflexivity || auto. }
  destruct (Reload_single_Load g w tag cegIndex _ Hok Htag Hid Hr) as (id & g3 & w3 & Hl).
  destruct (Z.eq_dec id EXPLOSION_ID_INVALID) as [->|Hvalid].
  - rewrite (Reload_single_invalid g w tag cegIndex g3 w3 Hok Htag Hid Hl) in Hr.
    injection Hr as <- <-. repeat split; first [reflexivity|discriminate|auto].
  - destruct (Reload_single_success g w tag cegIndex id g3 w3 Hok Htag Hid Hl Hvalid)
      as (newCEG & _ & Hr').
    rewrite Hr' in Hr. injection Hr as <- <-. cbn [explosionIDs explosionData spawnExplGens].
    split; [reflexivity|]. split; [|split; [|split; [|discriminate]]].
    + destruct (_ && _); [reflexivity|apply length_insert].
    + intros i Hi. destruct (_ && _); [reflexivity|].
      apply list_lookup_insert_ne. intros E. apply Hi. f_equal.
      destruct Hok as [Hidx _]. apply Hidx in Hid. lia.
    + apply Load_cases in Hl as [(-> & _)|(_ & _ & c & more & _ & ->)].
      * unfold evicted. destruct (last _); reflexivity.
      * cbn [spawnExplGens]. unfold evicted. destruct (last _); now exists more.
Qed.

End ReloadFacts.

(** the order of [std::string] *)
Lemma Ascii_compare_refl c : Ascii.compare c c = Eq.
Proof. unfold Ascii.compare. apply N.compare_refl. Qed.

Lemma String_compare_refl s : String.compare s s = Eq.
Proof. induction s as [|c s IH]; cbn; [reflexivity|]. now rewrite Ascii_compare_refl. Qed.

Lemma String_leb_trans s1 : forall s2 s3,
  String.leb s1 s2 = true -> String.leb s2 s3 = true -> String.leb s1 s3 = true.
Proof.
  unfold String.leb.
  induction s1 as [|c1 s1 IH]; intros [|c2 s2] [|c3 s3]; cbn; try congruence.
  destruct (Ascii.compare c1 c2) eqn:E12; try discriminate;
    destruct (Ascii.compare c2 c3) eqn:E23; try discriminate.
  - apply Ascii.compare_eq_iff in E12 as ->. apply Ascii.compare_eq_iff in E23 as ->.
    rewrite Ascii_compare_refl. apply IH.
  - apply Ascii.compare_eq_iff in E12 as ->. now rewrite E23.
  - apply Ascii.compare_eq_iff in E23 as <-. now rewrite E12.
  - unfold Ascii.compare in *. rewrite N.compare_lt_iff in E12, E23.
    assert (E : (N_of_ascii c1 ?= N_of_ascii c3)%N = Lt)
      by (apply N.compare_lt_iff; lia).
    now rewrite E.
Qed.

Lemma String_leb_ne_ltb s1 s2 :
  String.leb s1 s2 = true -> s1 <> s2 -> String.ltb s1 s2 = true.
Proof.
  unfold String.leb, String.ltb. destruct (String.compare s1 s2) eqn:E; try congruence.
  apply String.compare_eq_iff in E. contradiction.
Qed.

Lemma String_ltb_asym s1 s2 :
  String.ltb s1 s2 = true -> String.ltb s2 s1 = true -> False.
Proof.
  unfold String.ltb. rewrite (String.compare_antisym s1 s2).
  destruct (String.compare s2 s1); cbn; discriminate.
Qed.

Lemma String_ltb_irrefl s : String.ltb s s = false.
Proof. unfold String.ltb. now rewrite String_compare_refl. Qed.

#[local] Instance key_le_trans : Transitive key_le.
Proof. intros a b c. unfold key_le. apply String_leb_trans. Qed.

#[local] Instance key_le_total : Total key_le.
Proof. intros a b. unfold key_le. apply String.leb_total. Qed.

(** [std::map] iteration: every entry once, in strictly increasing key order *)
Lemma in_key_order_spec (m : gmap string Z) :
  StronglySorted key_le (in_key_order m)
  /\ NoDup (in_key_order m).*1
  /\ List.length (in_key_order m) = size m
  /\ (forall t i, (t, i) ∈ in_key_order m <-> m !! t = Some i).
Proof.
  unfold in_key_order.
  pose proof (merge_sort_Permutation key_le (map_to_list m)) as Hp.
  split; [apply StronglySorted_merge_sort; apply _|].
  split; [rewrite Hp; apply NoDup_fst_map_to_list|].
  split; [rewrite Hp; apply length_map_to_list|].
  intros t i. rewrite Hp. apply elem_of_map_to_list.
Qed.

Section ReloadAll.
Context `{Engine}.

Lemma reload_all_ordered tags : forall g w g' w',
  StronglySorted key_le tags -> NoDup tags.*1 ->
  cache_dense g -> ids_in_key_order g ->
  (forall t id p, explosionIDs g !! t = Some id -> p ∈ tags -> String.ltb t p.1 = true) ->
  Z.of_nat (List.length (explosionData g)) + Z.of_nat (List.length tags) < 4294967295 ->
  reload_all tags g w = Ok (g', w') ->
  cache_dense g' /\ ids_in_key_order g'
  /\ (forall t, is_Some (explosionIDs g' !! t) ->
                is_Some (explosionIDs g !! t) \/ t ∈ tags.*1).
Proof.
  induction tags as [|[t i] tags IH]; intros g w g' w' Hsorted Hnodup Hdense Hord Hbelow Hroom;
    cbn [reload_all].
  - intros [= <- <-]. auto.
  - intros Hr. apply bind_Ok in Hr as ([[id g1] w1] & Hl & Hr).
    apply StronglySorted_inv in Hsorted as [Hsorted Hhead].
    cbn [fmap list_fmap fst] in Hnodup. apply NoDup_cons in Hnodup as [Hnotin Hnodup].
    cbn [List.length] in Hroom.
    assert (Hdense1 : cache_dense g1) by (eapply Load_dense; [exact Hdense|lia|exact Hl]).
    assert (Hhead' : forall p, p ∈ tags -> String.ltb t p.1 = true).
    { intros p Hp. apply String_leb_ne_ltb.
      - rewrite List.Forall_forall in Hhead. apply (Hhead p). now apply list_elem_of_In.
      - intros ->. apply Hnotin. now apply list_elem_of_fmap_2. }
    apply Load_cases in Hl as [(-> & -> & _)|(Hnone & -> & c & more & _ & ->)].
    + apply IH in Hr as (Hd & Ho & Hdom); auto.
      * split; [exact Hd|]. split; [exact Ho|].
        intros x Hx. destruct (Hdom x Hx) as [?|?]; [now left|right].
        cbn. now right.
      * intros x idx p Hx Hp. apply (Hbelow x idx p Hx). now right.
      * lia.
    + destruct Hdense as ([Hidx Hsize] & _ & _).
      assert (Hid : uint32 (Z.of_nat (List.length (explosionData g)))
                    = Z.of_nat (List.length (explosionData g)))
        by (unfold uint32; apply Z.mod_small; lia).
      rewrite Hid in *.
      apply IH in Hr as (Hd & Ho & Hdom); auto.
      * split; [exact Hd|]. split; [exact Ho|].
        intros x Hx. destruct (Hdom x Hx) as [Hx'|?]; [|right; cbn; now right].
        cbn [explosionIDs] in Hx'. rewrite lookup_insert in Hx'. case_decide as E.
        -- right. rewrite <- E. cbn. now left.
        -- now left.
      * intros t1 t2 id1 id2. cbn [explosionIDs]. rewrite !lookup_insert.
        destruct (decide (t = t1)) as [<-|E1], (decide (t = t2)) as [<-|E2].
        -- intros _ _ Hlt. now rewrite String_ltb_irrefl in Hlt.
        -- intros _ Ht2 Hlt. exfalso. apply (String_ltb_asym _ _ Hlt).
           apply (Hbelow t2 id2 (t, i) Ht2). now left.
        -- intros Ht1 [= <-] _. apply Hidx in Ht1. lia.
        -- apply Hord.
      * intros x idx p. cbn [explosionIDs]. rewrite lookup_insert.
        destruct (decide (t = x)) as [<-|E].
        -- intros _ Hp. now apply Hhead'.
        -- intros Hx Hp. apply (Hbelow x idx p Hx). now right.
      * cbn [explosionData]. rewrite length_app. cbn [List.length]. lia.
Qed.

(** X15: after [Reload] with the empty tag the tags are a part of the
    tags cached before, tags and slots correspond one to one, and the
    identifiers follow the order of the tags, whatever order the tags were
    first loaded in. *)
Theorem Reload_all_in_key_order g w g' w' :
  Z.of_nat (size (explosionIDs g)) < 4294967295 ->
  Reload g w "" = Ok (g', w') ->
  cache_dense g' /\ ids_in_key_order g'
  /\ (forall t, is_Some (explosionIDs g' !! t) -> is_Some (explosionIDs g !! t)).
Proof.
  intros Hroom. unfold Reload. cbn [String.eqb].
  destruct (in_key_order_spec (explosionIDs g)) as (Hsorted & Hnodup & Hlen & Hin).
  intros Hr. apply reload_all_ordered in Hr as (Hd & Ho & Hdom); auto.
  - split; [exact Hd|]. split; [exact Ho|].
    intros t Ht. destruct (Hdom t Ht) as [[x Hx]|Hx].
    + cbn in Hx. now rewrite lookup_empty in Hx.
    + apply list_elem_of_fmap in Hx as ([t' i] & -> & Hx). apply Hin in Hx. eauto.
  - split; [split|split]; cbn.
    + intros t id. now rewrite lookup_empty.
    + lia.
    + intros t1 t2 id. now rewrite lookup_empty.
    + reflexivity.
  - intros t1 t2 id1 id2. cbn. now rewrite lookup_empty.
  - intros t id p. cbn. now rewrite lookup_empty.
  - cbn [ClearCache explosionData List.length]. rewrite Hlen. lia.
Qed.

End ReloadAll.

(** ** Class aliases *)

Section Aliases.
Variable aliases : gmap string string.

Lemma alias_cycle_step n :
  tc (alias_of aliases) n n ->
  exists n', aliases !! n = Some n' /\ tc (alias_of aliases) n' n'.
Proof.
  intros Hc. inversion Hc as [? ? Hs|? n' ? Hs Hrest]; subst.
  - exists n. split; [exact Hs|exact Hc].
  - exists n'. split; [exact Hs|]. eapply tc_r; eassumption.
Qed.

(** a name on a cycle of aliases is never resolved *)
Lemma resolve_alias_cycle fuel : forall n,
  tc (alias_of aliases) n n -> resolve_alias fuel aliases n = Diverges.
Proof.
  induction fuel as [|fuel IH]; intros n Hc;
    destruct (alias_cycle_step n Hc) as (n' & Hn & Hc'); cbn; rewrite Hn;
    [reflexivity|now apply IH].
Qed.

(** the loop with [fuel] rounds left, having passed the names [seen] *)
Lemma resolve_alias_chain fuel : forall (seen : gset string) n,
  (forall v, v ∈ seen -> is_Some (aliases !! v) /\ tc (alias_of aliases) v n) ->
  (size aliases <= fuel + size seen)%nat ->
  (exists m, rtc (alias_of aliases) n m /\ aliases !! m = None
             /\ resolve_alias fuel aliases n = Ok m)
  \/ (exists m, rtc (alias_of aliases) n m /\ tc (alias_of aliases) m m
                /\ resolve_alias fuel aliases n = Diverges).
Proof.
  induction fuel as [|fuel IH]; intros seen n Hseen Hsize.
  - destruct (aliases !! n) as [n'|] eqn:Hn.
    2:{ left. exists n. cbn. rewrite Hn. repeat split; reflexivity || auto. }
    right. exists n. split; [reflexivity|].
    assert (Hin : n ∈ seen).
    { assert (Hsub : seen ⊆ dom aliases)
        by (intros v Hv; apply elem_of_dom; now apply Hseen).
      assert (Heq : seen ≡ dom aliases).
      { apply set_subseteq_size_equiv; [exact Hsub|]. rewrite size_dom. lia. }
      apply Heq. apply elem_of_dom. eauto. }
    assert (Hc : tc (alias_of aliases) n n) by now apply Hseen.
    split; [exact Hc|]. now apply resolve_alias_cycle.
  - destruct (aliases !! n) as [n'|] eqn:Hn.
    2:{ left. exists n. cbn. rewrite Hn. repeat split; reflexivity || auto. }
    destruct (decide (n ∈ seen)) as [Hin|Hout].
    { right. exists n. split; [reflexivity|].
      assert (Hc : tc (alias_of aliases) n n) by now apply Hseen.
      split; [exact Hc|]. now apply resolve_alias_cycle. }
    cbn [resolve_alias]. rewrite Hn.
    destruct (IH (seen ∪ {[n]}) n') as [(m & Hm & Hnone & Hr)|(m & Hm & Hc & Hr)].
    + intros v [Hv|Hv]%elem_of_union.
      * destruct (Hseen v Hv) as [Hs Ht]. split; [exact Hs|].
        eapply tc_r; [exact Ht|exact Hn].
      * apply elem_of_singleton in Hv as ->. split; [eauto|]. now apply tc_once.
    + rewrite size_union by (apply disjoint_singleton_r; exact Hout). rewrite size_singleton. lia.
    + left. exists m. split; [|auto]. eapply rtc_l; [exact Hn|exact Hm].
    + right. exists m. split; [|auto]. eapply rtc_l; [exact Hn|exact Hm].
Qed.

End Aliases.

Section AliasChain.
Context `{Engine}.

(** X16: [GetClass] follows the chain of aliases from the name: either
    the chain ends at a name that is no alias, and the registry is asked for
    that name, or the chain runs into a cycle, and the loop never ends. *)
Theorem GetClass_follows_chain w name :
  let aliases := projectileClasses_aliases w in
  (exists m, rtc (alias_of aliases) name m /\ aliases !! m = None
             /\ ClassAliasList_GetClass w name = Ok (creg_GetClass w m))
  \/ (exists m, rtc (alias_of aliases) name m /\ tc (alias_of aliases) m m
                /\ ClassAliasList_GetClass w name = Diverges).
Proof.
  intros aliases. unfold ClassAliasList_GetClass. fold aliases.
  destruct (resolve_alias_chain aliases (size aliases) ∅ name)
    as [(m & Hm & Hnone & Hr)|(m & Hm & Hc & Hr)].
  - intros v Hv. now apply not_elem_of_empty in Hv.
  - lia.
  - left. exists m. rewrite Hr. auto.
  - right. exists m. rewrite Hr. auto.
Qed.

End AliasChain.

(** ** Edge cases of the tokenizer and of [Explosion] *)

Lemma find_in_from c l : forall i, find_in c l i = npos \/ i <= find_in c l i.
Proof.
  induction l as [|x l IH]; intros i; cbn [find_in]; [now left|].
  destruct (Ascii.eqb x c); [right; lia|].
  destruct (IH (i + 1)) as [E|E]; [now left|right; lia].
Qed.

(** a sign or a point that starts no number: nothing is converted *)
Lemma strtod_no_number s c rest :
  (s = "-"%char /\ isdigit c = false /\ c <> "."%char
   /\ tolower c <> "i"%char /\ tolower c <> "n"%char)
  \/ (s = "."%char /\ isdigit c = false) ->
  snd (strtod (s :: c :: rest)) = O.
Proof.
  intros [(-> & Hd & Hp & Hi & Hn)|(-> & Hd)];
    destruct c as [[] [] [] [] [] [] [] []];
    first [ reflexivity
          | exfalso;
            first [ discriminate Hd | apply Hp; reflexivity
                  | apply Hi; reflexivity | apply Hn; reflexivity ] ].
Qed.

Section EdgeCases.
Context `{Engine}.

(** the first round of the tokenizer ends where it began *)
Lemma stalled_literal_hangs st offset id s c rest :
  legalType id = true ->
  Ascii.eqb s ";" = false -> Ascii.eqb s "d" = false -> Ascii.eqb s " " = false ->
  mnemonic s = None -> starts_literal s = true ->
  snd (strtod (s :: c :: chars rest)) = O ->
  ParseExplosionCode st offset (BasicType id) (String s (String c rest)) = Diverges.
Proof.
  intros Hlegal Hsemi Hd Hsp Hmn Hlit Hn.
  cbn [ParseExplosionCode]. unfold vastr_of, substr.
  assert (Hlen : 2 <= strlen (String s (String c rest)))
    by (unfold strlen; cbn [String.length]; lia).
  destruct (Z.ltb_spec (strlen (String s (String c rest))) 0) as [|_]; [lia|].
  assert (Hfind : 1 <= find (String s (String c rest)) ";" 0).
  { unfold find. destruct (Z.ltb_spec (strlen (String s (String c rest))) 0); [lia|].
    change (drop (Z.to_nat 0) (chars (String s (String c rest))))
      with (s :: c :: chars rest).
    change (find_in ";" (s :: c :: chars rest) 0)
      with (if Ascii.eqb s ";" then 0 else find_in ";" (c :: chars rest) (0 + 1)).
    rewrite Hsemi.
    destruct (find_in_from ";" (c :: chars rest) (0 + 1)) as [E | E];
      [rewrite E; unfold npos|]; lia. }
  cbn [bind].
  change (drop (Z.to_nat 0) (chars (String s (String c rest))))
    with (s :: c :: chars rest).
  destruct (Z.to_nat (Z.min _ _)) as [|k] eqn:Ek; [lia|].
  cbn [take string_of_list_ascii String.eqb]. rewrite Hd, Hlegal. cbn [negb].
  change (chars (String s (String c rest))) with (s :: c :: chars rest).
  cbn [tokenize lookup list_lookup]. rewrite Hsp, Hmn, Hlit.
  cbn [List.length Nat.leb].
  unfold operand. cbn [drop].
  destruct (strtod (s :: c :: chars rest)) as [d n]. cbn [snd] in Hn. subst n.
  reflexivity.
Qed.

(** X17: a scalar expression that begins with a minus sign or a point
    that starts no number is never compiled: the tokenizer puts the
    character back, [strtod] converts nothing, and the loop goes round
    without moving on, appending an ADD of zero every time. *)
Theorem sign_without_number_hangs st offset id s c rest :
  legalType id = true ->
  (s = "-"%char /\ isdigit c = false /\ c <> "."%char
   /\ tolower c <> "i"%char /\ tolower c <> "n"%char)
  \/ (s = "."%char /\ isdigit c = false) ->
  ParseExplosionCode st offset (BasicType id) (String s (String c rest)) = Diverges.
Proof.
  intros Hlegal Hs.
  pose proof (strtod_no_number s c (chars rest) Hs) as Hn.
  destruct Hs as [(-> & _)|(-> & _)];
    apply stalled_literal_hangs; auto.
Qed.

(** X18: the spawner identifier stands for the entry loaded last: on a
    cache that is not empty [Explosion] does with it what it does with the
    index of the last slot. *)
Theorem Explosion_spawner_is_last g w pos dir damage radius gfxMod owner hit :
  explosionData g <> [] ->
  Z.of_nat (List.length (explosionData g)) < EXPLOSION_ID_SPAWNER ->
  Explosion g w EXPLOSION_ID_SPAWNER pos dir damage radius gfxMod owner hit
  = Explosion g w (Z.of_nat (List.length (explosionData g)) - 1)
      pos dir damage radius gfxMod owner hit.
Proof.
  intros Hne Hsize. unfold Explosion.
  assert (0 < Z.of_nat (List.length (explosionData g)))
    by (destruct (explosionData g); [contradiction|cbn; lia]).
  unfold EXPLOSION_ID_SPAWNER, EXPLOSION_ID_STANDARD, EXPLOSION_ID_INVALID in *.
  cbn [Z.eqb Pos.eqb].
  destruct (Z.eqb_spec (Z.of_nat (List.length (explosionData g)) - 1) 4294967294); [lia|].
  destruct (Z.eqb_spec (Z.of_nat (List.length (explosionData g)) - 1) 4294967295); [lia|].
  destruct (Z.eqb_spec (Z.of_nat (List.length (explosionData g)) - 1) 4294967293); [lia|].
  unfold uint32. rewrite Z.mod_small by lia. reflexivity.
Qed.

(** X19: on an empty cache [Explosion] creates nothing and returns false
    for every identifier but the standard one; the spawner identifier wraps
    round to the largest value and is refused by the range test. *)
Theorem Explosion_on_empty_cache g w explosionID pos dir damage radius gfxMod owner hit :
  explosionData g = [] ->
  explosionID <> EXPLOSION_ID_STANDARD ->
  0 <= explosionID ->
  Explosion g w explosionID pos dir damage radius gfxMod owner hit = Ok (false, [], g, w).
Proof.
  intros Hempty Hstd Hpos. unfold Explosion. rewrite Hempty.
  destruct (Z.eqb_spec explosionID EXPLOSION_ID_STANDARD); [contradiction|].
  destruct (explosionID =? EXPLOSION_ID_INVALID); [reflexivity|].
  destruct (explosionID =? EXPLOSION_ID_SPAWNER).
  - reflexivity.
  - cbn [List.length]. destruct (Z.leb_spec (Z.of_nat 0) explosionID); [reflexivity|lia].
Qed.

End EdgeCases.

(** ** [FindAlias] and [LoadGlobal] *)

#[local] Instance alias_le_trans : Transitive alias_le.
Proof. intros a b c. unfold alias_le. apply String_leb_trans. Qed.

#[local] Instance alias_le_refl : Reflexive alias_le.
Proof. intros a. unfold alias_le, String.leb. now rewrite String_compare_refl. Qed.

#[local] Instance alias_le_total : Total alias_le.
Proof. intros a b. unfold alias_le. apply String.leb_total. Qed.

(** in a sorted list [find] returns the least element that passes the test *)
Lemma find_least {A} (R : relation A) (f : A -> bool) (l : list A) x :
  Reflexive R -> StronglySorted R l ->
  List.find f l = Some x ->
  forall y, In y l -> f y = true -> R x y.
Proof.
  intros Hrefl. induction l as [|a l IH]; intros Hs Hf y Hy Hfy; [contradiction|].
  apply StronglySorted_inv in Hs as [Hs Ha]. cbn [List.find] in Hf.
  destruct (f a) eqn:Hfa.
  - injection Hf as <-. destruct Hy as [<-|Hy]; [reflexivity|].
    rewrite List.Forall_forall in Ha. now apply Ha.
  - destruct Hy as [<-|Hy]; [congruence|]. now apply IH.
Qed.

Lemma append_cons a s1 s2 : (String a s1 ++ s2)%string = String a (s1 ++ s2).
Proof. reflexivity. Qed.

Lemma append_nil s : (EmptyString ++ s)%string = s.
Proof. reflexivity. Qed.

Lemma chars_roundtrip s : string_of_list_ascii (chars s) = s.
Proof. apply string_of_list_ascii_of_string. Qed.

Section AliasesAndGlobal.
Context `{Engine}.

(** X20: [FindAlias] answers with the name itself when no alias stands for
    it, and else with the alias that comes first in the order of the map's
    keys. *)
Theorem FindAlias_least_alias aliases className :
  (FindAlias aliases className = className
   /\ forall k, aliases !! k <> Some className)
  \/ (aliases !! (FindAlias aliases className) = Some className
      /\ forall k, aliases !! k = Some className ->
                   String.leb (FindAlias aliases className) k = true).
Proof.
  unfold FindAlias.
  pose proof (merge_sort_Permutation alias_le (map_to_list aliases)) as Hp.
  fold (aliases_in_key_order aliases) in Hp.
  assert (Hin : forall k v, In (k, v) (aliases_in_key_order aliases) <-> aliases !! k = Some v).
  { intros k v. rewrite <- list_elem_of_In, Hp. apply elem_of_map_to_list. }
  destruct (List.find _ _) as [[k v]|] eqn:Hf.
  - right. pose proof Hf as Hf'. apply find_some in Hf' as [Hk Hv]. cbn [fst snd] in *.
    apply String.eqb_eq in Hv as ->. apply Hin in Hk. split; [exact Hk|].
    intros k' Hk'.
    apply (find_least alias_le _ _ _ _
             (StronglySorted_merge_sort alias_le _) Hf (k', className)).
    + now apply Hin.
    + apply String.eqb_refl.
  - left. split; [reflexivity|]. intros k Hk. apply Hin in Hk.
    pose proof (find_none _ _ Hf _ Hk) as E. cbn in E. now rewrite String.eqb_refl in E.
Qed.

Lemma FindAlias_cases aliases className :
  FindAlias aliases className = className
  \/ aliases !! (FindAlias aliases className) = Some className.
Proof.
  unfold FindAlias. destruct (List.find _ _) as [[k v]|] eqn:Hf; [right|now left].
  apply find_some in Hf as [Hk Hv]. cbn [fst snd] in *.
  apply String.eqb_eq in Hv as ->.
  apply list_elem_of_In in Hk. unfold aliases_in_key_order in Hk.
  rewrite merge_sort_Permutation in Hk. now apply elem_of_map_to_list in Hk.
Qed.

(** X21: for a name that is not itself an alias, resolving what
    [FindAlias] answers leads back to the name. *)
Theorem FindAlias_round_trip aliases className :
  aliases !! className = None ->
  resolve_alias (size aliases) aliases (FindAlias aliases className) = Ok className.
Proof.
  intros Hnone.
  assert (Hend : forall fuel, resolve_alias fuel aliases className = Ok className)
    by (intros [|fuel]; cbn; now rewrite Hnone).
  destruct (FindAlias_cases aliases className) as [-> |Hk]; [apply Hend|].
  destruct (size aliases) as [|n] eqn:Hsize.
  - apply map_size_empty_inv in Hsize. subst aliases. now rewrite lookup_empty in Hk.
  - cbn [resolve_alias]. rewrite Hk. apply Hend.
Qed.

Variable StdLoad : World -> string -> Z * World.

(** X22: [LoadGlobal] tests nothing but the colon at position 6: any six
    characters and a colon are cut off, and what remains (of a length a
    string can have) is loaded as a custom generator, whether the call comes
    from Lua or not. *)
Theorem LoadGlobal_strips_any_prefix g w p rest luaCall :
  String.length p = 6%nat ->
  strlen rest <= npos ->
  LoadGlobal StdLoad g w (p ++ ":" ++ rest) luaCall = Load g w rest.
Proof.
  intros Hp Hmax.
  destruct p as [|a1 [|a2 [|a3 [|a4 [|a5 [|a6 [|a7 p]]]]]]]; try discriminate Hp. clear Hp.
  unfold LoadGlobal. repeat (rewrite ?append_cons, ?append_nil).
  cbn [String.eqb].
  set (tag := String a1 _).
  assert (Hlen : strlen tag = 7 + strlen rest).
  { unfold strlen, tag. cbn [String.length]. lia. }
  pose proof (strlen_nonneg rest) as Hrest.
  destruct (Z.leb_spec 7 (strlen tag)) as [_|]; [|lia].
  assert (chars tag !! 6%nat = Some ":"%char) as -> by reflexivity.
  cbn [Ascii.eqb Bool.eqb andb Z.eqb negb]. rewrite andb_false_r.
  unfold substr. destruct (Z.ltb_spec (strlen tag) 7) as [|_]; [lia|].
  change (drop (Z.to_nat 7) (chars tag)) with (chars rest).
  rewrite take_ge.
  2:{ rewrite chars_length. unfold npos, strlen in *. clearbody tag. lia. }
  cbn [bind]. now rewrite chars_roundtrip.
Qed.

End AliasesAndGlobal.

(** ** What [Explosion] creates *)

Lemma GetFlagsFromHeight_ground height altitude :
  Z.land (GetFlagsFromHeight height altitude) SPW_GROUND <> 0 ->
  GetFlagsFromHeight height altitude = SPW_GROUND.
Proof.
  unfold GetFlagsFromHeight.
  repeat match goal with |- context [if ?b then _ else _] => destruct b end;
    cbn; intros Hne; first [reflexivity|now contradiction Hne].
Qed.

Section WhatExplosionCreates.
Context `{Engine}.

Lemma spawn_instances_appends psi damage pos dir owner n : forall c out w out' w',
  spawn_instances psi damage pos dir owner n c out w = Ok (out', w') ->
  exists new,
    out' = out ++ new
    /\ Forall (fun s => exists inst, s = SpawnProjectile (projectileClass psi) inst pos owner) new
    /\ (n = O -> new = []).
Proof.
  induction n as [|n IH]; intros c out w out' w'; cbn [spawn_instances].
  - intros [= <- <-]. exists []. rewrite app_nil_r. auto.
  - destruct (projectileClass psi) as [|cname binderFlags members base] eqn:Hclass;
      [discriminate|].
    intros Hs. apply bind_Ok in Hs as (s & _ & Hs).
    apply IH in Hs as (new & -> & Hnew & _). rewrite ?Hclass in Hnew.
    eexists (_ :: new). rewrite <- app_assoc. split; [reflexivity|].
    split; [|discriminate]. constructor; [eauto|exact Hnew].
Qed.

Lemma spawn_all_appends d w0 pos owner hit damage dir spawnInfo : forall out w out' w',
  (forall psi, In psi spawnInfo -> In psi (projectileSpawn d)) ->
  spawn_all spawnInfo (explosion_flags w0 pos hit) damage pos dir owner out w = Ok (out', w') ->
  exists new, out' = out ++ new /\ Forall (created_by d w0 pos owner hit) new.
Proof.
  induction spawnInfo as [|psi rest IH]; intros out w out' w' Hsub; cbn [spawn_all].
  - intros [= <- <-]. exists []. rewrite app_nil_r. auto.
  - assert (Hrest : forall p, In p rest -> In p (projectileSpawn d))
      by (intros p Hp; apply Hsub; now right).
    destruct (Z.eqb_spec (Z.land (flags psi) (explosion_flags w0 pos hit)) 0) as [|Hflags];
      [now apply IH|].
    destruct (fgt (particleSaturation w) F32.one); [now apply IH|].
    intros Hs. apply bind_Ok in Hs as ([out1 w1] & Hi & Hs).
    apply spawn_instances_appends in Hi as (new1 & -> & Hnew1 & Hnone).
    apply IH in Hs as (new2 & -> & Hnew2); [|exact Hrest].
    exists (new1 ++ new2). rewrite <- app_assoc. split; [reflexivity|].
    apply Forall_app. split; [|exact Hnew2].
    destruct (Z.to_nat (count psi)) as [|k] eqn:Hk.
    + rewrite (Hnone eq_refl). constructor.
    + eapply Forall_impl; [exact Hnew1|].
      intros s (inst & ->). cbn. repeat split.
      exists psi. repeat split; [apply Hsub; now left|exact Hflags|lia].
Qed.

Lemma Explosion_output g w explosionID pos dir damage radius gfxMod owner hit r out g' w' :
  Explosion g w explosionID pos dir damage radius gfxMod owner hit = Ok (r, out, g', w') ->
  g' = g
  /\ Forall (fun s => exists d, In d (explosionData g) /\ created_by d w pos owner hit s) out.
Proof.
  unfold Explosion.
  destruct (explosionID =? EXPLOSION_ID_STANDARD).
  { destruct (StdExplosion _ _ _ _ _ _ _ _ _). intros [= _ <- <- _]. auto. }
  destruct (explosionID =? EXPLOSION_ID_INVALID); [intros [= _ <- <- _]; auto|].
  set (id := if explosionID =? EXPLOSION_ID_SPAWNER then _ else _).
  destruct (Z.of_nat (List.length (explosionData g)) <=? id); [intros [= _ <- <- _]; auto|].
  destruct pos as [[pos_x pos_y] pos_z].
  intros Hr. apply bind_Ok in Hr as (d & Hd & Hr). apply data_at_In in Hd.
  apply bind_Ok in Hr as ([out1 w1] & Hs & Hr).
  apply (spawn_all_appends d w (pos_x, pos_y, pos_z) owner hit) in Hs as (new & -> & Hnew);
    [|auto].
  cbn [app] in Hr.
  set (hc := GetFlagsFromHeight pos_y (F32.sub pos_y (GetHeightReal w pos_x pos_z))) in *.
  assert (Hout : Forall (fun s => exists d, In d (explosionData g)
                             /\ created_by d w (pos_x, pos_y, pos_z) owner hit s)
            (if negb (Z.land hc SPW_GROUND =? 0) && (0 <? ttl (groundFlash d))
                && fgt (flashSize (groundFlash d)) F32.one
             then new ++ [SpawnGroundFlash (pos_x, pos_y, pos_z) (circleAlpha (groundFlash d))
                            (flashAlpha (groundFlash d)) (flashSize (groundFlash d))
                            (circleGrowth (groundFlash d)) (ttl (groundFlash d))
                            (color (groundFlash d))]
             else new)).
  { assert (Hnew' : Forall (fun s => exists d, In d (explosionData g)
                             /\ created_by d w (pos_x, pos_y, pos_z) owner hit s) new)
      by (eapply Forall_impl; [exact Hnew|]; intros s Hs; eauto).
    destruct (Z.eqb_spec (Z.land hc SPW_GROUND) 0) as [|Hground]; cbn [negb andb];
      [exact Hnew'|].
    destruct (Z.ltb_spec 0 (ttl (groundFlash d))) as [Httl|]; cbn [andb]; [|exact Hnew'].
    destruct (fgt (flashSize (groundFlash d)) F32.one) eqn:Hsize; [|exact Hnew'].
    apply Forall_app. split; [exact Hnew'|]. constructor; [|constructor].
    exists d. split; [exact Hd|]. cbn. repeat split; try assumption.
    now apply GetFlagsFromHeight_ground. }
  destruct (useDefaultExplosions d).
  - destruct (StdExplosion _ _ _ _ _ _ _ _ _). injection Hr as _ <- <- _. auto.
  - injection Hr as _ <- <- _. auto.
Qed.

(** X23: [Explosion] leaves the generator as it is, and all it creates is
    at the position of the explosion: projectiles of cached spawn entries
    whose flags meet the flags of the explosion and whose count is positive,
    and a ground flash only where the height class is the ground, with a
    positive life and a size above one. The flags loaded for the ground flash
    are not consulted. *)
Theorem Explosion_creates g w explosionID pos dir damage radius gfxMod owner hit r out g' w' :
  Explosion g w explosionID pos dir damage radius gfxMod owner hit = Ok (r, out, g', w') ->
  g' = g
  /\ Forall (fun s => exists d, In d (explosionData g) /\ created_by d w pos owner hit s) out.
Proof. apply Explosion_output. Qed.

(** X24: no explosion creates an instance of a synced class, as long
    as the cache holds what [Load] and [Reload] put there. *)
Theorem Explosion_never_creates_synced
    g w explosionID pos dir damage radius gfxMod owner hit r out g' w' :
  cache_unsynced g ->
  Explosion g w explosionID pos dir damage radius gfxMod owner hit = Ok (r, out, g', w') ->
  Forall unsynced_spawn out.
Proof.
  intros Hg He. apply Explosion_output in He as [_ Hout].
  eapply Forall_impl; [exact Hout|].
  intros [cls inst p o|] (d & Hd & Hs); [|exact I].
  destruct Hs as (_ & _ & psi & Hpsi & -> & _).
  unfold cache_unsynced in Hg. rewrite List.Forall_forall in Hg.
  specialize (Hg d Hd). unfold unsynced_spawns in Hg. rewrite List.Forall_forall in Hg.
  now apply Hg.
Qed.

End WhatExplosionCreates.

(** ** The further properties on the small engine *)

Section FurtherOnTheSmallEngine.
#[local] Existing Instance testEngine.

Lemma sampleProgram_compiled : Forall (compiled_instr (H:=testEngine)) sampleProgram.
Proof.
  apply Forall_cons_2; [|apply Forall_cons_2; [|apply Forall_cons_2; [|apply Forall_nil_2]]].
  - left. split; reflexivity.
  - right. left. split; [reflexivity|]. exists 3. split; [lia|reflexivity].
  - right. right. left. split; reflexivity.
Qed.

Lemma sampleProgram_in_range : Forall register_in_range sampleProgram.
Proof.
  apply Forall_cons_2; [|apply Forall_cons_2; [|apply Forall_cons_2; [|apply Forall_nil_2]]];
    intros Hop; try discriminate Hop.
  exists 3. split; [lia|reflexivity].
Qed.

Lemma sparkLoaded_compiled : cache_compiled (H:=testEngine) sparkLoaded.
Proof.
  unfold sparkLoaded, loaded_from.
  destruct (Load (H:=testEngine) emptyGenerator sparkTables "spark")
    as [[[id g] w']| | | |] eqn:Hl; try constructor.
  eapply (Load_compiled (H:=testEngine)); [|exact Hl]. constructor.
Qed.

Lemma sparkLoaded_unsynced : cache_unsynced (H:=testEngine) sparkLoaded.
Proof.
  unfold sparkLoaded, loaded_from.
  destruct (Load (H:=testEngine) emptyGenerator sparkTables "spark")
    as [[[id g] w']| | | |] eqn:Hl; try constructor.
  eapply (Load_unsynced (H:=testEngine)); [|exact Hl]. constructor.
Qed.

Lemma cache_dense_empty : cache_dense emptyGenerator.
Proof.
  split; [exact cache_ok_empty|]. split; [|reflexivity].
  intros t1 t2 id Hl. cbn in Hl. now rewrite lookup_empty in Hl.
Qed.

Lemma spark_is_loaded :
  Load (H:=testEngine) emptyGenerator sparkTables "spark"
  = Ok (0, sparkLoaded, sparkTables).
Proof. vm_compute. reflexivity. Qed.

(** what the small engine compiles for the three members of the spark *)
Example spark_program :
  map code (flat_map projectileSpawn (explosionData sparkLoaded))
  = [flat_map encode
       [ {| in_op := OP_ADD; in_arg := le_bytes 4 1069547520 |};
         {| in_op := OP_RAND; in_arg := le_bytes 4 1073741824 |};
         {| in_op := OP_STOREF; in_arg := le_bytes 2 64 |};
         {| in_op := OP_ADD; in_arg := le_bytes 4 1106247680 |};
         {| in_op := OP_INDEX; in_arg := le_bytes 4 1065353216 |};
         {| in_op := OP_STOREI; in_arg := le_bytes 2 68 |};
         {| in_op := OP_DIR; in_arg := le_bytes 2 76 |} ] ++ [OP_END]].
Proof. vm_compute. reflexivity. Qed.

Lemma ParseExplosionCode_appends_instructions_witness :
  exists st',
    ParseExplosionCode (H:=testEngine) noState 0 (ObjectInstanceType particleClass)
      "1.5 r2,30 i1,200,dir" = Ok st'
    /\ extends (H:=testEngine) noState st'.
Proof.
  eexists. split; [reflexivity|].
  apply (ParseExplosionCode_appends_instructions (H:=testEngine) noState 0
           (ObjectInstanceType particleClass) "1.5 r2,30 i1,200,dir").
  reflexivity.
Defined.

Lemma ExecuteExplosionCode_on_instructions_witness :
  (forall junk,
     ExecuteExplosionCode (H:=testEngine) (flat_map encode sampleProgram ++ OP_END :: junk)
       F32.one [] 0 upwards (fun _ => F32.zero) LuaNil
     = ExecuteExplosionCode (H:=testEngine) (flat_map encode sampleProgram ++ [OP_END])
         F32.one [] 0 upwards (fun _ => F32.zero) LuaNil)
  /\ ((exists s',
         ExecuteExplosionCode (H:=testEngine) (flat_map encode sampleProgram ++ [OP_END])
           F32.one [] 0 upwards (fun _ => F32.zero) LuaNil = Ok s'
         /\ map st_offset (instance s') = map st_offset [] ++ store_offsets sampleProgram)
      \/ (ExecuteExplosionCode (H:=testEngine) (flat_map encode sampleProgram ++ [OP_END])
            F32.one [] 0 upwards (fun _ => F32.zero) LuaNil
          = Undefined "buffer index out of range"
          /\ ~ Forall register_in_range sampleProgram)).
Proof.
  apply (ExecuteExplosionCode_on_instructions (H:=testEngine) sampleProgram
           F32.one [] 0 upwards (fun _ => F32.zero) LuaNil).
  exact sampleProgram_compiled.
Defined.

Lemma ExecuteExplosionCode_without_end_witness :
  ExecuteExplosionCode (H:=testEngine) (flat_map encode sampleProgram)
    F32.one [] 0 upwards (fun _ => F32.zero) LuaNil
  = Undefined "read behind the end of the opcode stream".
Proof.
  apply (ExecuteExplosionCode_without_end (H:=testEngine) sampleProgram).
  - exact sampleProgram_compiled.
  - exact sampleProgram_in_range.
Defined.

Lemma compiled_program_runs_witness :
  exists st',
    ParseExplosionCode (H:=testEngine) noState 0 (ObjectInstanceType particleClass)
      "1.5 r2,30 i1,200,dir" = Ok st'
    /\ finished_or_buffer_fault
         (ExecuteExplosionCode (H:=testEngine) (cs_code st' ++ [OP_END])
            F32.one [] 0 upwards (fun _ => F32.zero) LuaNil).
Proof.
  eexists. split; [reflexivity|].
  apply (compiled_program_runs (H:=testEngine) [] LuaNil 0
           (ObjectInstanceType particleClass) "1.5 r2,30 i1,200,dir").
  reflexivity.
Defined.

Lemma resource_field_stores_handle_witness :
  exists p,
    cs_code (H:=testEngine)
      {| cs_code := loadStoreP (H:=testEngine) 16389 40;
         cs_spawnExplGens := [16389]; cs_world := LuaNil |}
    = loadStoreP (H:=testEngine) p 40
    /\ ExecuteExplosionCode (H:=testEngine)
         (cs_code (H:=testEngine)
            {| cs_code := loadStoreP (H:=testEngine) 16389 40;
               cs_spawnExplGens := [16389]; cs_world := LuaNil |} ++ [OP_END])
         F32.one [] 0 upwards (fun _ => F32.zero) LuaNil
       = Ok {| val := F32.zero; ptr := 0; buffer := fun _ => F32.zero;
               instance := [] ++ [{| st_offset := uint16 40;
                                      st_value := VPtr (p mod 256 ^ Z.of_nat ptr_size) |}];
               world := LuaNil |}
    /\ cs_spawnExplGens (H:=testEngine)
         {| cs_code := loadStoreP (H:=testEngine) 16389 40;
            cs_spawnExplGens := [16389]; cs_world := LuaNil |}
       = [] ++ (if String.eqb "IExplosionGenerator*" "IExplosionGenerator*" then [p] else []).
Proof.
  apply (resource_field_stores_handle (H:=testEngine) [] LuaNil 40
           "IExplosionGenerator*" "smoke;" _ F32.one [] 0 upwards (fun _ => F32.zero) LuaNil);
    reflexivity.
Defined.

Lemma illegal_type_throws_witness :
  ParseExplosionCode (H:=testEngine) noState 8 (BasicType crDouble) "1.5"
  = Throw (content_error_msg "1.5").
Proof.
  apply (illegal_type_throws (H:=testEngine) noState 8 crDouble "1.5"); reflexivity.
Defined.

Lemma sign_without_number_hangs_witness :
  ParseExplosionCode (H:=testEngine) noState 8 (BasicType crFloat) "- 1" = Diverges.
Proof.
  apply (sign_without_number_hangs (H:=testEngine) noState 8 crFloat "-" " " "1");
    [reflexivity|].
  left. repeat split; try reflexivity; discriminate.
Defined.

Lemma FindAlias_round_trip_witness :
  resolve_alias (size someAliases) someAliases (FindAlias someAliases "CParticle")
  = Ok "CParticle"%string.
Proof. apply (FindAlias_round_trip someAliases "CParticle"). reflexivity. Defined.

Lemma LoadGlobal_strips_any_prefix_witness :
  LoadGlobal (H:=testEngine) (fun w _ => (EXPLOSION_ID_STANDARD, w))
    emptyGenerator sparkTables ("bogus!" ++ ":" ++ "spark") false
  = Load (H:=testEngine) emptyGenerator sparkTables "spark".
Proof.
  apply (LoadGlobal_strips_any_prefix (H:=testEngine)); [reflexivity|].
  unfold strlen, npos. cbn. lia.
Defined.

Lemma Load_twice_witness :
  Load (H:=testEngine) sparkLoaded twoTables "spark" = Ok (0, sparkLoaded, twoTables).
Proof.
  apply (Load_twice (H:=testEngine) emptyGenerator sparkTables "spark" 0 _ sparkTables).
  - exact spark_is_loaded.
  - discriminate.
Defined.

Lemma spark_is_added :
  Load (H:=testEngine) twoLoaded sparkTables "spark"
  = Ok (2, loaded_from twoLoaded sparkTables "spark", sparkTables).
Proof. vm_compute. reflexivity. Qed.

Lemma Load_keeps_the_rest_witness :
  explosionIDs twoLoaded ⊆ explosionIDs (loaded_from twoLoaded sparkTables "spark")
  /\ (forall tag', tag' <> "spark"%string ->
        explosionIDs (loaded_from twoLoaded sparkTables "spark") !! tag'
        = explosionIDs twoLoaded !! tag')
  /\ explosionData twoLoaded `prefix_of` explosionData (loaded_from twoLoaded sparkTables "spark")
  /\ spawnExplGens twoLoaded `prefix_of` spawnExplGens (loaded_from twoLoaded sparkTables "spark").
Proof.
  exact (Load_keeps_the_rest (H:=testEngine) twoLoaded sparkTables "spark" 2 _ sparkTables
           spark_is_added).
Defined.

Lemma Load_keeps_invariants_witness :
  cache_dense sparkLoaded /\ cache_compiled (H:=testEngine) sparkLoaded
  /\ cache_unsynced (H:=testEngine) sparkLoaded.
Proof.
  apply (Load_keeps_invariants (H:=testEngine) emptyGenerator sparkTables "spark" 0 _ sparkTables).
  - exact cache_dense_empty.
  - apply Forall_nil_2.
  - apply Forall_nil_2.
  - cbn. lia.
  - exact spark_is_loaded.
Defined.

Lemma spark_is_reloaded :
  Reload (H:=testEngine) sparkLoaded sparkTables "spark"
  = Ok (reloaded_from sparkLoaded sparkTables "spark", sparkTables).
Proof. vm_compute. reflexivity. Qed.

Lemma Reload_keeps_programs_witness :
  cache_compiled (H:=testEngine) (reloaded_from sparkLoaded sparkTables "spark")
  /\ cache_unsynced (H:=testEngine) (reloaded_from sparkLoaded sparkTables "spark").
Proof.
  apply (Reload_keeps_programs (H:=testEngine) sparkLoaded sparkTables "spark" _ sparkTables).
  - exact sparkLoaded_compiled.
  - exact sparkLoaded_unsynced.
  - exact spark_is_reloaded.
Defined.

Lemma a_is_reloaded :
  Reload (H:=testEngine) twoLoaded twoTablesEdited "a"
  = Ok (reloaded_from twoLoaded twoTablesEdited "a", twoTablesEdited).
Proof. vm_compute. reflexivity. Qed.

Lemma Reload_single_frame_witness :
  explosionIDs (reloaded_from twoLoaded twoTablesEdited "a") = explosionIDs twoLoaded
  /\ List.length (explosionData (reloaded_from twoLoaded twoTablesEdited "a"))
     = List.length (explosionData twoLoaded)
  /\ (forall i : nat, explosionIDs twoLoaded !! "a"%string <> Some (Z.of_nat i) ->
        explosionData (reloaded_from twoLoaded twoTablesEdited "a") !! i
        = explosionData twoLoaded !! i)
  /\ spawnExplGens twoLoaded
     `prefix_of` spawnExplGens (reloaded_from twoLoaded twoTablesEdited "a")
  /\ (explosionIDs twoLoaded !! "a"%string = None ->
      reloaded_from twoLoaded twoTablesEdited "a" = twoLoaded
      /\ twoTablesEdited = twoTablesEdited).
Proof.
  apply (Reload_single_frame (H:=testEngine) twoLoaded twoTablesEdited "a").
  - exact cache_ok_twoLoaded.
  - discriminate.
  - exact a_is_reloaded.
Defined.

Lemma ba_is_reloaded :
  Reload (H:=testEngine) baLoaded twoTables ""
  = Ok (reloaded_from baLoaded twoTables "", twoTables).
Proof. vm_compute. reflexivity. Qed.

Lemma Reload_all_in_key_order_witness :
  cache_dense (reloaded_from baLoaded twoTables "")
  /\ ids_in_key_order (reloaded_from baLoaded twoTables "")
  /\ (forall t, is_Some (explosionIDs (reloaded_from baLoaded twoTables "") !! t) ->
                is_Some (explosionIDs baLoaded !! t)).
Proof.
  apply (Reload_all_in_key_order (H:=testEngine) baLoaded twoTables _ twoTables).
  - vm_compute. reflexivity.
  - exact ba_is_reloaded.
Defined.

Lemma Explosion_of_compiled_cache_witness :
  finished_or_buffer_fault
    (Explosion (H:=testEngine) sparkLoaded sparkTables 0 upwards upwards
       F32.one F32.one F32.one 0 false).
Proof.
  apply (Explosion_of_compiled_cache (H:=testEngine)).
  - exact sparkLoaded_compiled.
  - exact sparkLoaded_unsynced.
  - lia.
Defined.

Lemma Explosion_spawner_is_last_witness :
  Explosion (H:=testEngine) twoLoaded twoTables EXPLOSION_ID_SPAWNER origin upwards
    F32.one F32.one F32.one 0 false
  = Explosion (H:=testEngine) twoLoaded twoTables
      (Z.of_nat (List.length (explosionData twoLoaded)) - 1) origin upwards
      F32.one F32.one F32.one 0 false.
Proof.
  apply (Explosion_spawner_is_last (H:=testEngine)); [discriminate|].
  cbn. unfold EXPLOSION_ID_SPAWNER. lia.
Defined.

Lemma Explosion_on_empty_cache_witness :
  Explosion (H:=testEngine) emptyGenerator twoTables EXPLOSION_ID_SPAWNER origin upwards
    F32.one F32.one F32.one 0 false
  = Ok (false, [], emptyGenerator, twoTables).
Proof.
  apply (Explosion_on_empty_cache (H:=testEngine)); [reflexivity|discriminate|].
  unfold EXPLOSION_ID_SPAWNER. lia.
Defined.

End FurtherOnTheSmallEngine.

Section ExplosionOnTheSmallEngine.
#[local] Existing Instance testEngine.

(** the spark one unit above the ground *)
Lemma spark_explodes :
  Explosion (H:=testEngine) sparkLoaded sparkTables 0 upwards upwards
    F32.one F32.one F32.one 0 false
  = Ok (true, sparkBlast, sparkLoaded, sparkTables).
Proof. vm_compute. reflexivity. Qed.

Lemma Explosion_creates_witness :
  sparkLoaded = sparkLoaded
  /\ Forall (fun s => exists d, In d (explosionData sparkLoaded)
                      /\ created_by (H:=testEngine) d sparkTables upwards 0 false s)
       sparkBlast.
Proof.
  exact (Explosion_creates (H:=testEngine) sparkLoaded sparkTables 0 upwards upwards
           F32.one F32.one F32.one 0 false true sparkBlast sparkLoaded sparkTables
           spark_explodes).
Defined.

Lemma Explosion_never_creates_synced_witness :
  Forall (unsynced_spawn (H:=testEngine)) sparkBlast.
Proof.
  exact (Explosion_never_creates_synced (H:=testEngine) sparkLoaded sparkTables 0 upwards
           upwards F32.one F32.one F32.one 0 false true sparkBlast sparkLoaded sparkTables
           sparkLoaded_unsynced spark_explodes).
Defined.

End ExplosionOnTheSmallEngine.
